(** * Gaussian elimination and solution assembly of the matrix repository

    A shallow embedding of [src/updated.ts] (the same functions appear, with
    identical bodies, in [src/RREF.ts]): [augmentedMatrix], [rowEchelonForm],
    [reducedRowEchelonForm], [identifyPivotColumns], [findNullSpaceSolution]
    and [findParticularSolution]; and of the other functions of
    [src/RREF.ts] that compute with the four field operations:
    [findSolutions], [transposeMatrix], [multiplyMatrices], [createMatrix],
    [identityMatrix], [multiply], [decomposeLU], [verifyDecomposition],
    [isSymmetric], [isPositiveDefinite], [calculateDeterminant], the three
    elementary matrices and [verifyCholeskyDecomposition].
    [choleskyDecomposition] takes square roots and [findGeneralSolution]
    formats numbers as text; they are not embedded.

    Numbers.  The source computes with IEEE doubles.  The properties studied
    here are the exact-arithmetic ones, so a [number] is a rational in
    canonical form ([Qc]): equality is Leibniz equality, [element !== 0] is a
    decidable test, and the field laws hold.

    Undefined values.  A JavaScript read past the end of an array yields
    [undefined], which turns into [NaN] in arithmetic, and a write past the end
    leaves holes.  Exact arithmetic has no such values: the embedding stops
    with [Err UndefinedValue] at the point where the source would let one flow
    into a number.  The exceptions the source can really raise are kept apart:
    [TypeError] (a property of [undefined] is read, e.g. [matrix[0].length] on
    an empty matrix), [RangeError] ([Array(-1)]) and [DivisionByZero] (the
    explicit [throw] of [rowEchelonForm]; in [decomposeLU], where the source
    divides by a zero pivot and goes on with [Infinity] or [NaN], the
    embedding stops with the same error).

    Doubles and run-time values.  Two properties of the pipeline depend on
    what exact arithmetic leaves out: whether a rounding residual counts as a
    pivot, and whether a row can hold [undefined].  For these the module
    [Double] embeds [augmentedMatrix], [rowEchelonForm],
    [reducedRowEchelonForm] and [findParticularSolution] once more, on the
    kernel's binary64 floats and on values that may be [undefined] or [null],
    operation for operation as the source performs them. *)

From Stdlib Require Import List Arith Lia Bool QArith Qcanon Field Permutation.
From Stdlib Require PrimFloat.
Import ListNotations.

Local Open Scope Qc_scope.

(** ** Results and errors *)

Inductive error : Type :=
| TypeError
| RangeError
| DivisionByZero
| UndefinedValue.

Inductive result (A : Type) : Type :=
| Ok (a : A)
| Err (e : error).

Arguments Ok {A} a.
Arguments Err {A} e.

Definition bind {A B : Type} (r : result A) (k : A -> result B) : result B :=
  match r with
  | Ok a => k a
  | Err e => Err e
  end.

Notation "x <- c ;; k" := (bind c (fun x => k))
  (at level 61, c at next level, right associativity).

(** ** Numbers, rows and matrices *)

Abbreviation number := Qc.
Abbreviation Vector := (list Qc).
Abbreviation Matrix := (list (list Qc)).

(** [element !== 0] *)
Definition nonzero (element : number) : bool := negb (Qeq_bool element 0).

(** [row.findIndex(p)]: the first index whose element satisfies [p]; [None]
    stands for the source's [-1]. *)
Fixpoint findIndex {A : Type} (p : A -> bool) (row : list A) : option nat :=
  match row with
  | [] => None
  | x :: rest => if p x then Some 0%nat else option_map S (findIndex p rest)
  end.

(** [matrix[i]] used as an object ([matrix[i].findIndex], [matrix[i].map],
    [matrix[0].length]): a [TypeError] when the row does not exist. *)
Definition row_at (matrix : Matrix) (i : nat) : result (list number) :=
  match nth_error matrix i with
  | Some row => Ok row
  | None => Err TypeError
  end.

(** A value read from an array and used as a number: [undefined] has no
    exact-arithmetic value. *)
Definition as_number (v : option number) : result number :=
  match v with
  | Some x => Ok x
  | None => Err UndefinedValue
  end.

(** [matrix[i] = row] for an existing index [i]. *)
Fixpoint update {A : Type} (i : nat) (x : A) (l : list A) : list A :=
  match l, i with
  | [], _ => []
  | _ :: rest, O => x :: rest
  | y :: rest, S i' => y :: update i' x rest
  end.

(** [vector[i] = v] on a dense array: an index below the length replaces, the
    index equal to the length extends the array by one element, a larger
    index would leave holes. *)
Definition arr_set (vector : Vector) (i : nat) (v : number) : result Vector :=
  if (i <? length vector)%nat then Ok (update i v vector)
  else if (i =? length vector)%nat then Ok (vector ++ [v])
  else Err UndefinedValue.

(** [Array(n).fill(0)], where [n] is [numCols - 1] in the source: negative for
    [numCols = 0], which is a [RangeError]. *)
Definition zero_array (numCols : nat) : result Vector :=
  match numCols with
  | O => Err RangeError
  | S n => Ok (repeat 0 n)
  end.

(** [row.map((element, k) => f k element)] with a callback that can fail. *)
Fixpoint mapi_result {A B : Type} (f : nat -> A -> result B) (k : nat) (l : list A)
  : result (list B) :=
  match l with
  | [] => Ok []
  | x :: rest =>
      y <- f k x ;;
      ys <- mapi_result f (S k) rest ;;
      Ok (y :: ys)
  end.

(** [for (let i = lo; i < lo + n; i++) body] *)
Fixpoint for_up {St : Type} (body : nat -> St -> result St) (lo n : nat) (s : St)
  : result St :=
  match n with
  | O => Ok s
  | S n' => s' <- body lo s ;; for_up body (S lo) n' s'
  end.

(** [for (let i = n - 1; i >= 0; i--) body] *)
Fixpoint for_down {St : Type} (body : nat -> St -> result St) (n : nat) (s : St)
  : result St :=
  match n with
  | O => Ok s
  | S k => s' <- body k s ;; for_down body k s'
  end.

(** ** The pipeline of [src/updated.ts] *)

(** [A.map((row, i) => [...row, b[i]])] *)
Definition augmentedMatrix (A : Matrix) (b : Vector) : result Matrix :=
  mapi_result (fun i row => bi <- as_number (nth_error b i) ;; Ok (row ++ [bi])) 0 A.

(** The body shared by both elimination loops:
    [factor = matrix[j][pivotIndex];
     matrix[j] = matrix[j].map((element, k) => element - factor * matrix[i][k])] *)
Definition eliminate (i pivotIndex j : nat) (matrix : Matrix) : result Matrix :=
  rowj <- row_at matrix j ;;
  let factor := nth_error rowj pivotIndex in
  newRow <- mapi_result
              (fun k element =>
                 f <- as_number factor ;;
                 rowi <- row_at matrix i ;;
                 x <- as_number (nth_error rowi k) ;;
                 Ok (element - f * x)) 0 rowj ;;
  Ok (update j newRow matrix).

(** One iteration of the outer loop of [rowEchelonForm]. *)
Definition refBody (m i : nat) (matrix : Matrix) : result Matrix :=
  rowi <- row_at matrix i ;;
  match findIndex nonzero rowi with
  | None => Ok matrix
  | Some pivotIndex =>
      match nth_error rowi pivotIndex with
      | Some pivot =>
          let matrix1 := update i (map (fun element => element / pivot) rowi) matrix in
          for_up (eliminate i pivotIndex) (S i) (m - S i)%nat matrix1
      | None => Err DivisionByZero
      end
  end.

Definition rowEchelonForm (matrix : Matrix) : result Matrix :=
  let m := length matrix in
  _ <- row_at matrix 0 ;;
  for_up (refBody m) 0 m matrix.

(** One iteration of the outer loop of [reducedRowEchelonForm]. *)
Definition rrefBody (i : nat) (matrix : Matrix) : result Matrix :=
  rowi <- row_at matrix i ;;
  match findIndex nonzero rowi with
  | None => Ok matrix
  | Some pivotIndex => for_down (eliminate i pivotIndex) i matrix
  end.

Definition reducedRowEchelonForm (matrix : Matrix) : result Matrix :=
  for_down rrefBody (length matrix) matrix.

Record Classification : Type := {
  pivotColumns : list nat;
  nonPivotColumns : list nat
}.

(** [pivotColumns.includes(j)] *)
Definition includes (l : list nat) (j : nat) : bool := existsb (Nat.eqb j) l.

(** The [forEach] of [identifyPivotColumns]: every row with a nonzero element
    pushes the index of its first one. *)
Definition pushPivot (acc : list nat) (row : list number) : list nat :=
  match findIndex nonzero row with
  | Some pivotIndex => acc ++ [pivotIndex]
  | None => acc
  end.

Definition collectPivots (matrix : Matrix) : list nat :=
  fold_left pushPivot matrix [].

Definition identifyPivotColumns (augmented : Matrix) : result Classification :=
  let pivots := collectPivots augmented in
  row0 <- row_at augmented 0 ;;
  let free :=
    fold_left (fun acc j => if includes pivots j then acc else acc ++ [j])
              (seq 0 (length row0 - 1)%nat) [] in
  Ok {| pivotColumns := pivots; nonPivotColumns := free |}.

(** [pivotColumns.forEach((col, rowIndex) => ...)] of [findNullSpaceSolution]
    for the vector number [index]. *)
Fixpoint fillPivots (matrix : Matrix) (freeCol : nat) (cols : list nat)
  (rowIndex : nat) (v : Vector) : result Vector :=
  match cols with
  | [] => Ok v
  | col :: rest =>
      row <- row_at matrix rowIndex ;;
      x <- as_number (nth_error row freeCol) ;;
      v' <- arr_set v col (- x) ;;
      fillPivots matrix freeCol rest (S rowIndex) v'
  end.

Definition nullSpaceVector (matrix : Matrix) (numCols : nat) (pivots : list nat)
  (index : nat) : result Vector :=
  v0 <- zero_array numCols ;;
  v1 <- arr_set v0 (length pivots + index)%nat 1 ;;
  fillPivots matrix (length pivots + index)%nat pivots 0 v1.

Definition findNullSpaceSolution (matrix : Matrix) : result (list Vector) :=
  row0 <- row_at matrix 0 ;;
  let numCols := length row0 in
  cls <- identifyPivotColumns matrix ;;
  let pivots := pivotColumns cls in
  mapi_result (fun _ index => nullSpaceVector matrix numCols pivots index) 0
              (seq 0 (numCols - length pivots)%nat).

(** The write, if any, that the loop of [findParticularSolution] performs for
    one row: the target index and the value read from the last column. *)
Definition particularWrite (numCols : nat) (row : list number)
  : option (nat * option number) :=
  match findIndex nonzero row with
  | Some pivotColumn => Some (pivotColumn, nth_error row (numCols - 1)%nat)
  | None => None
  end.

Definition particularBody (matrix : Matrix) (numCols : nat) (row : nat)
  (particularSolution : Vector) : result Vector :=
  r <- row_at matrix row ;;
  match particularWrite numCols r with
  | Some (pivotColumn, v) =>
      x <- as_number v ;;
      arr_set particularSolution pivotColumn x
  | None => Ok particularSolution
  end.

Definition findParticularSolution (matrix : Matrix) : result Vector :=
  let numRows := length matrix in
  row0 <- row_at matrix 0 ;;
  let numCols := length row0 in
  particularSolution <- zero_array numCols ;;
  for_up (particularBody matrix numCols) 0 numRows particularSolution.

(** The script of [src/updated.ts], steps 1 to 3. *)
Definition pipelineRREF (A : Matrix) (b : Vector) : result Matrix :=
  augmented <- augmentedMatrix A b ;;
  ref <- rowEchelonForm augmented ;;
  reducedRowEchelonForm ref.

(** ** Concrete numbers and decidable equality, for running the code *)

Definition qz (z : Z) : number := Q2Qc (inject_Z z).

Definition vec_eqb (u v : Vector) : bool :=
  (length u =? length v)%nat && forallb (fun p => Qeq_bool (this (fst p)) (this (snd p))) (combine u v).

Fixpoint mat_eqb (M N : list Vector) : bool :=
  match M, N with
  | [], [] => true
  | u :: M', v :: N' => vec_eqb u v && mat_eqb M' N'
  | _, _ => false
  end.

Definition zmat (M : list (list Z)) : Matrix := map (map qz) M.

(** ** Linear algebra used to state the properties *)

(** The dot product of a row with a vector of the same length. *)
Fixpoint dot (r y : Vector) : number :=
  match r, y with
  | e :: r', x :: y' => e * x + dot r' y'
  | _, _ => 0
  end.

(** [A·v] *)
Definition mulMV (A : Matrix) (v : Vector) : Vector := map (fun row => dot row v) A.

(** A rectangular matrix with [n] columns: the [Matrix] invariant of the
    data model. *)
Definition rectangular (n : nat) (M : Matrix) : Prop :=
  Forall (fun r => length r = n) M.

(** The first nonzero entry of the row [r] is in column [p]. *)
Definition leading (r : Vector) (p : nat) : Prop :=
  (p < length r)%nat /\ nth p r 0 <> 0 /\ forall k, (k < p)%nat -> nth k r 0 = 0.

(** Row [i] of [M] exists and its first nonzero entry is in column [p]. *)
Definition leadingAt (M : Matrix) (i p : nat) : Prop :=
  exists r, nth_error M i = Some r /\ leading r p.

(** A row that is entirely zero. *)
Definition zeroRow (r : Vector) : Prop := Forall (fun e => e = 0) r.

(** The entry of row [i] in column [k] (0 outside the matrix). *)
Definition entry (M : Matrix) (i k : nat) : number := nth k (nth i M []) 0.

(** Every row of [M] has 0 in column [p]. *)
Definition colZero (p : nat) (M : Matrix) : Prop :=
  Forall (fun r => nth p r 0 = 0) M.

(** Row-echelon shape as [rowEchelonForm] establishes it: a leading entry is 1
    and the rows below it have 0 in its column. *)
Definition echelonForm (M : Matrix) : Prop :=
  forall i p, leadingAt M i p ->
    entry M i p = 1 /\ forall j, (i < j)%nat -> entry M j p = 0.

(** Reduced shape: a leading entry is 1 and every other row has 0 in its
    column. *)
Definition reducedForm (M : Matrix) : Prop :=
  forall i p, leadingAt M i p ->
    entry M i p = 1 /\ forall j, j <> i -> entry M j p = 0.

(** [y] is orthogonal to every row of [M]. *)
Definition annihilates (M : Matrix) (y : Vector) : Prop :=
  Forall (fun r => dot r y = 0) M.

(** ** Functional characterisation of the two elimination passes *)

(** [row.map(element => element / pivot)] *)
Definition scaleRow (pivot : number) (row : Vector) : Vector :=
  map (fun element => element / pivot) row.

(** [rowj.map((element, k) => element - factor * rowi[k])] on rows of equal
    length. *)
Definition subRow (factor : number) (rowi rowj : Vector) : Vector :=
  map (fun ex => fst ex - factor * snd ex) (combine rowj rowi).

Definition elimBy (p : nat) (rowi rowj : Vector) : Vector :=
  subRow (nth p rowj 0) rowi rowj.

(** What a row with a leading entry does to another row in either pass. *)
Definition reduceBy (rowi rowj : Vector) : Vector :=
  match findIndex nonzero rowi with
  | Some p => elimBy p rowi rowj
  | None => rowj
  end.

(** Forward pass, top row first; [fuel] bounds the number of rows. *)
Fixpoint refRows (fuel : nat) (M : Matrix) : Matrix :=
  match fuel, M with
  | S fuel', r :: rest =>
      match findIndex nonzero r with
      | Some p =>
          let r' := scaleRow (nth p r 0) r in
          r' :: refRows fuel' (map (elimBy p r') rest)
      | None => r :: refRows fuel' rest
      end
  | _, _ => M
  end.

(** Backward pass: the rows below are reduced first, then they act on the
    row above, the lowest one first. *)
Fixpoint rrefRows (M : Matrix) : Matrix :=
  match M with
  | [] => []
  | r :: rest => let R := rrefRows rest in fold_right reduceBy r R :: R
  end.

(** Structural versions of the two shapes. *)
Fixpoint echelonRows (M : Matrix) : Prop :=
  match M with
  | [] => True
  | r :: rest =>
      (forall p, findIndex nonzero r = Some p -> nth p r 0 = 1 /\ colZero p rest)
      /\ echelonRows rest
  end.

Definition reducedRows (M : Matrix) : Prop :=
  forall pre r post p, M = pre ++ r :: post -> findIndex nonzero r = Some p ->
    nth p r 0 = 1 /\ colZero p pre /\ colZero p post.

(** ** The column classification and the particular solution, as properties *)

(** The two index lists are disjoint, their union is the range of the
    coefficient columns, and their sizes add up to its size. *)
Definition partitionsColumns (numCols : nat) (c : Classification) : Prop :=
  (forall j, In j (pivotColumns c) -> In j (nonPivotColumns c) -> False) /\
  (forall j, In j (pivotColumns c) \/ In j (nonPivotColumns c) <-> (j < numCols - 1)%nat) /\
  (length (pivotColumns c) + length (nonPivotColumns c) = numCols - 1)%nat.

(** All entries of the row but the last one are zero. *)
Definition coefficientsZero (row : Vector) : Prop :=
  forall k, (k < length row - 1)%nat -> nth k row 0 = 0.

(** The row [row], between the rows [pre] and [post], adds nothing to the
    pivot columns. *)
Definition contributesNothing (pre : Matrix) (row : Vector) (post : Matrix) : Prop :=
  exists c, identifyPivotColumns (pre ++ row :: post) = Ok c /\
            pivotColumns c = collectPivots pre ++ collectPivots post.

(** Every row with a nonzero entry has its first one in a coefficient column. *)
Definition leadingInCoefficients (numCols : nat) (M : Matrix) : Prop :=
  forall r p, In r M -> leading r p -> (p < numCols - 1)%nat.

(** No two rows have their first nonzero entries in the same column. *)
Definition leadingDistinct (M : Matrix) : Prop :=
  forall i j p, leadingAt M i p -> leadingAt M j p -> i = j.

(** The loop of [findParticularSolution] when every write is in range. *)
Definition assignRows (numCols : nat) (rows : Matrix) (sol : Vector) : Vector :=
  fold_left
    (fun sol r =>
       match findIndex nonzero r with
       | Some p => update p (nth (numCols - 1) r 0) sol
       | None => sol
       end) rows sol.

(** [augmentedMatrix] when [b] has an entry for every row of [A]. *)
Definition augRows (A : Matrix) (b : Vector) : Matrix :=
  map (fun rb => fst rb ++ [snd rb]) (combine A b).

(** ** The system an augmented matrix stands for *)

(** The coefficient block: every row without its last entry. *)
Definition coefficients (M : Matrix) : Matrix := map (@removelast Qc) M.

(** The right-hand side: the last entry of every row. *)
Definition rightHandSide (M : Matrix) : Vector := map (fun row => last row 0) M.

(** ** [findSolutions] of [src/RREF.ts] *)

Record Solutions : Type := {
  particularSolution : Vector;
  homogeneousSolutions : list Vector;
  generalSolutions : list Vector
}.

(** [list.indexOf(x)] where [x] is the result of a [findIndex]: [None] stands
    for [-1], both as the argument (no index was found; the list holds no
    negative number) and as the result. *)
Fixpoint indexOfNat (l : list nat) (x : nat) : option nat :=
  match l with
  | [] => None
  | y :: rest => if (y =? x)%nat then Some 0%nat else option_map S (indexOfNat rest x)
  end.

Definition indexOf (l : list nat) (x : option nat) : option nat :=
  match x with
  | Some p => indexOfNat l p
  | None => None
  end.

(** [array.forEach((x, i) => body)] with a body that can fail, on a state. *)
Fixpoint forEach_result {A St : Type} (body : A -> nat -> St -> result St)
  (i : nat) (l : list A) (s : St) : result St :=
  match l with
  | [] => Ok s
  | x :: rest => s' <- body x i s ;; forEach_result body (S i) rest s'
  end.

(** [for (j = 0; j < n - 1; j++) if (isPivotRow) particularSolution[j] += row[j]] *)
Definition addRowIf (isPivotRow : bool) (n1 : nat) (row ps : Vector) : result Vector :=
  for_up (fun j ps =>
            if isPivotRow then
              cur <- as_number (nth_error ps j) ;;
              x <- as_number (nth_error row j) ;;
              arr_set ps j (cur + x)
            else Ok ps) 0 n1 ps.

(** The body of [augmentedMatrix.forEach((row, i) => ...)]; the state is
    [particularSolution] and [homogeneousSolutions].  An assignment to the
    index [-1] sets a property of the array object and leaves its elements as
    they are. *)
Definition findSolutionsRow (n : nat) (pivots free : list nat) (row : Vector)
  (i : nat) (st : Vector * list Vector) : result (Vector * list Vector) :=
  let isPivotRow := includes pivots i in
  ps <- addRowIf isPivotRow (n - 1) row (fst st) ;;
  if isPivotRow then Ok (ps, snd st)
  else
    h0 <- zero_array n ;;
    h <- match indexOf free (findIndex nonzero row) with
         | Some idx => arr_set h0 idx 1
         | None => Ok h0
         end ;;
    Ok (ps, snd st ++ [h]).

Definition findSolutions (augmented : Matrix) : result Solutions :=
  cls <- identifyPivotColumns augmented ;;
  row0 <- row_at augmented 0 ;;
  let n := length row0 in
  ps0 <- zero_array n ;;
  st <- forEach_result (findSolutionsRow n (pivotColumns cls) (nonPivotColumns cls))
          0 augmented (ps0, []) ;;
  general <- mapi_result
               (fun _ columnIndex => g0 <- zero_array n ;; arr_set g0 columnIndex 1)
               0 (nonPivotColumns cls) ;;
  Ok {| particularSolution := fst st;
        homogeneousSolutions := snd st;
        generalSolutions := general |}.

(** The entry-wise sum of two vectors. *)
Definition vadd (u v : Vector) : Vector :=
  map (fun uv => fst uv + snd uv) (combine u v).

(** The sum of the rows whose index is in [pivots], added to [ps]. *)
Fixpoint sumPivotRows (pivots : list nat) (i : nat) (rows : Matrix) (ps : Vector)
  : Vector :=
  match rows with
  | [] => ps
  | row :: rest =>
      sumPivotRows pivots (S i) rest (if includes pivots i then vadd ps row else ps)
  end.

(** ** The matrix helpers of [src/RREF.ts] *)

(** [result[i][j] = x] *)
Definition set2 (res : Matrix) (i j : nat) (x : number) : result Matrix :=
  row <- row_at res i ;;
  row' <- arr_set row j x ;;
  Ok (update i row' res).

(** [Array.from({ length: rows }, () => Array(cols).fill(0))] *)
Definition zeroMatrix (rows cols : nat) : Matrix := repeat (repeat 0 cols) rows.

Definition transposeMatrix (matrix : Matrix) : result Matrix :=
  let rows := length matrix in
  row0 <- row_at matrix 0 ;;
  let cols := length row0 in
  for_up (fun i res =>
            for_up (fun j res =>
                      row <- row_at matrix i ;;
                      x <- as_number (nth_error row j) ;;
                      set2 res j i x) 0 cols res)
         0 rows (zeroMatrix cols rows).

(** [result[i][j] += A[i][k] * B[k][j]]: the three rows are read first, in
    this order, each a [TypeError] when it does not exist; an [undefined]
    element only turns the sum into [NaN] afterwards. *)
Definition accumulate (A B : Matrix) (i j k : nat) (res : Matrix) : result Matrix :=
  rrow <- row_at res i ;;
  arow <- row_at A i ;;
  brow <- row_at B k ;;
  cur <- as_number (nth_error rrow j) ;;
  a <- as_number (nth_error arow k) ;;
  b <- as_number (nth_error brow j) ;;
  set2 res i j (cur + a * b).

(** The three nested loops of [multiplyMatrices] and of [multiply]. *)
Definition productLoops (A B : Matrix) (rows cols inner : nat) (res : Matrix)
  : result Matrix :=
  for_up (fun i res =>
            for_up (fun j res =>
                      for_up (fun k res => accumulate A B i j k res) 0 inner res)
                   0 cols res)
         0 rows res.

(** What a call of [multiplyMatrices] ends in: the product, its own
    [throw new Error("Invalid matrices for multiplication ...")], or one of the
    other errors. *)
Inductive mulOutcome : Type :=
| Product (M : Matrix)
| InvalidMatrices
| Failed (e : error).

Definition multiplyMatrices (matrix1 matrix2 : Matrix) : mulOutcome :=
  let rows1 := length matrix1 in
  match row_at matrix1 0 with
  | Err e => Failed e
  | Ok r1 =>
      let cols1 := length r1 in
      match row_at matrix2 0 with
      | Err e => Failed e
      | Ok r2 =>
          let cols2 := length r2 in
          if negb (cols1 =? length matrix2)%nat then InvalidMatrices
          else
            match productLoops matrix1 matrix2 rows1 cols2 cols1 (zeroMatrix rows1 cols2) with
            | Ok M => Product M
            | Err e => Failed e
            end
      end
  end.

(** [createMatrix(size)] *)
Definition createMatrix (size : nat) : Matrix := zeroMatrix size size.

(** [list.map((x, i) => f i x)] *)
Fixpoint mapi {A B : Type} (f : nat -> A -> B) (k : nat) (l : list A) : list B :=
  match l with
  | [] => []
  | x :: rest => f k x :: mapi f (S k) rest
  end.

(** [createMatrix(size).map((row, i) => row.map((_, j) => (i === j ? 1 : 0)))] *)
Definition identityMatrix (size : nat) : Matrix :=
  mapi (fun i row => mapi (fun j _ => if (i =? j)%nat then 1 else 0) 0 row) 0
       (createMatrix size).

(** [multiply(A, B)]: every loop runs to [A.length]. *)
Definition multiply (A B : Matrix) : result Matrix :=
  let n := length A in
  productLoops A B n n n (createMatrix n).

(** [E[row][row] = scalar] on the identity matrix. *)
Definition elementaryType1 (size row : nat) (scalar : number) : result Matrix :=
  set2 (identityMatrix size) row row scalar.

(** [E[targetRow][sourceRow] = multiplier] on the identity matrix. *)
Definition elementaryType2 (size targetRow sourceRow : nat) (multiplier : number)
  : result Matrix :=
  set2 (identityMatrix size) targetRow sourceRow multiplier.

(** [[E[row1], E[row2]] = [E[row2], E[row1]]] on the identity matrix; a row
    index outside the matrix would store [undefined] as a row. *)
Definition elementaryType3 (size row1 row2 : nat) : result Matrix :=
  let E := identityMatrix size in
  match nth_error E row1, nth_error E row2 with
  | Some r1, Some r2 => Ok (update row2 r1 (update row1 r2 E))
  | _, _ => Err UndefinedValue
  end.

(** [matrix[i][j] !== matrix[j][i]] on values that may be [undefined]. *)
Definition differ (x y : option number) : bool :=
  match x, y with
  | Some a, Some b => negb (Qeq_bool a b)
  | None, None => false
  | _, _ => true
  end.

(** [matrix[i][j]] as a value: [undefined] when the index is outside the row;
    a [TypeError] when the row does not exist. *)
Definition read2 (matrix : Matrix) (i j : nat) : result (option number) :=
  row <- row_at matrix i ;; Ok (nth_error row j).

(** [isSymmetric]: the loops with the early [return false]; the state is
    [None] while the loops run and [Some false] once they have returned. *)
Definition isSymmetric (matrix : Matrix) : result bool :=
  let n := length matrix in
  r <- for_up (fun i (found : option bool) =>
                 for_up (fun j (found : option bool) =>
                           match found with
                           | Some b => Ok (Some b)
                           | None =>
                               x <- read2 matrix i j ;;
                               y <- read2 matrix j i ;;
                               Ok (if differ x y then Some false else None)
                           end) 0 i found) 0 n None ;;
  Ok (match r with Some b => b | None => true end).

(** Shapes and sums used to state the properties of these helpers. *)
Definition shaped (r c : nat) (M : Matrix) : Prop := length M = r /\ rectangular c M.

Fixpoint sumTo (n : nat) (f : nat -> number) : number :=
  match n with
  | O => 0
  | S n' => sumTo n' f + f n'
  end.

(** How many terms have been added to the entry [(i', j')] when the three
    nested loops stand at [(i, j, k)]. *)
Definition progress (inner i j k i' j' : nat) : nat :=
  if (i' <? i)%nat then inner
  else if (i' =? i)%nat then
         if (j' <? j)%nat then inner else if (j' =? j)%nat then k else 0%nat
       else 0%nat.

(** ** Determinants and positive definiteness ([src/RREF.ts]) *)

(** [matrix[i][j]] used as a number. *)
Definition read (matrix : Matrix) (i j : nat) : result number :=
  row <- row_at matrix i ;; as_number (nth_error row j).

(** [row.filter((x, j) => p j)], the indices counted from [k]. *)
Fixpoint filteri {A : Type} (p : nat -> bool) (k : nat) (l : list A) : list A :=
  match l with
  | [] => []
  | x :: rest => if p k then x :: filteri p (S k) rest else filteri p (S k) rest
  end.

(** [matrix.slice(1).map((row) => row.filter((_, j) => j !== i))] *)
Definition subMatrix (matrix : Matrix) (i : nat) : Matrix :=
  map (filteri (fun j => negb (j =? i)%nat) 0) (skipn 1 matrix).

(** [(i % 2 === 0 ? 1 : -1)] *)
Definition sign (i : nat) : number := if Nat.even i then 1 else - (1).

(** The body of [calculateDeterminant].  [fuel] bounds the depth of the
    recursion; every call removes a row, so the number of rows is enough, and
    with no fuel left the matrix is empty and the loop does not run. *)
Fixpoint determinant (fuel : nat) (matrix : Matrix) : result number :=
  let n := length matrix in
  if (n =? 1)%nat then read matrix 0 0
  else if (n =? 2)%nat then
    a <- read matrix 0 0 ;;
    d <- read matrix 1 1 ;;
    b <- read matrix 0 1 ;;
    c <- read matrix 1 0 ;;
    Ok (a * d - b * c)
  else
    match fuel with
    | O => Ok 0
    | S fuel' =>
        for_up (fun i det =>
                  a <- read matrix 0 i ;;
                  d <- determinant fuel' (subMatrix matrix i) ;;
                  Ok (det + a * d * sign i)) 0 n 0
    end.

Definition calculateDeterminant (matrix : Matrix) : result number :=
  determinant (length matrix) matrix.

(** [determinant <= 0] *)
Definition notPositive (determinant : number) : bool :=
  match determinant ?= 0 with
  | Gt => false
  | _ => true
  end.

(** [isPositiveDefinite]: the symmetry test, then the leading principal
    minors [matrix.slice(0, i).map((row) => row.slice(0, i))] for
    [i = 1 .. n], with the early [return false].  A determinant that is
    [undefined] or [NaN] compares [false] with [<= 0], so the loop goes on. *)
Definition isPositiveDefinite (matrix : Matrix) : result bool :=
  let n := length matrix in
  symmetric <- isSymmetric matrix ;;
  if negb symmetric then Ok false
  else
    r <- for_up (fun i (found : option bool) =>
                   match found with
                   | Some b => Ok (Some b)
                   | None =>
                       let subMatrix := map (firstn i) (firstn i matrix) in
                       match calculateDeterminant subMatrix with
                       | Ok determinant =>
                           Ok (if notPositive determinant then Some false else None)
                       | Err UndefinedValue => Ok None
                       | Err e => Err e
                       end
                   end) 1 n None ;;
    Ok (match r with Some b => b | None => true end).

(** The expansion along the first row that [calculateDeterminant] computes on
    an [n x n] matrix, and the product of [f 0 .. f (n - 1)]. *)
Fixpoint expansion (n : nat) (M : Matrix) : number :=
  match n with
  | O => 0
  | S n' =>
      if (n' =? 0)%nat then entry M 0 0
      else sumTo n (fun i => entry M 0 i * expansion n' (subMatrix M i) * sign i)
  end.

Fixpoint prodTo (n : nat) (f : nat -> number) : number :=
  match n with
  | O => 1
  | S n' => prodTo n' f * f n'
  end.

(** ** LU decomposition ([src/RREF.ts]) *)

(** [let sum = 0; for (let j = 0; j < m; j++) sum += L[i][j] * U[j][k]] *)
Definition partialSum (L U : Matrix) (i k m : nat) : result number :=
  for_up (fun j sum =>
            l <- read L i j ;;
            u <- read U j k ;;
            Ok (sum + l * u)) 0 m 0.

(** [U[i][k] = A[i][k] - sum] for [i = 0 .. k] *)
Definition upperColumn (A L : Matrix) (k : nat) (U : Matrix) : result Matrix :=
  for_up (fun i U =>
            sum <- partialSum L U i k i ;;
            a <- read A i k ;;
            set2 U i k (a - sum)) 0 (S k) U.

(** [L[i][k] = (A[i][k] - sum) / U[k][k]] for [i = k + 1 .. n - 1].  With a
    zero pivot [U[k][k]] the source stores [Infinity] or [NaN] and goes on;
    exact arithmetic has no such values, and the embedding stops there with
    [Err DivisionByZero]. *)
Definition lowerColumn (A U : Matrix) (n k : nat) (L : Matrix) : result Matrix :=
  for_up (fun i L =>
            sum <- partialSum L U i k k ;;
            a <- read A i k ;;
            pivot <- read U k k ;;
            if nonzero pivot then set2 L i k ((a - sum) / pivot)
            else Err DivisionByZero) (S k) (n - S k) L.

(** [decomposeLU(A)]: the pair [{ L, U }]. *)
Definition decomposeLU (A : Matrix) : result (Matrix * Matrix) :=
  let n := length A in
  for_up (fun k (LU : Matrix * Matrix) =>
            let (L, U) := LU in
            U' <- upperColumn A L k U ;;
            L' <- lowerColumn A U' n k L ;;
            Ok (L', U')) 0 n (identityMatrix n, createMatrix n).

(** What holds of [L] and [U] when the outer loop of [decomposeLU] stands at
    column [k]: [L] is unit lower triangular, [U] is upper triangular, the
    columns from [k] on are still those of the identity and of the zero
    matrix, and the columns before [k] of the product are those of [A]. *)
Definition luInvariant (n : nat) (A : Matrix) (k : nat) (L U : Matrix) : Prop :=
  shaped n n L /\ shaped n n U /\
  (forall i, (i < n)%nat -> entry L i i = 1) /\
  (forall i j, (i < j < n)%nat -> entry L i j = 0) /\
  (forall i c, (c < i < n)%nat -> (k <= c)%nat -> entry L i c = 0) /\
  (forall i c, (c < i < n)%nat -> entry U i c = 0) /\
  (forall i c, (i < n)%nat -> (c < n)%nat -> (k <= c)%nat -> entry U i c = 0) /\
  (forall i c, (i < n)%nat -> (c < k)%nat ->
     sumTo n (fun j => entry L i j * entry U j c) = entry A i c).

(** [list.every((x, i) => p i x)] with a callback that can fail: the
    elements after the first [false] are not visited. *)
Fixpoint every_result {A : Type} (p : nat -> A -> result bool) (k : nat) (l : list A)
  : result bool :=
  match l with
  | [] => Ok true
  | x :: rest => b <- p k x ;; if b then every_result p (S k) rest else Ok false
  end.

(** [Math.abs(x)] and the tolerance [1e-8] *)
Definition abs (x : number) : number :=
  match x ?= 0 with
  | Lt => - x
  | _ => x
  end.

Definition tolerance : number := Q2Qc (1 # 100000000).

(** [Math.abs(val - lu) < 1e-8], where [lu] may be [undefined] (the
    difference is then [NaN] and the comparison [false]). *)
Definition close (val : number) (lu : option number) : bool :=
  match lu with
  | Some y => match abs (val - y) ?= tolerance with Lt => true | _ => false end
  | None => false
  end.

(** [verifyDecomposition(A, L, U)] *)
Definition verifyDecomposition (A L U : Matrix) : result bool :=
  LU <- multiply L U ;;
  every_result (fun i row =>
                  every_result (fun j val =>
                                  lurow <- row_at LU i ;;
                                  Ok (close val (nth_error lurow j))) 0 row) 0 A.

(** ** [verifyCholeskyDecomposition] ([src/RREF.ts]) *)

(** [sum + Lij * x], where the sum and [x] may be [NaN] or [undefined]
    ([None]): the result is then [NaN]. *)
Definition addMul (sum : option number) (Lij : number) (x : option number)
  : option number :=
  match sum, x with
  | Some s, Some v => Some (s + Lij * v)
  | _, _ => None
  end.

(** [row.reduce((sum, Lij, k) => sum + Lij * L[j][k], sum)], the indices
    counted from [k]. *)
Fixpoint reduceRow (L : Matrix) (j k : nat) (row : Vector) (sum : option number)
  : result (option number) :=
  match row with
  | [] => Ok sum
  | Lij :: rest =>
      lj <- row_at L j ;;
      reduceRow L j (S k) rest (addMul sum Lij (nth_error lj k))
  end.

(** [L.map((row, i) => row.map((_, j) => L[i].reduce(..., 0)))] *)
Definition reconstruct (L : Matrix) : result (list (list (option number))) :=
  mapi_result (fun i row => mapi_result (fun j _ => reduceRow L j 0 row (Some 0)) 0 row)
              0 L.

(** [Math.abs(a - r) > 1e-8]: [false] when either side is not a number. *)
Definition exceeds (a r : option number) : bool :=
  match a, r with
  | Some x, Some y => match abs (x - y) ?= tolerance with Gt => true | _ => false end
  | _, _ => false
  end.

(** What a call of [verifyCholeskyDecomposition] ends in: a normal return,
    its own [throw new Error("Cholesky decomposition verification failed.")],
    or one of the other errors. *)
Inductive verifyOutcome : Type :=
| Verified
| VerificationFailed
| VerifyError (e : error).

(** The loops carry [true] once the source has thrown. *)
Definition verifyCholeskyDecomposition (A L : Matrix) : verifyOutcome :=
  let n := length A in
  match
    reconstructedA <- reconstruct L ;;
    for_up (fun i (thrown : bool) =>
              for_up (fun j (thrown : bool) =>
                        if thrown then Ok true
                        else
                          arow <- row_at A i ;;
                          rrow <- match nth_error reconstructedA i with
                                  | Some r => Ok r
                                  | None => Err TypeError
                                  end ;;
                          Ok (exceeds (nth_error arow j)
                                      (match nth_error rrow j with
                                       | Some v => v
                                       | None => None
                                       end))) 0 n thrown) 0 n false
  with
  | Ok false => Verified
  | Ok true => VerificationFailed
  | Err e => VerifyError e
  end.

(** ** The pipeline on doubles and run-time values *)

(** The definitions above compute in exact arithmetic, on arrays that hold
    numbers only.  The source computes with IEEE doubles, its test
    [element !== 0] is exact, and an array of type [number[]] can at run time
    hold [undefined] (which [augmentedMatrix] stores when [b] is shorter than
    [A]) or [null].  [Double] embeds the pipeline on such values, with the
    kernel's binary64 floats, operation for operation in the order of the
    source: [undefined] becomes [NaN] in arithmetic as it does there, and no
    error is raised that the source does not raise. *)
Module Double.

Import PrimFloat.

(** What an element of a [number[]] can be at run time. *)
Inductive value : Type :=
| Num (x : float)
| Undefined
| Null.

Definition Vector : Type := list value.
Definition Matrix : Type := list (list value).

(** [ToNumber]: [undefined] becomes [NaN] and [null] becomes 0. *)
Definition toNumber (v : value) : float :=
  match v with
  | Num x => x
  | Undefined => nan
  | Null => zero
  end.

(** [element !== 0]: [-0] is equal to 0, [NaN] is not, and a value that is
    not a number is never strictly equal to one. *)
Definition nonzero (element : value) : bool :=
  match element with
  | Num x => negb (eqb x zero)
  | Undefined => true
  | Null => true
  end.

(** [pivot != null]: [false] for [null] and [undefined] only. *)
Definition notNull (pivot : value) : bool :=
  match pivot with
  | Num _ => true
  | Undefined => false
  | Null => false
  end.

(** [row[k]]: [undefined] outside the array. *)
Definition get (row : Vector) (k : nat) : value := nth k row Undefined.

(** [matrix[i]] used as an object: a [TypeError] when the row does not exist. *)
Definition row_at (matrix : Matrix) (i : nat) : result Vector :=
  match nth_error matrix i with
  | Some row => Ok row
  | None => Err TypeError
  end.

(** [A.map((row, i) => [...row, b[i]])] *)
Definition augmentedMatrix (A : Matrix) (b : Vector) : Matrix :=
  mapi (fun i row => row ++ [get b i]) 0 A.

(** [factor = matrix[j][pivotIndex];
     matrix[j] = matrix[j].map((element, k) => element - factor * matrix[i][k])] *)
Definition eliminate (i pivotIndex j : nat) (matrix : Matrix) : result Matrix :=
  rowj <- row_at matrix j ;;
  let factor := get rowj pivotIndex in
  newRow <- mapi_result
              (fun k element =>
                 rowi <- row_at matrix i ;;
                 Ok (Num (toNumber element - toNumber factor * toNumber (get rowi k))))
              0 rowj ;;
  Ok (update j newRow matrix).

(** One iteration of the outer loop of [rowEchelonForm]. *)
Definition refBody (m i : nat) (matrix : Matrix) : result Matrix :=
  rowi <- row_at matrix i ;;
  match findIndex nonzero rowi with
  | None => Ok matrix
  | Some pivotIndex =>
      let pivot := get rowi pivotIndex in
      if notNull pivot then
        let matrix1 :=
          update i (map (fun element => Num (toNumber element / toNumber pivot)) rowi)
                 matrix in
        for_up (eliminate i pivotIndex) (S i) (m - S i)%nat matrix1
      else Err DivisionByZero
  end.

Definition rowEchelonForm (matrix : Matrix) : result Matrix :=
  let m := length matrix in
  _ <- row_at matrix 0 ;;
  for_up (refBody m) 0 m matrix.

(** One iteration of the outer loop of [reducedRowEchelonForm]. *)
Definition rrefBody (i : nat) (matrix : Matrix) : result Matrix :=
  rowi <- row_at matrix i ;;
  match findIndex nonzero rowi with
  | None => Ok matrix
  | Some pivotIndex => for_down (eliminate i pivotIndex) i matrix
  end.

Definition reducedRowEchelonForm (matrix : Matrix) : result Matrix :=
  for_down rrefBody (length matrix) matrix.

(** [particularSolution[i] = v]: an index past the end leaves holes, which
    read as [undefined]. *)
Definition arr_set (vector : Vector) (i : nat) (v : value) : Vector :=
  if (i <? length vector)%nat then update i v vector
  else vector ++ repeat Undefined (i - length vector) ++ [v].

(** [Array(numCols - 1).fill(0)]: a [RangeError] for [numCols = 0]. *)
Definition zero_array (numCols : nat) : result Vector :=
  match numCols with
  | O => Err RangeError
  | S n => Ok (repeat (Num zero) n)
  end.

Definition particularBody (matrix : Matrix) (numCols : nat) (row : nat)
  (particularSolution : Vector) : result Vector :=
  r <- row_at matrix row ;;
  match findIndex nonzero r with
  | Some pivotColumn =>
      Ok (arr_set particularSolution pivotColumn (get r (numCols - 1)))
  | None => Ok particularSolution
  end.

Definition findParticularSolution (matrix : Matrix) : result Vector :=
  let numRows := length matrix in
  row0 <- row_at matrix 0 ;;
  let numCols := length row0 in
  particularSolution <- zero_array numCols ;;
  for_up (particularBody matrix numCols) 0 numRows particularSolution.

(** The script of [src/updated.ts], steps 1 to 3. *)
Definition pipelineRREF (A : Matrix) (b : Vector) : result Matrix :=
  ref <- rowEchelonForm (augmentedMatrix A b) ;;
  reducedRowEchelonForm ref.

(** Integers as doubles (exact below 2^53), for running the code. *)
Fixpoint ofPos (p : positive) : float :=
  match p with
  | xH => one
  | xO q => two * ofPos q
  | xI q => two * ofPos q + one
  end.

Definition ofZ (z : Z) : float :=
  match z with
  | Z0 => zero
  | Zpos p => ofPos p
  | Zneg p => - ofPos p
  end.

Definition zvec (v : list Z) : Vector := map (fun z => Num (ofZ z)) v.
Definition zmat (M : list (list Z)) : Matrix := map zvec M.

(** Every element of the row, of the matrix, is a number. *)
Definition isNumber (v : value) : Prop := exists x, v = Num x.
Definition numbers (matrix : Matrix) : Prop := Forall (Forall isNumber) matrix.

End Double.

(** ** Basic facts: results, numbers, arrays *)

Lemma bind_Ok {A B : Type} (r : result A) (k : A -> result B) (b : B) :
  bind r k = Ok b -> exists a, r = Ok a /\ k a = Ok b.
Proof. destruct r as [a|e]; simpl; intros H; [eauto | discriminate]. Qed.

Lemma Qeq_bool_Qc (x y : Qc) : Qeq_bool x y = true <-> x = y.
Proof.
  rewrite Qeq_bool_iff. split.
  - apply Qc_is_canon.
  - intros ->. reflexivity.
Qed.

Lemma Qeq_bool_zero (x : Qc) : Qeq_bool x 0%Q = true <-> x = 0.
Proof. exact (Qeq_bool_Qc x 0). Qed.

Lemma nonzero_true (x : number) : nonzero x = true <-> x <> 0.
Proof.
  unfold nonzero. rewrite negb_true_iff. split.
  - intros H E. apply Qeq_bool_zero in E. congruence.
  - intros H. destruct (Qeq_bool x 0%Q) eqn:E; [|reflexivity].
    apply Qeq_bool_zero in E. contradiction.
Qed.

Lemma nonzero_false (x : number) : nonzero x = false <-> x = 0.
Proof.
  unfold nonzero. rewrite negb_false_iff. apply Qeq_bool_zero.
Qed.

Lemma vec_eqb_eq (u v : Vector) : vec_eqb u v = true -> u = v.
Proof.
  unfold vec_eqb. revert v. induction u as [|x u IH]; intros [|y v]; simpl;
    try discriminate; auto.
  rewrite andb_true_iff, Nat.eqb_eq. intros [Hl H].
  apply andb_true_iff in H as [Hx H]. apply Qeq_bool_Qc in Hx. subst y.
  f_equal. apply IH. rewrite andb_true_iff, Nat.eqb_eq. split; [lia | exact H].
Qed.

Lemma mat_eqb_eq (M N : list Vector) : mat_eqb M N = true -> M = N.
Proof.
  revert N. induction M as [|u M IH]; intros [|v N]; simpl; try discriminate; auto.
  rewrite andb_true_iff. intros [H1 H2]. apply vec_eqb_eq in H1. subst.
  f_equal. auto.
Qed.

(** [findIndex] returns the first index that satisfies the test. *)
Lemma findIndex_Some {A : Type} (p : A -> bool) (l : list A) (i : nat) :
  findIndex p l = Some i ->
  (exists x, nth_error l i = Some x /\ p x = true) /\
  (forall j y, (j < i)%nat -> nth_error l j = Some y -> p y = false).
Proof.
  revert i. induction l as [|x l IH]; simpl; intros i H; [discriminate|].
  destruct (p x) eqn:Px.
  - inversion H; subst. split; [exists x; auto | intros j y Hj; lia].
  - destruct (findIndex p l) as [i'|]; simpl in H; [|discriminate].
    inversion H; subst. destruct (IH i' eq_refl) as [[z [Hz Pz]] Hlt].
    split; [exists z; auto|].
    intros [|j] y Hj Hy; simpl in Hy.
    + inversion Hy; subst; assumption.
    + apply (Hlt j); [lia | assumption].
Qed.

Lemma findIndex_None {A : Type} (p : A -> bool) (l : list A) :
  findIndex p l = None <-> Forall (fun x => p x = false) l.
Proof.
  induction l as [|x l IH]; simpl.
  - split; auto.
  - destruct (p x) eqn:Px.
    + split; [discriminate | intros H; inversion H; congruence].
    + destruct (findIndex p l); simpl.
      * split; [discriminate|]. intros H. inversion H; subst.
        apply IH in H3. discriminate.
      * split; auto. intros _. constructor; [assumption | apply IH; reflexivity].
Qed.

(** The leading entry of a row, in terms of its entries. *)
Lemma leading_spec (r : Vector) (p : nat) :
  findIndex nonzero r = Some p <-> leading r p.
Proof.
  unfold leading. revert p. induction r as [|x r IH]; intros p; simpl.
  - split; [discriminate | intros [H _]; lia].
  - destruct (nonzero x) eqn:Nx.
    + apply nonzero_true in Nx. split.
      * intros H; inversion H; subst. repeat split; [lia | assumption | intros; lia].
      * intros (_ & _ & H). destruct p as [|p]; [reflexivity|].
        specialize (H 0%nat ltac:(lia)). simpl in H. contradiction.
    + apply nonzero_false in Nx. subst x. split.
      * destruct (findIndex nonzero r) as [q|] eqn:E; simpl; [|discriminate].
        intros H; inversion H; subst. destruct (proj1 (IH q) eq_refl) as (H1 & H2 & H3).
        repeat split; [lia | assumption |].
        intros [|k] Hk; [reflexivity | apply H3; lia].
      * intros (H1 & H2 & H3). destruct p as [|p]; [contradiction H2; reflexivity|].
        assert (E : findIndex nonzero r = Some p).
        { apply IH. repeat split; [lia | assumption |].
          intros k Hk. apply (H3 (S k)). lia. }
        rewrite E. reflexivity.
Qed.

Lemma leading_None (r : Vector) :
  findIndex nonzero r = None <-> forall k, nth k r 0 = 0.
Proof.
  rewrite findIndex_None. split.
  - intros H k. revert k. induction H as [|x r Hx H IH]; intros [|k]; simpl; auto.
    apply nonzero_false; assumption.
  - induction r as [|x r IH]; intros H; constructor.
    + apply nonzero_false. exact (H 0%nat).
    + apply IH. intros k. exact (H (S k)).
Qed.

Lemma leading_read (r : Vector) (p : nat) :
  findIndex nonzero r = Some p -> nth_error r p = Some (nth p r 0).
Proof.
  intros H. apply leading_spec in H as (H & _). apply nth_error_nth'. exact H.
Qed.

Lemma Qcdiv_0_l (x : Qc) : 0 / x = 0.
Proof. unfold Qcdiv. ring. Qed.

Lemma length_scaleRow (pv : number) (r : Vector) : length (scaleRow pv r) = length r.
Proof. apply length_map. Qed.

Lemma nth_scaleRow (pv : number) (r : Vector) (k : nat) :
  nth k (scaleRow pv r) 0 = nth k r 0 / pv.
Proof.
  unfold scaleRow. rewrite <- (Qcdiv_0_l pv) at 1.
  exact (map_nth (fun e => e / pv) r 0 k).
Qed.

Lemma Qcdiv_nonzero (x pv : Qc) : pv <> 0 -> (x / pv = 0 <-> x = 0).
Proof.
  intros Hpv. split.
  - intros H. assert (E : x = (x / pv) * pv) by (field; assumption).
    rewrite E, H. ring.
  - intros ->. apply Qcdiv_0_l.
Qed.

Lemma findIndex_scaleRow (pv : number) (r : Vector) :
  pv <> 0 -> findIndex nonzero (scaleRow pv r) = findIndex nonzero r.
Proof.
  intros Hpv. induction r as [|x r IH]; simpl; [reflexivity|].
  rewrite IH. replace (nonzero (x / pv)) with (nonzero x); [reflexivity|].
  destruct (nonzero x) eqn:E; symmetry.
  - apply nonzero_true. apply nonzero_true in E. rewrite Qcdiv_nonzero; assumption.
  - apply nonzero_false. apply nonzero_false in E. rewrite Qcdiv_nonzero; assumption.
Qed.

Lemma length_subRow (f : number) (ri rj : Vector) :
  (length rj <= length ri)%nat -> length (subRow f ri rj) = length rj.
Proof.
  intros H. unfold subRow. rewrite length_map, length_combine. lia.
Qed.

Lemma nth_subRow (f : number) (ri rj : Vector) (k : nat) :
  length rj = length ri ->
  nth k (subRow f ri rj) 0 = nth k rj 0 - f * nth k ri 0.
Proof.
  unfold subRow. revert ri k. induction rj as [|e rj IH]; intros [|x ri] k H;
    simpl in *; try discriminate.
  - destruct k; simpl; ring.
  - destruct k as [|k]; [reflexivity|]. apply IH. lia.
Qed.

Lemma subRow_0 (ri rj : Vector) :
  (length rj <= length ri)%nat -> subRow 0 ri rj = rj.
Proof.
  unfold subRow. revert ri. induction rj as [|e rj IH]; intros [|x ri] H;
    simpl in *; try reflexivity; try lia.
  f_equal; [ring | apply IH; lia].
Qed.

Lemma length_elimBy (p : nat) (ri rj : Vector) :
  length rj = length ri -> length (elimBy p ri rj) = length rj.
Proof. intros H. apply length_subRow. lia. Qed.

Lemma nth_elimBy (p : nat) (ri rj : Vector) (k : nat) :
  length rj = length ri ->
  nth k (elimBy p ri rj) 0 = nth k rj 0 - nth p rj 0 * nth k ri 0.
Proof. apply nth_subRow. Qed.

Lemma elimBy_noop (p : nat) (ri rj : Vector) :
  length rj = length ri -> nth p rj 0 = 0 -> elimBy p ri rj = rj.
Proof.
  intros H E. unfold elimBy. rewrite E. apply subRow_0. lia.
Qed.

Lemma dot_scaleRow (pv : number) (r y : Vector) :
  dot (scaleRow pv r) y = dot r y / pv.
Proof.
  revert y. induction r as [|e r IH]; intros [|x y]; simpl;
    try (symmetry; apply Qcdiv_0_l).
  rewrite IH. unfold Qcdiv. ring.
Qed.

Lemma dot_subRow (f : number) (ri rj y : Vector) :
  length rj = length ri ->
  dot (subRow f ri rj) y = dot rj y - f * dot ri y.
Proof.
  unfold subRow. revert ri y. induction rj as [|e rj IH]; intros [|x ri] y H;
    simpl in *; try discriminate.
  - ring.
  - destruct y as [|c y]; [ring|]. rewrite IH by lia. ring.
Qed.

(** ** The loops compute the functional passes on rectangular matrices *)

Lemma skipn_nth_error {A : Type} (l : list A) (k : nat) (x : A) :
  nth_error l k = Some x -> skipn k l = x :: skipn (S k) l.
Proof.
  revert k. induction l as [|y l IH]; intros [|k] H; simpl in *; try discriminate.
  - congruence.
  - apply IH in H. rewrite H. reflexivity.
Qed.

Lemma mapi_eliminate (f : number) (matrix : Matrix) (i : nat) (ri : Vector) :
  nth_error matrix i = Some ri ->
  forall (rj : Vector) (k : nat), (k + length rj <= length ri)%nat ->
  mapi_result
    (fun k element =>
       f' <- as_number (Some f) ;;
       rowi <- row_at matrix i ;;
       x <- as_number (nth_error rowi k) ;;
       Ok (element - f' * x)) k rj
  = Ok (subRow f (skipn k ri) rj).
Proof.
  intros Hi. induction rj as [|e rj IH]; intros k Hk.
  - reflexivity.
  - cbn [mapi_result length] in *. rewrite IH by lia.
    unfold row_at. rewrite Hi.
    destruct (nth_error ri k) as [x|] eqn:Ex.
    2:{ apply nth_error_None in Ex. lia. }
    rewrite (skipn_nth_error ri k x Ex). cbn [bind as_number]. rewrite Ex.
    reflexivity.
Qed.

Lemma update_middle {A : Type} (pre : list A) (x y : A) (post : list A) :
  update (length pre) x (pre ++ y :: post) = pre ++ x :: post.
Proof. induction pre as [|z pre IH]; simpl; [reflexivity | rewrite IH; reflexivity]. Qed.

Lemma nth_error_middle {A : Type} (pre : list A) (y : A) (post : list A) :
  nth_error (pre ++ y :: post) (length pre) = Some y.
Proof. induction pre as [|z pre IH]; simpl; auto. Qed.

Lemma eliminate_Ok (matrix : Matrix) (i p j : nat) (ri rj : Vector) :
  nth_error matrix i = Some ri -> nth_error matrix j = Some rj ->
  length rj = length ri -> (p < length rj)%nat ->
  eliminate i p j matrix = Ok (update j (elimBy p ri rj) matrix).
Proof.
  intros Hi Hj Hl Hp. unfold eliminate. unfold row_at at 1. rewrite Hj.
  cbn [bind].
  rewrite (nth_error_nth' rj 0 Hp).
  rewrite (mapi_eliminate (nth p rj 0) matrix i ri Hi rj 0) by (simpl; lia).
  reflexivity.
Qed.

Lemma rectangular_app (n : nat) (M N : Matrix) :
  rectangular n (M ++ N) <-> rectangular n M /\ rectangular n N.
Proof. apply Forall_app. Qed.

Lemma rectangular_map_elimBy (n p : nat) (ri : Vector) (M : Matrix) :
  length ri = n -> rectangular n M -> rectangular n (map (elimBy p ri) M).
Proof.
  intros Hri H. induction H as [|r M Hr H IH]; simpl; constructor; auto.
  rewrite length_elimBy; congruence.
Qed.

Lemma for_up_eliminate (n i p : nat) (ri : Vector) :
  length ri = n -> (p < n)%nat ->
  forall (post a : Matrix), rectangular n post -> nth_error a i = Some ri ->
  for_up (eliminate i p) (length a) (length post) (a ++ post)
  = Ok (a ++ map (elimBy p ri) post).
Proof.
  intros Hri Hp. induction post as [|rj post IH]; intros a Hpost Hi.
  - reflexivity.
  - inversion Hpost as [|? ? Hrj Hpost']; subst.
    cbn [for_up length map].
    assert (Hi' : nth_error (a ++ rj :: post) i = Some ri).
    { rewrite nth_error_app1; [assumption|]. apply nth_error_Some. congruence. }
    rewrite (eliminate_Ok _ i p (length a) ri rj Hi' (nth_error_middle a rj post))
      by lia.
    rewrite update_middle. cbn [bind].
    specialize (IH (a ++ [elimBy p ri rj]) Hpost').
    rewrite length_app, Nat.add_1_r, <- !app_assoc in IH. cbn [app] in IH.
    apply IH.
    rewrite nth_error_app1; [assumption|]. apply nth_error_Some. congruence.
Qed.

Lemma for_down_eliminate (n p : nat) (ri : Vector) :
  length ri = n -> (p < n)%nat ->
  forall (a rest : Matrix) (k : nat), rectangular n a -> nth_error rest k = Some ri ->
  for_down (eliminate (length a + k) p) (length a) (a ++ rest)
  = Ok (map (elimBy p ri) a ++ rest).
Proof.
  intros Hri Hp. induction a as [|rj a IH] using rev_ind; intros rest k Ha Hk.
  - reflexivity.
  - apply rectangular_app in Ha as [Ha Hrj]. inversion Hrj as [|? ? Hl _]; subst.
    rewrite length_app, Nat.add_1_r. cbn [for_down]. rewrite <- app_assoc.
    cbn [app].
    assert (Hi : nth_error (a ++ rj :: rest) (S (length a) + k) = Some ri).
    { rewrite nth_error_app2 by lia.
      replace (S (length a) + k - length a)%nat with (S k) by lia. exact Hk. }
    rewrite (eliminate_Ok _ _ p (length a) ri rj Hi (nth_error_middle a rj rest))
      by lia.
    rewrite update_middle. cbn [bind].
    replace (S (length a) + k)%nat with (length a + S k)%nat by lia.
    rewrite map_app, <- app_assoc. cbn [map app].
    apply (IH (elimBy p ri rj :: rest) (S k) Ha Hk).
Qed.

Lemma refRows_nil (fuel : nat) : refRows fuel [] = [].
Proof. destruct fuel; reflexivity. Qed.

Lemma for_up_refBody (n : nat) :
  forall (fuel : nat) (rest done : Matrix),
  rectangular n rest -> (length rest <= fuel)%nat ->
  for_up (refBody (length done + length rest)) (length done) (length rest) (done ++ rest)
  = Ok (done ++ refRows fuel rest).
Proof.
  induction fuel as [|fuel IH]; intros rest done Hrest Hfuel.
  - destruct rest; [reflexivity | simpl in Hfuel; lia].
  - destruct rest as [|r rest]; [reflexivity|].
    inversion Hrest as [|? ? Hr Hrest']; subst.
    cbn [for_up length refRows]. unfold refBody at 1. unfold row_at.
    rewrite nth_error_middle. cbn [bind].
    destruct (findIndex nonzero r) as [p|] eqn:Ep.
    + rewrite (leading_read r p Ep).
      pose proof (proj1 (leading_spec r p) Ep) as (Hp & Hnz & _).
      rewrite update_middle.
      replace (length done + S (length rest) - S (length done))%nat
        with (length rest) by lia.
      fold (scaleRow (nth p r 0) r).
      set (r' := scaleRow (nth p r 0) r).
      assert (Hr' : length r' = length r) by apply length_scaleRow.
      pose proof (for_up_eliminate (length r) (length done) p r' Hr' Hp rest
                    (done ++ [r']) Hrest') as E.
      rewrite length_app, Nat.add_1_r, <- !app_assoc in E. cbn [app] in E.
      rewrite E by apply nth_error_middle. cbn [bind].
      specialize (IH (map (elimBy p r') rest) (done ++ [r'])).
      rewrite length_app, Nat.add_1_r, <- !app_assoc, length_map in IH.
      cbn [app] in IH.
      replace (length done + S (length rest))%nat
        with (S (length done) + length rest)%nat by lia.
      apply IH.
      * apply rectangular_map_elimBy; assumption.
      * simpl in Hfuel. lia.
    + cbn [bind].
      specialize (IH rest (done ++ [r])).
      rewrite length_app, Nat.add_1_r, <- !app_assoc in IH. cbn [app] in IH.
      replace (length done + S (length rest))%nat
        with (S (length done) + length rest)%nat by lia.
      apply IH; [assumption | simpl in Hfuel; lia].
Qed.

(** On a non-empty rectangular matrix [rowEchelonForm] returns, and its
    result is the forward pass. *)
Lemma rowEchelonForm_refRows (n : nat) (M : Matrix) :
  rectangular n M -> M <> [] ->
  rowEchelonForm M = Ok (refRows (length M) M).
Proof.
  intros HM Hne. unfold rowEchelonForm.
  destruct M as [|r M]; [contradiction|].
  unfold row_at. cbn [nth_error bind].
  exact (for_up_refBody n (length (r :: M)) (r :: M) [] HM (Nat.le_refl _)).
Qed.

Lemma fold_right_snoc {A B : Type} (f : B -> A -> A) (x : A) (l : list B) (y : B) :
  fold_right f x (l ++ [y]) = fold_right f (f y x) l.
Proof. apply fold_right_app. Qed.

Lemma rrefRows_snoc (a : Matrix) (r : Vector) :
  rrefRows (a ++ [r]) = rrefRows (map (reduceBy r) a) ++ [r].
Proof.
  induction a as [|x a IH]; [reflexivity|].
  cbn [app map rrefRows]. rewrite IH, fold_right_snoc. reflexivity.
Qed.

Lemma for_down_rrefBody (n : nat) :
  forall (k : nat) (a b : Matrix), length a = k -> rectangular n a ->
  for_down rrefBody k (a ++ b) = Ok (rrefRows a ++ b).
Proof.
  induction k as [|k IH]; intros a b Hk Ha.
  - destruct a; [reflexivity | discriminate].
  - destruct (exists_last (l := a)) as (a' & r & ->).
    { intros ->. discriminate. }
    rewrite length_app, Nat.add_1_r in Hk. injection Hk as Hk. subst k.
    apply rectangular_app in Ha as [Ha' Hr]. inversion Hr as [|? ? Hl _]; subst.
    cbn [for_down]. rewrite <- app_assoc. cbn [app].
    unfold rrefBody at 1. unfold row_at. rewrite nth_error_middle. cbn [bind].
    rewrite rrefRows_snoc, <- app_assoc. cbn [app].
    destruct (findIndex nonzero r) as [p|] eqn:Ep.
    + pose proof (proj1 (leading_spec r p) Ep) as (Hp & _).
      pose proof (for_down_eliminate (length r) p r eq_refl Hp a' (r :: b) 0 Ha'
                    eq_refl) as E.
      rewrite Nat.add_0_r in E. rewrite E. cbn [bind].
      replace (map (reduceBy r) a') with (map (elimBy p r) a').
      2:{ apply map_ext. intros x. unfold reduceBy. rewrite Ep. reflexivity. }
      apply IH; [apply length_map | apply rectangular_map_elimBy; auto].
    + cbn [bind].
      replace (map (reduceBy r) a') with a'.
      2:{ rewrite <- (map_id a') at 1. apply map_ext. intros x. unfold reduceBy.
          rewrite Ep. reflexivity. }
      apply IH; auto.
Qed.

(** On a rectangular matrix [reducedRowEchelonForm] returns, and its result
    is the backward pass. *)
Lemma reducedRowEchelonForm_rrefRows (n : nat) (M : Matrix) :
  rectangular n M -> reducedRowEchelonForm M = Ok (rrefRows M).
Proof.
  intros HM. unfold reducedRowEchelonForm.
  pose proof (for_down_rrefBody n (length M) M [] eq_refl HM) as E.
  rewrite !app_nil_r in E. exact E.
Qed.

(** ** Properties of the forward pass *)

Lemma rectangular_refRows (n : nat) :
  forall (fuel : nat) (M : Matrix), rectangular n M -> rectangular n (refRows fuel M).
Proof.
  induction fuel as [|fuel IH]; intros M HM; [destruct M; exact HM|].
  destruct M as [|r M]; [exact HM|]. inversion HM as [|? ? Hr HM']; subst.
  cbn [refRows]. destruct (findIndex nonzero r) as [p|].
  - constructor; [apply length_scaleRow|]. apply IH.
    apply rectangular_map_elimBy; [apply length_scaleRow | assumption].
  - constructor; [reflexivity | apply IH; assumption].
Qed.

Lemma length_refRows : forall (fuel : nat) (M : Matrix), length (refRows fuel M) = length M.
Proof.
  induction fuel as [|fuel IH]; intros M; [destruct M; reflexivity|].
  destruct M as [|r M]; [reflexivity|]. cbn [refRows].
  destruct (findIndex nonzero r); cbn [length]; rewrite IH, ?length_map; reflexivity.
Qed.

Lemma refRows_fuel :
  forall (f1 f2 : nat) (M : Matrix), (length M <= f1)%nat -> (length M <= f2)%nat ->
  refRows f1 M = refRows f2 M.
Proof.
  induction f1 as [|f1 IH]; intros f2 M H1 H2.
  - destruct M; [|simpl in H1; lia]. rewrite !refRows_nil. reflexivity.
  - destruct M as [|r M]; [rewrite !refRows_nil; reflexivity|].
    destruct f2 as [|f2]; [simpl in H2; lia|]. simpl in H1, H2. cbn [refRows].
    destruct (findIndex nonzero r).
    + f_equal. apply IH; rewrite length_map; lia.
    + f_equal. apply IH; lia.
Qed.

(** The first [k] rows of the result depend only on the first [k] rows of
    the input. *)
Lemma refRows_firstn :
  forall (fuel k : nat) (M : Matrix),
  refRows fuel (firstn k M) = firstn k (refRows fuel M).
Proof.
  induction fuel as [|fuel IH]; intros k M.
  - reflexivity.
  - destruct k as [|k]; [reflexivity|]. destruct M as [|r M]; [reflexivity|].
    cbn [firstn refRows]. destruct (findIndex nonzero r).
    + cbn [firstn]. f_equal. rewrite <- IH. f_equal. symmetry. apply firstn_map.
    + cbn [firstn]. f_equal. apply IH.
Qed.

Lemma colZero_map_elimBy (q p : nat) (ri : Vector) (M : Matrix) (n : nat) :
  length ri = n -> rectangular n M -> nth q ri 0 = 0 -> colZero q M ->
  colZero q (map (elimBy p ri) M).
Proof.
  intros Hri HM Hq H. unfold colZero, rectangular in *. rewrite Forall_map.
  rewrite Forall_forall in *. intros r Hr.
  rewrite nth_elimBy by (rewrite (HM r Hr); auto).
  rewrite (H r Hr), Hq. ring.
Qed.

Lemma colZero_refRows (n q : nat) :
  forall (fuel : nat) (M : Matrix), rectangular n M -> colZero q M ->
  colZero q (refRows fuel M).
Proof.
  induction fuel as [|fuel IH]; intros M HM H; [destruct M; exact H|].
  destruct M as [|r M]; [exact H|].
  inversion HM as [|? ? Hr HM']; inversion H as [|? ? Hq H']; subst.
  cbn [refRows]. destruct (findIndex nonzero r) as [p|].
  - assert (Hq' : nth q (scaleRow (nth p r 0) r) 0 = 0).
    { rewrite nth_scaleRow, Hq. apply Qcdiv_0_l. }
    constructor; [exact Hq'|]. apply IH.
    + apply rectangular_map_elimBy; [apply length_scaleRow | assumption].
    + apply (colZero_map_elimBy q p _ M (length r)); auto. apply length_scaleRow.
  - constructor; [exact Hq | apply IH; assumption].
Qed.

Lemma colZero_elimBy_pivot (p : nat) (ri : Vector) (M : Matrix) (n : nat) :
  length ri = n -> rectangular n M -> nth p ri 0 = 1 ->
  colZero p (map (elimBy p ri) M).
Proof.
  intros Hri HM Hp. unfold colZero, rectangular in *. rewrite Forall_map.
  rewrite Forall_forall in *. intros r Hr.
  rewrite nth_elimBy by (rewrite (HM r Hr); auto). rewrite Hp. ring.
Qed.

Lemma echelonRows_refRows (n : nat) :
  forall (fuel : nat) (M : Matrix), rectangular n M -> (length M <= fuel)%nat ->
  echelonRows (refRows fuel M).
Proof.
  induction fuel as [|fuel IH]; intros M HM Hf.
  - destruct M; [exact I | simpl in Hf; lia].
  - destruct M as [|r M]; [exact I|]. inversion HM as [|? ? Hr HM']; subst.
    simpl in Hf. cbn [refRows].
    destruct (findIndex nonzero r) as [p|] eqn:Ep.
    + pose proof (proj1 (leading_spec r p) Ep) as (Hp & Hnz & _).
      set (r' := scaleRow (nth p r 0) r).
      assert (Hr' : length r' = length r) by apply length_scaleRow.
      assert (H1 : nth p r' 0 = 1).
      { unfold r'. rewrite nth_scaleRow. field. exact Hnz. }
      assert (HM'' : rectangular (length r) (map (elimBy p r') M)).
      { apply rectangular_map_elimBy; assumption. }
      split; [|apply IH; [assumption | rewrite length_map; lia]].
      intros q Eq. unfold r' in Eq. rewrite findIndex_scaleRow in Eq by exact Hnz.
      assert (q = p) by congruence. subst q. split; [exact H1|].
      apply (colZero_refRows (length r)); [assumption|].
      apply (colZero_elimBy_pivot p r' M (length r)); assumption.
    + split; [intros q Eq; rewrite Ep in Eq; discriminate|].
      apply IH; [assumption | lia].
Qed.

(** A row that is entirely zero is left alone, where it is. *)
Lemma refRows_zero_row (n : nat) :
  forall (fuel : nat) (M : Matrix) (i : nat) (r : Vector),
  rectangular n M -> nth_error M i = Some r -> findIndex nonzero r = None ->
  nth_error (refRows fuel M) i = Some r.
Proof.
  induction fuel as [|fuel IH]; intros M i r HM Hi Hz; [destruct M; exact Hi|].
  destruct M as [|r0 M]; [exact Hi|]. inversion HM as [|? ? Hr0 HM']; subst.
  cbn [refRows]. destruct i as [|i]; simpl in Hi.
  - inversion Hi; subst. rewrite Hz. reflexivity.
  - assert (Hr : length r = length r0).
    { rewrite Forall_forall in HM'. apply HM'. eapply nth_error_In; eassumption. }
    destruct (findIndex nonzero r0) as [p|]; cbn [nth_error]; [|apply IH; assumption].
    apply IH; [|rewrite nth_error_map, Hi; cbn [option_map] | assumption].
    + apply rectangular_map_elimBy; [apply length_scaleRow | assumption].
    + f_equal. apply elimBy_noop; [rewrite length_scaleRow; exact Hr|].
      apply leading_None. exact Hz.
Qed.

(** A vector is orthogonal to all rows after the pass exactly when it is
    orthogonal to all rows before it. *)

Lemma annihilates_map_elimBy (p : nat) (ri : Vector) (M : Matrix) (y : Vector) (n : nat) :
  length ri = n -> rectangular n M -> dot ri y = 0 ->
  (annihilates (map (elimBy p ri) M) y <-> annihilates M y).
Proof.
  intros Hri HM Hy. unfold annihilates, rectangular in *. rewrite Forall_map.
  rewrite !Forall_forall. rewrite Forall_forall in HM.
  split; intros H r Hr; specialize (H r Hr); unfold elimBy in *;
    rewrite dot_subRow in * by (rewrite (HM r Hr); auto); rewrite Hy in *.
  - rewrite <- H. ring.
  - rewrite H. ring.
Qed.

Lemma annihilates_refRows (n : nat) (y : Vector) :
  forall (fuel : nat) (M : Matrix), rectangular n M ->
  (annihilates (refRows fuel M) y <-> annihilates M y).
Proof.
  induction fuel as [|fuel IH]; intros M HM; [destruct M; reflexivity|].
  destruct M as [|r M]; [reflexivity|]. inversion HM as [|? ? Hr HM']; subst.
  cbn [refRows]. destruct (findIndex nonzero r) as [p|] eqn:Ep.
  - pose proof (proj1 (leading_spec r p) Ep) as (Hp & Hnz & _).
    set (r' := scaleRow (nth p r 0) r).
    assert (Hr' : length r' = length r) by apply length_scaleRow.
    assert (Hd : dot r' y = 0 <-> dot r y = 0).
    { unfold r'. rewrite dot_scaleRow. apply Qcdiv_nonzero. exact Hnz. }
    assert (HM'' : rectangular (length r) (map (elimBy p r') M)).
    { apply rectangular_map_elimBy; assumption. }
    specialize (IH _ HM''). unfold annihilates in *.
    split; intros H; inversion H as [|? ? H1 H2]; subst.
    + apply (proj1 IH) in H2. constructor; [apply Hd; exact H1|].
      apply (annihilates_map_elimBy p r' M y (length r)) in H2; auto.
    + constructor; [apply Hd; exact H1|]. apply (proj2 IH).
      apply (annihilates_map_elimBy p r' M y (length r)); auto. apply Hd; exact H1.
  - specialize (IH M HM'). unfold annihilates in *.
    split; intros H; inversion H; subst; constructor; auto; apply IH; assumption.
Qed.

(** ** Properties of the backward pass *)

Lemma length_reduceBy (ri rj : Vector) :
  length rj = length ri -> length (reduceBy ri rj) = length rj.
Proof.
  intros H. unfold reduceBy. destruct (findIndex nonzero ri); [|reflexivity].
  apply length_elimBy. exact H.
Qed.

Lemma length_fold_reduceBy (n : nat) (r : Vector) (R : Matrix) :
  length r = n -> rectangular n R -> length (fold_right reduceBy r R) = n.
Proof.
  intros Hr HR. induction HR as [|x R Hx HR IH]; simpl; [exact Hr|].
  rewrite length_reduceBy; congruence.
Qed.

Lemma rectangular_rrefRows (n : nat) (M : Matrix) :
  rectangular n M -> rectangular n (rrefRows M).
Proof.
  intros HM. induction HM as [|r M Hr HM IH]; simpl; constructor; auto.
  apply length_fold_reduceBy; assumption.
Qed.

Lemma length_rrefRows (M : Matrix) : length (rrefRows M) = length M.
Proof. induction M as [|r M IH]; simpl; congruence. Qed.

Lemma nth_reduceBy_zero (q : nat) (ri rj : Vector) :
  length rj = length ri -> nth q ri 0 = 0 -> nth q rj 0 = 0 ->
  nth q (reduceBy ri rj) 0 = 0.
Proof.
  intros Hl Hi Hj. unfold reduceBy. destruct (findIndex nonzero ri); [|exact Hj].
  rewrite nth_elimBy by exact Hl. rewrite Hi, Hj. ring.
Qed.

Lemma fold_reduceBy_zero_col (n q : nat) (r : Vector) (R : Matrix) :
  length r = n -> rectangular n R -> colZero q R -> nth q r 0 = 0 ->
  nth q (fold_right reduceBy r R) 0 = 0.
Proof.
  intros Hr HR HZ Hq. induction HR as [|x R Hx HR IH]; simpl; [exact Hq|].
  inversion HZ as [|? ? Zx ZR]; subst.
  apply nth_reduceBy_zero; [|exact Zx | apply IH; exact ZR].
  rewrite (length_fold_reduceBy (length r) r R); auto.
Qed.

Lemma colZero_rrefRows (n q : nat) (M : Matrix) :
  rectangular n M -> colZero q M -> colZero q (rrefRows M).
Proof.
  intros HM. induction HM as [|r M Hr HM IH]; intros HZ; simpl; [constructor|].
  inversion HZ as [|? ? Zr ZM]; subst. constructor; [|apply IH; exact ZM].
  apply (fold_reduceBy_zero_col (length r)); auto.
  apply rectangular_rrefRows. exact HM.
Qed.

(** Rows whose leading entries lie in columns where [r] has 0 leave [r]
    unchanged. *)
Lemma fold_reduceBy_noop (n : nat) (r : Vector) (R : Matrix) :
  length r = n -> rectangular n R ->
  (forall x q, In x R -> findIndex nonzero x = Some q -> nth q r 0 = 0) ->
  fold_right reduceBy r R = r.
Proof.
  intros Hr HR. induction HR as [|x R Hx HR IH]; intros H; simpl; [reflexivity|].
  rewrite IH by (intros y q Hy; apply H; right; exact Hy).
  unfold reduceBy. destruct (findIndex nonzero x) as [q|] eqn:Eq; [|reflexivity].
  apply elimBy_noop; [congruence|]. apply (H x q); [left; reflexivity | exact Eq].
Qed.

(** Rows that have 0 in the column [p] of the leading entry of [r] leave the
    entries of [r] up to column [p] unchanged. *)
Lemma fold_reduceBy_prefix (n p : nat) (r : Vector) (R : Matrix) :
  length r = n -> rectangular n R -> findIndex nonzero r = Some p -> colZero p R ->
  forall k, (k <= p)%nat -> nth k (fold_right reduceBy r R) 0 = nth k r 0.
Proof.
  intros Hr HR Ep HZ. apply leading_spec in Ep as (Hp & Hnz & Hlt).
  induction HR as [|x R Hx HR IH]; intros k Hk; simpl; [reflexivity|].
  inversion HZ as [|? ? Zx ZR]; subst. specialize (IH ZR).
  unfold reduceBy at 1. destruct (findIndex nonzero x) as [q|] eqn:Eq; [|apply IH; exact Hk].
  apply leading_spec in Eq as (Hq & Hqnz & Hqlt).
  rewrite nth_elimBy by (rewrite (length_fold_reduceBy (length r) r R); auto).
  destruct (Nat.lt_trichotomy q p) as [Hlt'|[->|Hgt]].
  - rewrite (IH q) by lia. rewrite (Hlt q Hlt'), (IH k Hk). ring.
  - contradiction.
  - rewrite (Hqlt k) by lia. rewrite (IH k Hk). ring.
Qed.

Lemma leading_prefix (r r' : Vector) (p : nat) :
  length r' = length r -> findIndex nonzero r = Some p ->
  (forall k, (k <= p)%nat -> nth k r' 0 = nth k r 0) ->
  findIndex nonzero r' = Some p.
Proof.
  intros Hl Ep H. apply leading_spec in Ep as (Hp & Hnz & Hlt). apply leading_spec.
  repeat split.
  - lia.
  - rewrite H by lia. exact Hnz.
  - intros k Hk. rewrite H by lia. apply Hlt. exact Hk.
Qed.

(** A row with leading entry 1 in column [q], followed in the fold by rows
    that have 0 in column [q], clears column [q]. *)
Lemma fold_reduceBy_kills (n q : nat) (r x : Vector) (L1 L2 : Matrix) :
  length r = n -> rectangular n (L1 ++ x :: L2) ->
  findIndex nonzero x = Some q -> nth q x 0 = 1 -> colZero q L1 ->
  nth q (fold_right reduceBy r (L1 ++ x :: L2)) 0 = 0.
Proof.
  intros Hr HR Eq H1 HZ. apply rectangular_app in HR as [HL1 HxL2].
  inversion HxL2 as [|? ? Hx HL2]; subst.
  rewrite fold_right_app. cbn [fold_right].
  set (r2 := fold_right reduceBy r L2).
  assert (Hr2 : length r2 = length r).
  { apply (length_fold_reduceBy (length r)); auto. }
  apply (fold_reduceBy_zero_col (length r)); auto.
  - rewrite length_reduceBy; congruence.
  - unfold reduceBy. rewrite Eq. rewrite nth_elimBy by congruence. rewrite H1. ring.
Qed.

Lemma reducedRows_rrefRows (n : nat) (M : Matrix) :
  rectangular n M -> echelonRows M -> reducedRows (rrefRows M).
Proof.
  intros HM. induction HM as [|r M Hr HM IH]; intros HE.
  - intros [|? ?] ? ? ? E; discriminate.
  - destruct HE as [Hlead HE]. specialize (IH HE). cbn [rrefRows].
    set (R := rrefRows M) in *.
    assert (HR : rectangular n R) by (apply rectangular_rrefRows; exact HM).
    intros pre x post p' E Ex. destruct pre as [|y pre]; cbn [app] in E.
    + injection E as E1 E2. subst x post.
      destruct (findIndex nonzero r) as [p|] eqn:Ep.
      * destruct (Hlead p eq_refl) as [H1 HZ].
        assert (HZR : colZero p R) by (apply (colZero_rrefRows n); assumption).
        pose proof (fold_reduceBy_prefix n p r R Hr HR Ep HZR) as Hpre.
        assert (Ep' : findIndex nonzero (fold_right reduceBy r R) = Some p).
        { apply (leading_prefix r); auto.
          rewrite (length_fold_reduceBy n r R); auto. }
        assert (p' = p) by congruence. subst p'.
        repeat split; [|constructor | exact HZR].
        rewrite Hpre by lia. exact H1.
      * rewrite (fold_reduceBy_noop n r R Hr HR) in Ex; [congruence|].
        intros z q _ _. apply leading_None. exact Ep.
    + injection E as E1 E2. subst y.
      destruct (IH pre x post p' E2 Ex) as (H1 & Zpre & Zpost).
      repeat split; [exact H1 | | exact Zpost].
      constructor; [|exact Zpre].
      rewrite E2. rewrite E2 in HR.
      apply (fold_reduceBy_kills n); assumption.
Qed.

Lemma reducedRows_tail (r : Vector) (M : Matrix) :
  reducedRows (r :: M) -> reducedRows M.
Proof.
  intros H pre x post p E Ex.
  destruct (H (r :: pre) x post p) as (H1 & Zpre & Zpost); [rewrite E; reflexivity | exact Ex |].
  inversion Zpre; subst. auto.
Qed.

(** A matrix in reduced shape is a fixed point of the backward pass. *)
Lemma rrefRows_fixed (n : nat) (M : Matrix) :
  rectangular n M -> reducedRows M -> rrefRows M = M.
Proof.
  intros HM. induction HM as [|r M Hr HM IH]; intros HR; [reflexivity|].
  cbn [rrefRows]. rewrite (IH (reducedRows_tail r M HR)). f_equal.
  apply (fold_reduceBy_noop n); auto.
  intros x q Hx Eq. apply in_split in Hx as (pre & post & ->).
  destruct (HR (r :: pre) x post q eq_refl Eq) as (_ & Zpre & _).
  inversion Zpre; subst. assumption.
Qed.

Lemma dot_fold_reduceBy (n : nat) (r y : Vector) (R : Matrix) :
  length r = n -> rectangular n R -> annihilates R y ->
  dot (fold_right reduceBy r R) y = dot r y.
Proof.
  intros Hr HR HA. induction HR as [|x R Hx HR IH]; simpl; [reflexivity|].
  inversion HA as [|? ? Ax AR]; subst. specialize (IH AR).
  unfold reduceBy at 1. destruct (findIndex nonzero x); [|exact IH].
  unfold elimBy. rewrite dot_subRow.
  - rewrite Ax, IH. ring.
  - rewrite (length_fold_reduceBy (length r) r R); auto.
Qed.

Lemma annihilates_rrefRows (n : nat) (y : Vector) (M : Matrix) :
  rectangular n M -> (annihilates (rrefRows M) y <-> annihilates M y).
Proof.
  intros HM. induction HM as [|r M Hr HM IH]; [reflexivity|].
  cbn [rrefRows]. unfold annihilates in *.
  pose proof (rectangular_rrefRows n M HM) as HR.
  split; intros H; inversion H as [|? ? H1 H2]; subst.
  - constructor; [|apply IH; exact H2].
    rewrite <- (dot_fold_reduceBy (length r) r y (rrefRows M)); auto.
  - apply IH in H2. constructor; [|exact H2].
    rewrite (dot_fold_reduceBy (length r) r y (rrefRows M)); auto.
Qed.

(** ** The shapes, entry by entry *)

Lemma zeroRow_findIndex (r : Vector) : zeroRow r <-> findIndex nonzero r = None.
Proof.
  rewrite findIndex_None. unfold zeroRow. rewrite !Forall_forall.
  split; intros H x Hx.
  - apply nonzero_false. apply H. exact Hx.
  - apply nonzero_false. apply H. exact Hx.
Qed.

Lemma entry_app_l (pre post : Matrix) (j k : nat) :
  (j < length pre)%nat -> entry (pre ++ post) j k = entry pre j k.
Proof. intros H. unfold entry. rewrite app_nth1 by exact H. reflexivity. Qed.

Lemma entry_app_r (pre post : Matrix) (j k : nat) :
  (length pre <= j)%nat -> entry (pre ++ post) j k = entry post (j - length pre) k.
Proof. intros H. unfold entry. rewrite app_nth2 by exact H. reflexivity. Qed.

Lemma colZero_entry (p : nat) (M : Matrix) :
  colZero p M <-> forall j, entry M j p = 0.
Proof.
  unfold colZero, entry. split.
  - intros H. induction H as [|r M Hr H IH]; intros [|j]; simpl; auto;
      destruct p; reflexivity.
  - induction M as [|r M IH]; intros H; constructor.
    + exact (H 0%nat).
    + apply IH. intros j. exact (H (S j)).
Qed.

Lemma echelonRows_echelonForm (M : Matrix) : echelonRows M <-> echelonForm M.
Proof.
  unfold echelonForm, leadingAt. induction M as [|r M IH]; simpl.
  - split; [|auto]. intros _ i p (x & Hx & _). destruct i; discriminate.
  - split.
    + intros [Hr HM] i p (x & Hx & Hl). destruct i as [|i]; simpl in Hx.
      * inversion Hx; subst. apply leading_spec in Hl.
        destruct (Hr p Hl) as [H1 HZ]. split; [exact H1|].
        intros [|j] Hj; [lia|]. apply (proj1 (colZero_entry p M) HZ).
      * destruct (proj1 IH HM i p) as [H1 H2]; [exists x; auto|].
        split; [exact H1|]. intros [|j] Hj; [lia|]. apply (H2 j). lia.
    + intros H. split.
      * intros p Ep. apply leading_spec in Ep.
        destruct (H 0%nat p) as [H1 H2]; [exists r; auto|].
        split; [exact H1|]. apply colZero_entry. intros j. apply (H2 (S j)). lia.
      * apply IH. intros i p (x & Hx & Hl).
        destruct (H (S i) p) as [H1 H2]; [exists x; auto|].
        split; [exact H1|]. intros j Hj. apply (H2 (S j)). lia.
Qed.

Lemma reducedRows_reducedForm (M : Matrix) : reducedRows M -> reducedForm M.
Proof.
  intros H i p (r & Hr & Hl). apply leading_spec in Hl.
  apply nth_error_split in Hr as (pre & post & -> & <-).
  destruct (H pre r post p eq_refl Hl) as (H1 & Zpre & Zpost).
  split.
  - unfold entry. rewrite app_nth2, Nat.sub_diag by lia. exact H1.
  - intros j Hj. destruct (Nat.lt_ge_cases j (length pre)) as [Hlt|Hge].
    + rewrite entry_app_l by exact Hlt. apply colZero_entry. exact Zpre.
    + rewrite entry_app_r by exact Hge.
      destruct (j - length pre)%nat as [|d] eqn:Ed; [lia|].
      apply (proj1 (colZero_entry p post) Zpost d).
Qed.

(** ** Running the code on concrete matrices *)

Lemma result_mat_eq (r : result Matrix) (N : Matrix) :
  match r with Ok M => mat_eqb M N = true | Err _ => False end -> r = Ok N.
Proof.
  destruct r as [M|e]; [|contradiction]. intros H. f_equal. apply mat_eqb_eq. exact H.
Qed.

(** Closed equations between concrete matrices and vectors, by evaluation. *)
Ltac run_matrix := apply result_mat_eq; vm_compute; reflexivity.
Ltac run_vector := apply vec_eqb_eq; vm_compute; reflexivity.

Lemma rectangular_firstn (n k : nat) (M : Matrix) :
  rectangular n M -> rectangular n (firstn k M).
Proof.
  intros H. revert k. induction H as [|r M Hr H IH]; intros [|k]; simpl;
    try constructor; [exact Hr | apply IH].
Qed.

(** ** The forward pass: [rowEchelonForm] *)

Lemma leading_elimBy_other (p q : nat) (ri rj : Vector) :
  length rj = length ri -> leading ri p -> leading rj q -> p <> q ->
  leading (elimBy p ri rj) q.
Proof.
  intros Hlen (Hp & _ & Zi) (Hq & Nq & Zj) Hpq. unfold leading.
  rewrite length_elimBy by exact Hlen. split; [exact Hq|].
  destruct (Nat.lt_ge_cases p q) as [Hlt|Hge].
  - rewrite (elimBy_noop p ri rj Hlen (Zj p Hlt)). split; assumption.
  - split.
    + rewrite nth_elimBy by exact Hlen. rewrite (Zi q) by lia.
      intros H. apply Nq.
      replace (nth q rj 0) with (nth q rj 0 - nth p rj 0 * 0) by ring. exact H.
    + intros k Hk. rewrite nth_elimBy by exact Hlen.
      rewrite (Zj k Hk), (Zi k) by lia. ring.
Qed.

(** A row whose leading column is not the leading column of an earlier output
    row keeps its leading column. *)
Lemma refRows_new_leading (n : nat) :
  forall (fuel : nat) (M : Matrix) (i : nat) (r : Vector) (q : nat),
  rectangular n M -> (length M <= fuel)%nat ->
  nth_error M i = Some r -> leading r q ->
  (forall j r', (j < i)%nat -> nth_error (refRows fuel M) j = Some r' -> ~ leading r' q) ->
  exists r'', nth_error (refRows fuel M) i = Some r'' /\ leading r'' q.
Proof.
  induction fuel as [|fuel IH]; intros M i r q HM Hf Hi Hq Hnew.
  - destruct M; [destruct i; discriminate | simpl in Hf; lia].
  - destruct M as [|r0 rest]; [destruct i; discriminate|].
    inversion HM as [|? ? Hr0 Hrest]; subst.
    cbn [refRows] in *. destruct (findIndex nonzero r0) as [p|] eqn:Ep.
    + assert (Npv : nth p r0 0 <> 0) by (apply leading_spec in Ep; apply Ep).
      assert (Hl0 : leading (scaleRow (nth p r0 0) r0) p).
      { apply leading_spec. rewrite findIndex_scaleRow; assumption. }
      destruct i as [|i].
      * injection Hi as <-. apply leading_spec in Hq. rewrite Ep in Hq.
        injection Hq as <-. eexists. split; [reflexivity | exact Hl0].
      * assert (Hpq : p <> q).
        { intros ->. apply (Hnew 0%nat _ ltac:(lia) eq_refl). exact Hl0. }
        cbn [nth_error] in Hi |- *.
        apply (IH (map (elimBy p (scaleRow (nth p r0 0) r0)) rest) i
                  (elimBy p (scaleRow (nth p r0 0) r0) r) q).
        -- apply rectangular_map_elimBy; [rewrite length_scaleRow; reflexivity | exact Hrest].
        -- rewrite length_map. simpl in Hf. lia.
        -- rewrite nth_error_map, Hi. reflexivity.
        -- apply leading_elimBy_other; try assumption.
           rewrite length_scaleRow. unfold rectangular in Hrest.
           rewrite Forall_forall in Hrest. apply Hrest.
           apply nth_error_In with i. exact Hi.
        -- intros j r' Hj Hr'. apply (Hnew (S j) r'); [lia | exact Hr'].
    + destruct i as [|i].
      * injection Hi as <-. apply leading_spec in Hq. congruence.
      * cbn [nth_error] in Hi |- *. apply (IH rest i r q); try assumption.
        -- simpl in Hf. lia.
        -- intros j r' Hj Hr'. apply (Hnew (S j) r'); [lia | exact Hr'].
Qed.

(** C5.  On every rectangular matrix (with at least one row, so that
    [matrix[0].length] can be read) [rowEchelonForm] returns a matrix of the
    same shape in which the first nonzero entry of each row is 1 and the rows
    below it have 0 in its column; a row of the input that is entirely zero
    is the same row, at the same index, in the output; rows are not
    reordered: the first [k] rows of the output are the output for the first
    [k] rows of the input; and leading entries are produced, not lost: a row
    of the input whose first nonzero entry is in a column where no earlier row
    of the output has its leading entry has its leading entry, 1, in that
    column in the output; and the first row of the output is the first row of
    the input divided by its first nonzero entry. *)
Theorem rowEchelonForm_echelon (n : nat) (M : Matrix) :
  rectangular n M -> M <> [] ->
  exists R, rowEchelonForm M = Ok R /\
    length R = length M /\ rectangular n R /\
    echelonForm R /\
    (forall i r, nth_error M i = Some r -> zeroRow r -> nth_error R i = Some r) /\
    (forall k, (0 < k)%nat -> rowEchelonForm (firstn k M) = Ok (firstn k R)) /\
    (forall i q, leadingAt M i q ->
       (forall j, (j < i)%nat -> ~ leadingAt R j q) ->
       leadingAt R i q /\ entry R i q = 1) /\
    (forall r q, nth_error M 0 = Some r -> leading r q ->
       nth_error R 0 = Some (scaleRow (nth q r 0) r)).
Proof.
  intros HM Hne. exists (refRows (length M) M).
  assert (HE : echelonForm (refRows (length M) M)).
  { apply echelonRows_echelonForm. apply (echelonRows_refRows n); auto. }
  split; [apply (rowEchelonForm_refRows n); assumption|].
  split; [apply length_refRows|].
  split; [apply rectangular_refRows; exact HM|].
  split; [exact HE|].
  split; [|split; [|split]].
  - intros i r Hi Hz. apply (refRows_zero_row n); auto.
    apply zeroRow_findIndex. exact Hz.
  - intros k Hk.
    rewrite (rowEchelonForm_refRows n (firstn k M)).
    + f_equal. rewrite <- refRows_firstn. apply refRows_fuel; [lia|].
      rewrite length_firstn. lia.
    + apply rectangular_firstn. exact HM.
    + destruct M; [contradiction|]. destruct k; [lia | discriminate].
  - intros i q (r & Hi & Hq) Hnew.
    destruct (refRows_new_leading n (length M) M i r q HM (le_n _) Hi Hq)
      as (r'' & Hi'' & Hq'').
    + intros j r' Hj Hr' Hl. apply (Hnew j Hj). exists r'. split; assumption.
    + assert (Hat : leadingAt (refRows (length M) M) i q)
        by (exists r''; split; assumption).
      split; [exact Hat | apply (HE i q Hat)].
  - intros r q Hr Hq. destruct M as [|r0 rest]; [discriminate|].
    injection Hr as ->. apply leading_spec in Hq.
    cbn [length refRows]. rewrite Hq. reflexivity.
Qed.

Lemma rowEchelonForm_echelon_witness :
  exists R, rowEchelonForm (zmat [[0; 2; 4]; [0; 0; 0]; [1; 1; 1]]%Z) = Ok R /\
    length R = 3%nat /\ rectangular 3 R /\
    echelonForm R /\
    (forall i r, nth_error (zmat [[0; 2; 4]; [0; 0; 0]; [1; 1; 1]]%Z) i = Some r ->
                 zeroRow r -> nth_error R i = Some r) /\
    (forall k, (0 < k)%nat ->
       rowEchelonForm (firstn k (zmat [[0; 2; 4]; [0; 0; 0]; [1; 1; 1]]%Z))
       = Ok (firstn k R)) /\
    (forall i q, leadingAt (zmat [[0; 2; 4]; [0; 0; 0]; [1; 1; 1]]%Z) i q ->
       (forall j, (j < i)%nat -> ~ leadingAt R j q) ->
       leadingAt R i q /\ entry R i q = 1) /\
    (forall r q, nth_error (zmat [[0; 2; 4]; [0; 0; 0]; [1; 1; 1]]%Z) 0 = Some r ->
       leading r q -> nth_error R 0 = Some (scaleRow (nth q r 0) r)).
Proof.
  apply (rowEchelonForm_echelon 3 (zmat [[0; 2; 4]; [0; 0; 0]; [1; 1; 1]]%Z)).
  - repeat constructor.
  - discriminate.
Defined.

(** ** The backward pass: [reducedRowEchelonForm] *)

(** On a matrix in echelon shape the backward pass leaves every row its
    leading column. *)
Lemma leading_rrefRows (n : nat) (M : Matrix) :
  rectangular n M -> echelonRows M ->
  forall i r, nth_error M i = Some r ->
    exists r', nth_error (rrefRows M) i = Some r' /\
               findIndex nonzero r' = findIndex nonzero r.
Proof.
  intros HM. induction HM as [|r0 rest Hr0 Hrest IH]; intros HE i r Hi.
  - destruct i; discriminate.
  - destruct HE as [Hhead Htail]. cbn [rrefRows].
    pose proof (rectangular_rrefRows n rest Hrest) as HR.
    destruct i as [|i]; cbn [nth_error] in *; [|apply IH; assumption].
    injection Hi as <-. eexists. split; [reflexivity|].
    destruct (findIndex nonzero r0) as [p|] eqn:Ep.
    + destruct (Hhead p eq_refl) as [_ Hcol].
      apply (leading_prefix r0); [|exact Ep|].
      * rewrite (length_fold_reduceBy n); auto.
      * apply (fold_reduceBy_prefix n); auto.
        apply (colZero_rrefRows n); assumption.
    + rewrite (fold_reduceBy_noop n); auto.
      intros x q _ _. apply (proj1 (leading_None r0) Ep).
Qed.

(** C4.  On every matrix [M] produced by [rowEchelonForm] (from a rectangular
    input) [reducedRowEchelonForm] returns a matrix [R] in which the column of
    each row's first nonzero entry holds 1 in that row and 0 in every other
    row.  [R] is that reduced form of [M]: it has the rows and columns of [M],
    each row has its first nonzero entry in the same column as in [M] (and an
    entirely zero row stays entirely zero), and the same vectors are
    orthogonal to all rows of [R] and to all rows of [M]. *)
Theorem reducedRowEchelonForm_reduced (n : nat) (M0 M : Matrix) :
  rectangular n M0 -> rowEchelonForm M0 = Ok M ->
  exists R, reducedRowEchelonForm M = Ok R /\ reducedForm R /\
    length R = length M /\ rectangular n R /\
    (forall i p, leadingAt R i p <-> leadingAt M i p) /\
    (forall i r, nth_error M i = Some r -> zeroRow r -> nth_error R i = Some r) /\
    (forall y, annihilates R y <-> annihilates M y).
Proof.
  intros HM0 E.
  assert (Hne : M0 <> []) by (intros ->; discriminate).
  rewrite (rowEchelonForm_refRows n M0 HM0 Hne) in E. injection E as <-.
  set (M := refRows (length M0) M0).
  assert (HM : rectangular n M) by (apply rectangular_refRows; exact HM0).
  assert (HE : echelonRows M) by (apply (echelonRows_refRows n); auto).
  assert (Hlen : length (rrefRows M) = length M) by apply length_rrefRows.
  assert (Hlead : forall i, findIndex nonzero (nth i (rrefRows M) [])
                            = findIndex nonzero (nth i M [])).
  { intros i. destruct (nth_error M i) as [r|] eqn:Ei.
    - destruct (leading_rrefRows n M HM HE i r Ei) as (r' & Ei' & Er').
      rewrite (nth_error_nth _ _ _ Ei), (nth_error_nth _ _ _ Ei'). exact Er'.
    - apply nth_error_None in Ei.
      rewrite !nth_overflow by lia. reflexivity. }
  exists (rrefRows M).
  split; [apply (reducedRowEchelonForm_rrefRows n); exact HM|].
  split; [apply reducedRows_reducedForm; apply (reducedRows_rrefRows n); assumption|].
  split; [exact Hlen|].
  split; [apply rectangular_rrefRows; exact HM|].
  split; [|split].
  - intros i p. unfold leadingAt. split.
    + intros (r' & Ei' & Hl). assert (Hi : (i < length M)%nat).
      { rewrite <- Hlen. apply nth_error_Some. rewrite Ei'. discriminate. }
      exists (nth i M []). split; [apply nth_error_nth'; exact Hi|].
      apply leading_spec. rewrite <- Hlead, (nth_error_nth _ _ _ Ei').
      apply leading_spec. exact Hl.
    + intros (r & Ei & Hl). assert (Hi : (i < length (rrefRows M))%nat).
      { rewrite Hlen. apply nth_error_Some. rewrite Ei. discriminate. }
      exists (nth i (rrefRows M) []). split; [apply nth_error_nth'; exact Hi|].
      apply leading_spec. rewrite Hlead, (nth_error_nth _ _ _ Ei).
      apply leading_spec. exact Hl.
  - intros i r Ei Hz.
    destruct (leading_rrefRows n M HM HE i r Ei) as (r' & Ei' & Er').
    rewrite Ei'. f_equal. apply zeroRow_findIndex in Hz. rewrite Hz in Er'.
    apply (nth_ext _ _ 0 0).
    + pose proof (rectangular_rrefRows n M HM) as HR.
      unfold rectangular in HM, HR. rewrite Forall_forall in HM, HR.
      rewrite (HR r' (nth_error_In _ _ Ei')), (HM r (nth_error_In _ _ Ei)).
      reflexivity.
    + intros k _. rewrite (proj1 (leading_None r') Er' k), (proj1 (leading_None r) Hz k).
      reflexivity.
  - intros y. apply (annihilates_rrefRows n); exact HM.
Qed.

Lemma reducedRowEchelonForm_reduced_witness :
  exists R, reducedRowEchelonForm (zmat [[1; 1; 1; 3]; [0; 1; 1; 2]]%Z) = Ok R /\
    reducedForm R /\
    length R = length (zmat [[1; 1; 1; 3]; [0; 1; 1; 2]]%Z) /\ rectangular 4 R /\
    (forall i p, leadingAt R i p <-> leadingAt (zmat [[1; 1; 1; 3]; [0; 1; 1; 2]]%Z) i p) /\
    (forall i r, nth_error (zmat [[1; 1; 1; 3]; [0; 1; 1; 2]]%Z) i = Some r ->
                 zeroRow r -> nth_error R i = Some r) /\
    (forall y, annihilates R y <-> annihilates (zmat [[1; 1; 1; 3]; [0; 1; 1; 2]]%Z) y).
Proof.
  apply (reducedRowEchelonForm_reduced 4 (zmat [[1; 1; 1; 3]; [2; 1; 1; 4]]%Z)).
  - repeat constructor.
  - run_matrix.
Defined.

(** C8, as stated, fails: on the one-column matrix with rows [1] and [2] the
    pass yields rows [-1] and [2], and on that it yields rows [1] and [2]
    again. *)
Lemma reducedRowEchelonForm_twice_differs :
  reducedRowEchelonForm (zmat [[1]; [2]]%Z) = Ok (zmat [[-1]; [2]]%Z) /\
  reducedRowEchelonForm (zmat [[-1]; [2]]%Z) = Ok (zmat [[1]; [2]]%Z) /\
  zmat [[1]; [2]]%Z <> zmat [[-1]; [2]]%Z.
Proof.
  split; [run_matrix|].
  split; [run_matrix|].
  intros H.
  apply (f_equal (fun M => mat_eqb M (zmat [[1]; [2]]%Z))) in H.
  vm_compute in H. discriminate.
Qed.

(** C8, amended.  On every rectangular matrix in row-echelon shape (leading
    entries 1, zeros below them: what [rowEchelonForm] produces)
    [reducedRowEchelonForm] returns a matrix on which it returns that same
    matrix. *)
Theorem reducedRowEchelonForm_idempotent (n : nat) (M : Matrix) :
  rectangular n M -> echelonForm M ->
  exists R, reducedRowEchelonForm M = Ok R /\ reducedRowEchelonForm R = Ok R.
Proof.
  intros HM HE. exists (rrefRows M).
  split; [apply (reducedRowEchelonForm_rrefRows n); exact HM|].
  pose proof (rectangular_rrefRows n M HM) as HR.
  rewrite (reducedRowEchelonForm_rrefRows n _ HR). f_equal.
  apply (rrefRows_fixed n); [exact HR|].
  apply (reducedRows_rrefRows n); [exact HM|].
  apply echelonRows_echelonForm. exact HE.
Qed.

(** ** The guard [pivot != null] of [rowEchelonForm] *)

Lemma for_up_never {St : Type} (body : nat -> St -> result St) (P : St -> Prop)
      (e : error) :
  (forall i s, P s -> body i s <> Err e /\ forall s', body i s = Ok s' -> P s') ->
  forall n lo s, P s ->
    for_up body lo n s <> Err e /\ forall s', for_up body lo n s = Ok s' -> P s'.
Proof.
  intros Hbody. induction n as [|n IH]; intros lo s Hs; cbn [for_up].
  - split; [discriminate|]. intros s' E. injection E as <-. exact Hs.
  - destruct (Hbody lo s Hs) as [Hne Hok]. destruct (body lo s) as [s1|e1]; cbn [bind].
    + apply IH. apply Hok. reflexivity.
    + split; [exact Hne | discriminate].
Qed.

Lemma Forall_update {A : Type} (P : A -> Prop) (i : nat) (x : A) (l : list A) :
  Forall P l -> P x -> Forall P (update i x l).
Proof.
  intros Hl Hx. revert i. induction Hl as [|y l Hy Hl IH]; intros [|i]; simpl;
    constructor; auto.
Qed.

(** The pivot scan on a row of numbers finds a number different from 0. *)
Lemma pivot_of_numbers (row : Double.Vector) (pivotIndex : nat) :
  Forall Double.isNumber row -> findIndex Double.nonzero row = Some pivotIndex ->
  exists x, Double.get row pivotIndex = Double.Num x /\
            PrimFloat.eqb x PrimFloat.zero = false.
Proof.
  intros Hrow E. destruct (findIndex_Some _ _ _ E) as [(v & Hv & Nv) _].
  assert (Hin : In v row) by (apply nth_error_In with pivotIndex; exact Hv).
  rewrite Forall_forall in Hrow. destruct (Hrow v Hin) as (x & ->).
  exists x. split.
  - unfold Double.get. apply nth_error_nth. exact Hv.
  - simpl in Nv. apply negb_true_iff. exact Nv.
Qed.

Lemma mapi_result_never {A B : Type} (f : nat -> A -> result B) (P : B -> Prop)
      (e : error) :
  (forall k x, f k x <> Err e /\ forall y, f k x = Ok y -> P y) ->
  forall l k, mapi_result f k l <> Err e /\
              forall ys, mapi_result f k l = Ok ys -> Forall P ys.
Proof.
  intros Hf. induction l as [|x l IH]; intros k; cbn [mapi_result].
  - split; [discriminate|]. intros ys E. injection E as <-. constructor.
  - destruct (Hf k x) as [Hne Hok]. destruct (f k x) as [y|e1]; cbn [bind].
    + destruct (IH (S k)) as [Hne' Hok'].
      destruct (mapi_result f (S k) l) as [ys|e2]; cbn [bind].
      * split; [discriminate|]. intros zs E. injection E as <-.
        constructor; [apply Hok; reflexivity | apply Hok'; reflexivity].
      * split; [exact Hne' | discriminate].
    + split; [|discriminate]. intros E. apply Hne. congruence.
Qed.

Lemma eliminate_numbers (i pivotIndex j : nat) (matrix : Double.Matrix) :
  Double.numbers matrix ->
  Double.eliminate i pivotIndex j matrix <> Err DivisionByZero /\
  forall matrix', Double.eliminate i pivotIndex j matrix = Ok matrix' ->
                  Double.numbers matrix'.
Proof.
  intros HM. unfold Double.eliminate.
  destruct (Double.row_at matrix j) as [rowj|e] eqn:Ej; cbn [bind].
  - match goal with
    | |- context [mapi_result ?f 0 rowj] =>
        destruct (mapi_result_never f Double.isNumber DivisionByZero) with (l := rowj) (k := 0%nat)
          as [Hne Hok]
    end.
    + intros k x. unfold Double.row_at.
      destruct (nth_error matrix i); cbn [bind]; split; try discriminate.
      intros y E. injection E as <-. eexists. reflexivity.
    + match goal with
      | |- context [mapi_result ?f 0 rowj] => destruct (mapi_result f 0 rowj) as [newRow|e]
      end; cbn [bind].
      * split; [discriminate|]. intros matrix' E. injection E as <-.
        apply Forall_update; [exact HM | apply Hok; reflexivity].
      * split; [|discriminate]. intros E. apply Hne. congruence.
  - unfold Double.row_at in Ej. destruct (nth_error matrix j); [discriminate|].
    injection Ej as <-. split; discriminate.
Qed.

Lemma refBody_numbers (m i : nat) (matrix : Double.Matrix) :
  Double.numbers matrix ->
  Double.refBody m i matrix <> Err DivisionByZero /\
  forall matrix', Double.refBody m i matrix = Ok matrix' -> Double.numbers matrix'.
Proof.
  intros HM. unfold Double.refBody, Double.row_at.
  destruct (nth_error matrix i) as [rowi|] eqn:Ei; cbn [bind]; [|split; discriminate].
  assert (Hrow : Forall Double.isNumber rowi).
  { unfold Double.numbers in HM. rewrite Forall_forall in HM. apply HM.
    apply nth_error_In with i. exact Ei. }
  destruct (findIndex Double.nonzero rowi) as [pivotIndex|] eqn:Ep.
  - destruct (pivot_of_numbers rowi pivotIndex Hrow Ep) as (x & -> & _).
    cbn [Double.notNull].
    apply (for_up_never _ Double.numbers DivisionByZero).
    + intros j s Hs. apply eliminate_numbers. exact Hs.
    + apply Forall_update; [exact HM|]. apply Forall_forall. intros v Hv.
      apply in_map_iff in Hv as (u & <- & _). eexists. reflexivity.
  - split; [discriminate|]. intros matrix' E. injection E as <-. exact HM.
Qed.

(** C9, as stated, fails: an array of type [number[]] can hold [undefined]
    at run time, and the repository's own [augmentedMatrix] stores it when [b]
    is shorter than [A].  For [A] with two rows [0, 0] and [b = [0]] it returns
    the rows [0, 0, 0] and [0, 0, undefined]; in the second row the pivot scan
    stops at the [undefined], which is [!== 0], and [rowEchelonForm] throws its
    "Division by zero" error. *)
Lemma rowEchelonForm_undefined_pivot :
  Double.augmentedMatrix (Double.zmat [[0; 0]; [0; 0]]%Z) (Double.zvec [0]%Z)
  = [Double.zvec [0; 0; 0]%Z; Double.zvec [0; 0]%Z ++ [Double.Undefined]] /\
  findIndex Double.nonzero (Double.zvec [0; 0]%Z ++ [Double.Undefined]) = Some 2%nat /\
  Double.rowEchelonForm
    (Double.augmentedMatrix (Double.zmat [[0; 0]; [0; 0]]%Z) (Double.zvec [0]%Z))
  = Err DivisionByZero.
Proof.
  split; [vm_compute; reflexivity|]. split; vm_compute; reflexivity.
Qed.

(** C9, amended.  On every matrix whose elements are all numbers ([NaN] and
    the infinities included, the rows of any lengths) an index found by the
    pivot scan holds a number different from 0, in the input and in every row
    the loop writes, and [rowEchelonForm] does not end in its "Division by
    zero" throw.  A row that holds [undefined] or [null] can reach the throw:
    when the first element of the first row that is [!== 0] is [undefined] or
    [null], [rowEchelonForm] throws. *)
Theorem rowEchelonForm_numbers_never_divide_by_zero (matrix : Double.Matrix) :
  Double.numbers matrix ->
  (forall row pivotIndex, In row matrix ->
     findIndex Double.nonzero row = Some pivotIndex ->
     exists x, Double.get row pivotIndex = Double.Num x /\
               PrimFloat.eqb x PrimFloat.zero = false) /\
  Double.rowEchelonForm matrix <> Err DivisionByZero /\
  (forall R, Double.rowEchelonForm matrix = Ok R -> Double.numbers R) /\
  (forall (row : Double.Vector) (rest : Double.Matrix) (pivotIndex : nat),
     findIndex Double.nonzero row = Some pivotIndex ->
     Double.notNull (Double.get row pivotIndex) = false ->
     Double.rowEchelonForm (row :: rest) = Err DivisionByZero).
Proof.
  intros HM. split; [|split; [|split]].
  - intros row pivotIndex Hin E. apply pivot_of_numbers; [|exact E].
    unfold Double.numbers in HM. rewrite Forall_forall in HM. apply HM. exact Hin.
  - unfold Double.rowEchelonForm, Double.row_at.
    destruct (nth_error matrix 0); cbn [bind]; [|discriminate].
    apply (for_up_never _ Double.numbers DivisionByZero); [|exact HM].
    intros i s Hs. apply refBody_numbers. exact Hs.
  - intros R. unfold Double.rowEchelonForm, Double.row_at.
    destruct (nth_error matrix 0); cbn [bind]; [|discriminate].
    apply (for_up_never _ Double.numbers DivisionByZero); [|exact HM].
    intros i s Hs. apply refBody_numbers. exact Hs.
  - intros row rest pivotIndex E Hnull.
    unfold Double.rowEchelonForm, Double.row_at. cbn [nth_error bind length for_up].
    unfold Double.refBody at 1. unfold Double.row_at. cbn [nth_error bind].
    rewrite E, Hnull. reflexivity.
Qed.

Lemma rowEchelonForm_numbers_never_divide_by_zero_witness :
  (forall row pivotIndex, In row (Double.zmat [[0; 2; 4]; [0; 0; 0]; [1; 1; 1]]%Z) ->
     findIndex Double.nonzero row = Some pivotIndex ->
     exists x, Double.get row pivotIndex = Double.Num x /\
               PrimFloat.eqb x PrimFloat.zero = false) /\
  Double.rowEchelonForm (Double.zmat [[0; 2; 4]; [0; 0; 0]; [1; 1; 1]]%Z)
  <> Err DivisionByZero /\
  (forall R, Double.rowEchelonForm (Double.zmat [[0; 2; 4]; [0; 0; 0]; [1; 1; 1]]%Z) = Ok R ->
             Double.numbers R) /\
  (forall (row : Double.Vector) (rest : Double.Matrix) (pivotIndex : nat),
     findIndex Double.nonzero row = Some pivotIndex ->
     Double.notNull (Double.get row pivotIndex) = false ->
     Double.rowEchelonForm (row :: rest) = Err DivisionByZero).
Proof.
  apply (rowEchelonForm_numbers_never_divide_by_zero
           (Double.zmat [[0; 2; 4]; [0; 0; 0]; [1; 1; 1]]%Z)).
  repeat constructor; eexists; reflexivity.
Defined.

(** ** The column classification: [identifyPivotColumns] *)

Lemma fold_pushPivot (M : Matrix) (acc : list nat) :
  fold_left pushPivot M acc = acc ++ collectPivots M.
Proof.
  unfold collectPivots. revert acc. induction M as [|r M IH]; intros acc; simpl.
  - rewrite app_nil_r. reflexivity.
  - rewrite IH. rewrite (IH (pushPivot [] r)). unfold pushPivot.
    destruct (findIndex nonzero r); simpl; [rewrite <- app_assoc|]; reflexivity.
Qed.

Lemma collectPivots_cons (r : Vector) (M : Matrix) :
  collectPivots (r :: M) = pushPivot [] r ++ collectPivots M.
Proof. unfold collectPivots at 1. simpl. apply fold_pushPivot. Qed.

Lemma collectPivots_app (M N : Matrix) :
  collectPivots (M ++ N) = collectPivots M ++ collectPivots N.
Proof.
  unfold collectPivots at 1. rewrite fold_left_app. fold (collectPivots M).
  apply fold_pushPivot.
Qed.

Lemma in_collectPivots (M : Matrix) (p : nat) :
  In p (collectPivots M) <-> exists r, In r M /\ leading r p.
Proof.
  induction M as [|r M IH].
  - simpl. split; [contradiction | intros (r & [] & _)].
  - rewrite collectPivots_cons, in_app_iff, IH. unfold pushPivot. split.
    + intros [H|(x & Hx & Hl)]; [|exists x; split; [right|]; assumption].
      destruct (findIndex nonzero r) as [q|] eqn:Eq; simpl in H; [|contradiction].
      destruct H as [->|[]]. exists r. split; [left; reflexivity|].
      apply leading_spec. exact Eq.
    + intros (x & [->|Hx] & Hl); [left | right; exists x; auto].
      apply leading_spec in Hl. rewrite Hl. left. reflexivity.
Qed.

Lemma NoDup_collectPivots (M : Matrix) :
  leadingDistinct M -> NoDup (collectPivots M).
Proof.
  induction M as [|r M IH]; intros HD; [constructor|].
  rewrite collectPivots_cons.
  assert (HD' : leadingDistinct M).
  { intros i j p (x & Hx & Hlx) (y & Hy & Hly).
    assert (E : S i = S j); [|congruence].
    apply (HD (S i) (S j) p); [exists x | exists y]; auto. }
  unfold pushPivot. destruct (findIndex nonzero r) as [p|] eqn:Ep; simpl; [|auto].
  constructor; [|auto]. intros Hin.
  apply in_collectPivots in Hin as (x & Hx & Hl).
  apply In_nth_error in Hx as (j & Hj).
  assert (E : 0%nat = S j); [|discriminate].
  apply (HD 0%nat (S j) p); [exists r | exists x]; auto.
  split; [reflexivity | apply leading_spec; exact Ep].
Qed.

Lemma includes_In (l : list nat) (j : nat) : includes l j = true <-> In j l.
Proof.
  unfold includes. rewrite existsb_exists. split.
  - intros (x & Hx & E). apply Nat.eqb_eq in E. subst. exact Hx.
  - intros H. exists j. split; [exact H | apply Nat.eqb_refl].
Qed.

Lemma fold_free (pivots js acc : list nat) :
  fold_left (fun acc j => if includes pivots j then acc else acc ++ [j]) js acc
  = acc ++ filter (fun j => negb (includes pivots j)) js.
Proof.
  revert acc. induction js as [|j js IH]; intros acc; simpl.
  - rewrite app_nil_r. reflexivity.
  - rewrite IH. destruct (includes pivots j); simpl; [|rewrite <- app_assoc]; reflexivity.
Qed.

Lemma identifyPivotColumns_Ok (row0 : Vector) (rest : Matrix) :
  identifyPivotColumns (row0 :: rest)
  = Ok {| pivotColumns := collectPivots (row0 :: rest);
          nonPivotColumns :=
            filter (fun j => negb (includes (collectPivots (row0 :: rest)) j))
                   (seq 0 (length row0 - 1)) |}.
Proof.
  unfold identifyPivotColumns, row_at. cbn [nth_error bind]. rewrite fold_free.
  reflexivity.
Qed.

(** C6, as stated, fails on the reduced matrix of the inconsistent system
    [x + y = 3], [2x + 2y = 7]: the pivot columns are 0 and 2, and 2 is the
    augmented column. *)
Lemma identifyPivotColumns_augmented_pivot :
  pipelineRREF (zmat [[1; 1]; [2; 2]]%Z) (map qz [3; 7]%Z)
    = Ok (zmat [[1; 1; 0]; [0; 0; 1]]%Z) /\
  identifyPivotColumns (zmat [[1; 1; 0]; [0; 0; 1]]%Z)
    = Ok {| pivotColumns := [0; 2]%nat; nonPivotColumns := [1%nat] |} /\
  ~ partitionsColumns 3 {| pivotColumns := [0; 2]%nat; nonPivotColumns := [1%nat] |}.
Proof.
  split; [run_matrix|].
  split; [vm_compute; reflexivity|].
  intros (_ & _ & H). simpl in H. discriminate.
Qed.

(** C6, amended.  On every matrix with at least one row
    [identifyPivotColumns] returns two lists that are disjoint and together
    hold every coefficient column index, and the non-pivot list holds only
    such indices.  When the first nonzero entry of every row lies in a
    coefficient column, the union is exactly the range of the coefficient
    columns; when moreover no two rows have their first nonzero entries in
    the same column, the two sizes add up to the number of coefficient
    columns. *)
Theorem identifyPivotColumns_partition (row0 : Vector) (rest : Matrix) :
  exists c, identifyPivotColumns (row0 :: rest) = Ok c /\
    (forall j, In j (pivotColumns c) -> In j (nonPivotColumns c) -> False) /\
    (forall j, (j < length row0 - 1)%nat ->
               In j (pivotColumns c) \/ In j (nonPivotColumns c)) /\
    (forall j, In j (nonPivotColumns c) -> (j < length row0 - 1)%nat) /\
    (leadingInCoefficients (length row0) (row0 :: rest) ->
       (forall j, In j (pivotColumns c) \/ In j (nonPivotColumns c)
                  <-> (j < length row0 - 1)%nat) /\
       (leadingDistinct (row0 :: rest) -> partitionsColumns (length row0) c)).
Proof.
  eexists. split; [apply identifyPivotColumns_Ok|]. cbn [pivotColumns nonPivotColumns].
  set (M := row0 :: rest). set (pv := collectPivots M). set (k := (length row0 - 1)%nat).
  assert (Hfree : forall j, In j (filter (fun j => negb (includes pv j)) (seq 0 k))
                            <-> (j < k)%nat /\ ~ In j pv).
  { intros j. rewrite filter_In, in_seq, negb_true_iff. split.
    - intros [H1 H2]. split; [lia|]. intros Hin. apply includes_In in Hin. congruence.
    - intros [H1 H2]. split; [lia|]. destruct (includes pv j) eqn:E; [|reflexivity].
      apply includes_In in E. contradiction. }
  assert (Hdisj : forall j, In j pv ->
            In j (filter (fun j => negb (includes pv j)) (seq 0 k)) -> False).
  { intros j H1 H2. apply Hfree in H2 as [_ H2]. contradiction. }
  assert (Hcover : forall j, (j < k)%nat ->
            In j pv \/ In j (filter (fun j => negb (includes pv j)) (seq 0 k))).
  { intros j Hj. destruct (includes pv j) eqn:E.
    - left. apply includes_In. exact E.
    - right. apply Hfree. split; [exact Hj|]. intros Hin.
      apply includes_In in Hin. congruence. }
  split; [exact Hdisj|]. split; [exact Hcover|].
  split; [intros j Hj; apply Hfree in Hj; tauto|].
  intros Hlead.
  assert (Hpv : forall j, In j pv -> (j < k)%nat).
  { intros j Hj. apply in_collectPivots in Hj as (r & Hr & Hl).
    exact (Hlead r j Hr Hl). }
  assert (Hunion : forall j,
            In j pv \/ In j (filter (fun j => negb (includes pv j)) (seq 0 k))
            <-> (j < k)%nat).
  { intros j. split; [|apply Hcover]. intros [H|H]; [auto | apply Hfree in H; tauto]. }
  split; [exact Hunion|]. intros Hdist.
  split; [exact Hdisj|]. split; [exact Hunion|]. cbn [pivotColumns nonPivotColumns].
  pose proof (filter_length (includes pv) (seq 0 k)) as Hlen.
  rewrite length_seq in Hlen.
  assert (Hperm : length pv = length (filter (includes pv) (seq 0 k))).
  { apply Permutation_length. apply NoDup_Permutation.
    - apply NoDup_collectPivots. exact Hdist.
    - apply NoDup_filter. apply seq_NoDup.
    - intros j. rewrite filter_In, in_seq, includes_In. split; [|tauto].
      intros H. split; [|exact H]. specialize (Hpv j H). lia. }
  change (length pv + length (filter (fun j => negb (includes pv j)) (seq 0 k)) = k)%nat.
  lia.
Qed.

Lemma identifyPivotColumns_partition_witness :
  exists c, identifyPivotColumns (zmat [[1; 0; 0; 1]; [0; 1; 1; 2]]%Z) = Ok c /\
            partitionsColumns 4 c.
Proof.
  destruct (identifyPivotColumns_partition (map qz [1; 0; 0; 1]%Z)
              [map qz [0; 1; 1; 2]%Z]) as (c & E & _ & _ & _ & H).
  exists c. split; [exact E|]. apply H.
  - intros r p [<-|[<-|[]]] Hl; apply leading_spec in Hl; vm_compute in Hl;
      inversion Hl; simpl; lia.
  - intros i j p (x & Hx & Hlx) (y & Hy & Hly).
    apply leading_spec in Hlx. apply leading_spec in Hly.
    destruct i as [|[|i]]; destruct j as [|[|j]]; simpl in Hx, Hy;
      try (destruct i; discriminate); try (destruct j; discriminate);
      inversion Hx; inversion Hy; subst; vm_compute in Hlx, Hly; congruence.
Defined.

(** C7, as stated, fails: the single row [0 0 | 5] has zero coefficients and
    contributes the index 2, that of the augmented column. *)
Lemma identifyPivotColumns_inconsistent_row :
  coefficientsZero (map qz [0; 0; 5]%Z) /\
  identifyPivotColumns (zmat [[0; 0; 5]]%Z)
    = Ok {| pivotColumns := [2%nat]; nonPivotColumns := [0; 1]%nat |} /\
  ~ contributesNothing [] (map qz [0; 0; 5]%Z) [].
Proof.
  split.
  - intros [|[|k]] Hk; simpl in *; try reflexivity. lia.
  - split; [vm_compute; reflexivity|].
    intros (c & E & H). vm_compute in E. inversion E; subst. discriminate.
Qed.

Lemma findIndex_zero_row (r : Vector) : zeroRow r -> findIndex nonzero r = None.
Proof. apply zeroRow_findIndex. Qed.

Lemma findIndex_zeros_then (k : nat) (x : number) :
  x <> 0 -> findIndex nonzero (repeat 0 k ++ [x]) = Some k.
Proof.
  intros Hx. induction k as [|k IH]; simpl.
  - replace (nonzero x) with true; [reflexivity|]. symmetry. apply nonzero_true. exact Hx.
  - replace (nonzero 0) with false by reflexivity. rewrite IH. reflexivity.
Qed.

(** C7, amended.  [identifyPivotColumns] signals no error on a matrix that
    holds a row with zero coefficients.  If the augmented entry of that row
    is zero as well, the row contributes no entry to [pivotColumns]; if it is
    not zero, the row contributes one entry, the index of the augmented
    column. *)
Theorem identifyPivotColumns_degenerate_row (pre : Matrix) (row : Vector) (post : Matrix) :
  exists c, identifyPivotColumns (pre ++ row :: post) = Ok c /\
    (zeroRow row -> pivotColumns c = collectPivots pre ++ collectPivots post) /\
    (forall k x, row = repeat 0 k ++ [x] -> x <> 0 ->
       pivotColumns c = collectPivots pre ++ k :: collectPivots post).
Proof.
  destruct (pre ++ row :: post) as [|row0 rest] eqn:EM.
  { destruct pre; discriminate. }
  eexists. split; [apply identifyPivotColumns_Ok|]. cbn [pivotColumns].
  rewrite <- EM, collectPivots_app, collectPivots_cons. unfold pushPivot. split.
  - intros Hz. rewrite (findIndex_zero_row row Hz). reflexivity.
  - intros k x -> Hx. rewrite (findIndex_zeros_then k x Hx). reflexivity.
Qed.

Lemma identifyPivotColumns_degenerate_row_witness :
  exists c,
    identifyPivotColumns (zmat [[1; 2; 3]]%Z ++ map qz [0; 0; 0]%Z :: zmat [[0; 0; 5]]%Z)
      = Ok c /\
    pivotColumns c = [0; 2]%nat.
Proof.
  destruct (identifyPivotColumns_degenerate_row (zmat [[1; 2; 3]]%Z)
              (map qz [0; 0; 0]%Z) (zmat [[0; 0; 5]]%Z)) as (c & E & H & _).
  exists c. split; [exact E|]. rewrite H; [reflexivity|].
  repeat constructor.
Defined.

(** ** The particular solution: [findParticularSolution] *)

Lemma length_update {A : Type} (i : nat) (x : A) (l : list A) :
  length (update i x l) = length l.
Proof.
  revert i. induction l as [|y l IH]; intros [|i]; simpl; auto.
Qed.

Lemma nth_update_eq {A : Type} (i : nat) (x d : A) (l : list A) :
  (i < length l)%nat -> nth i (update i x l) d = x.
Proof.
  revert i. induction l as [|y l IH]; intros [|i] H; simpl in *; try lia; auto.
  apply IH. lia.
Qed.

Lemma nth_update_neq {A : Type} (i j : nat) (x d : A) (l : list A) :
  i <> j -> nth j (update i x l) d = nth j l d.
Proof.
  revert i j. induction l as [|y l IH]; intros [|i] [|j] H; simpl; auto; try lia.
Qed.

Lemma arr_set_in_range (v : Vector) (i : nat) (x : number) :
  (i < length v)%nat -> arr_set v i x = Ok (update i x v).
Proof.
  intros H. unfold arr_set. apply Nat.ltb_lt in H. rewrite H. reflexivity.
Qed.

Lemma particularBody_length (M : Matrix) (n lo : nat) (sol0 sol : Vector) :
  leadingInCoefficients n M -> length sol0 = (n - 1)%nat ->
  particularBody M n lo sol0 = Ok sol -> length sol = (n - 1)%nat.
Proof.
  intros Hlead Hlen E. unfold particularBody, row_at in E.
  destruct (nth_error M lo) as [r|] eqn:Er; [|discriminate]. cbn [bind] in E.
  unfold particularWrite in E.
  destruct (findIndex nonzero r) as [p|] eqn:Ep; [|inversion E; subst; exact Hlen].
  apply bind_Ok in E as (x & _ & E).
  assert (Hp : (p < n - 1)%nat).
  { apply (Hlead r p); [eapply nth_error_In; eassumption | apply leading_spec; exact Ep]. }
  rewrite arr_set_in_range in E by lia. inversion E; subst.
  rewrite length_update. exact Hlen.
Qed.

Lemma for_up_particularBody_length (M : Matrix) (n : nat) :
  leadingInCoefficients n M ->
  forall (k lo : nat) (sol0 sol : Vector), length sol0 = (n - 1)%nat ->
  for_up (particularBody M n) lo k sol0 = Ok sol -> length sol = (n - 1)%nat.
Proof.
  intros Hlead. induction k as [|k IH]; intros lo sol0 sol Hlen E; simpl in E.
  - inversion E; subst. exact Hlen.
  - apply bind_Ok in E as (s1 & E1 & E2).
    apply (IH (S lo) s1 sol); [|exact E2].
    apply (particularBody_length M n lo sol0 s1); assumption.
Qed.

Lemma for_up_particularBody (n : nat) :
  (0 < n)%nat ->
  forall (rest done : Matrix) (sol : Vector),
  rectangular n rest -> leadingInCoefficients n rest -> length sol = (n - 1)%nat ->
  for_up (particularBody (done ++ rest) n) (length done) (length rest) sol
  = Ok (assignRows n rest sol).
Proof.
  intros Hn. induction rest as [|r rest IH]; intros done sol Hrect Hlead Hlen.
  - reflexivity.
  - inversion Hrect as [|? ? Hr Hrect']; subst.
    cbn [for_up length assignRows fold_left].
    unfold particularBody at 1. unfold row_at. rewrite nth_error_middle. cbn [bind].
    unfold particularWrite.
    assert (Hlead' : leadingInCoefficients (length r) rest).
    { intros x p Hx. apply Hlead. right. exact Hx. }
    specialize (IH (done ++ [r])).
    rewrite length_app, Nat.add_1_r, <- app_assoc in IH. cbn [app] in IH.
    destruct (findIndex nonzero r) as [p|] eqn:Ep.
    + assert (Hp : (p < length r - 1)%nat).
      { apply (Hlead r p); [left; reflexivity | apply leading_spec; exact Ep]. }
      rewrite (nth_error_nth' r 0) by lia. cbn [as_number bind].
      rewrite arr_set_in_range by lia. cbn [bind].
      apply IH; [assumption | assumption | rewrite length_update; exact Hlen].
    + cbn [bind]. apply IH; assumption.
Qed.

Lemma findParticularSolution_assignRows (row0 : Vector) (rest : Matrix) :
  (0 < length row0)%nat -> rectangular (length row0) (row0 :: rest) ->
  leadingInCoefficients (length row0) (row0 :: rest) ->
  findParticularSolution (row0 :: rest)
  = Ok (assignRows (length row0) (row0 :: rest) (repeat 0 (length row0 - 1))).
Proof.
  intros Hn Hrect Hlead. unfold findParticularSolution, row_at. cbn [nth_error bind].
  destruct (length row0) as [|n'] eqn:En; [lia|]. cbn [zero_array bind].
  replace (S n' - 1)%nat with n' by lia.
  apply (for_up_particularBody (S n') Hn (row0 :: rest) [] (repeat 0 n')); auto.
  rewrite repeat_length. lia.
Qed.

(** C10.  When every row with a nonzero entry has its first one in a
    coefficient column, every write of [findParticularSolution] goes to an
    index below [numCols - 1], the vector it returns still has length
    [numCols - 1], and on a rectangular matrix with at least one column it does
    return.  Without that condition the write can be out of bounds: for the
    single row [0 ... 0 c] with [c <> 0] the write goes to index
    [numCols - 1], one past the end, and the returned vector has [numCols]
    elements. *)
Theorem findParticularSolution_write_bounds :
  (forall (row0 : Vector) (rest : Matrix),
     leadingInCoefficients (length row0) (row0 :: rest) ->
     (forall r pivotColumn v, In r (row0 :: rest) ->
        particularWrite (length row0) r = Some (pivotColumn, v) ->
        (pivotColumn < length row0 - 1)%nat) /\
     (forall sol, findParticularSolution (row0 :: rest) = Ok sol ->
        length sol = (length row0 - 1)%nat) /\
     (rectangular (length row0) (row0 :: rest) -> (0 < length row0)%nat ->
        exists sol, findParticularSolution (row0 :: rest) = Ok sol)) /\
  (forall (k : nat) (c : number), c <> 0 ->
     particularWrite (S k) (repeat 0 k ++ [c]) = Some (k, Some c) /\
     length (repeat (Q2Qc 0) k) = k /\
     findParticularSolution [repeat 0 k ++ [c]] = Ok (repeat 0 k ++ [c])).
Proof.
  split.
  - intros row0 rest Hlead. split; [|split].
    + intros r p v Hr E. unfold particularWrite in E.
      destruct (findIndex nonzero r) as [q|] eqn:Eq; [|discriminate].
      inversion E; subst. apply (Hlead r p Hr). apply leading_spec. exact Eq.
    + intros sol E. unfold findParticularSolution, row_at in E.
      cbn [nth_error bind] in E. apply bind_Ok in E as (sol0 & E0 & E).
      refine (for_up_particularBody_length _ _ Hlead _ _ sol0 sol _ E).
      destruct (length row0) as [|n']; [discriminate|]. inversion E0; subst.
      rewrite repeat_length. lia.
    + intros Hrect Hn. eexists.
      apply findParticularSolution_assignRows; assumption.
  - intros k c Hc.
    assert (Hnth : nth_error (repeat 0 k ++ [c]) k = Some c).
    { rewrite <- (repeat_length (Q2Qc 0) k) at 2. apply nth_error_middle. }
    assert (Hw : particularWrite (S k) (repeat 0 k ++ [c]) = Some (k, Some c)).
    { unfold particularWrite. rewrite (findIndex_zeros_then k c Hc).
      replace (S k - 1)%nat with k by lia. rewrite Hnth. reflexivity. }
    split; [exact Hw|]. split; [apply repeat_length|].
    unfold findParticularSolution, row_at. cbn [nth_error bind length].
    rewrite length_app, repeat_length, Nat.add_1_r. cbn [zero_array bind for_up].
    unfold particularBody, row_at. cbn [nth_error bind]. rewrite Hw. cbn [as_number bind].
    unfold arr_set. rewrite repeat_length, Nat.ltb_irrefl, Nat.eqb_refl. reflexivity.
Qed.

Lemma findParticularSolution_write_bounds_witness :
  (forall r pivotColumn v, In r (zmat [[1; 0; 0; 1]; [0; 1; 1; 2]]%Z) ->
     particularWrite 4 r = Some (pivotColumn, v) -> (pivotColumn < 3)%nat) /\
  (forall sol, findParticularSolution (zmat [[1; 0; 0; 1]; [0; 1; 1; 2]]%Z) = Ok sol ->
     length sol = 3%nat) /\
  (exists sol, findParticularSolution (zmat [[1; 0; 0; 1]; [0; 1; 1; 2]]%Z) = Ok sol).
Proof.
  destruct (proj1 findParticularSolution_write_bounds (map qz [1; 0; 0; 1]%Z)
              [map qz [0; 1; 1; 2]%Z]) as (H1 & H2 & H3).
  - intros r p [<-|[<-|[]]] Hl; apply leading_spec in Hl; vm_compute in Hl;
      inversion Hl; simpl; lia.
  - split; [exact H1|]. split; [exact H2|]. apply H3.
    + repeat constructor.
    + simpl. lia.
Defined.

(** ** The augmented matrix and the solutions of the system *)

Lemma mapi_augment (b : Vector) :
  forall (A : Matrix) (k : nat), (k + length A <= length b)%nat ->
  mapi_result (fun i row => bi <- as_number (nth_error b i) ;; Ok (row ++ [bi])) k A
  = Ok (augRows A (skipn k b)).
Proof.
  induction A as [|row A IH]; intros k Hk; [reflexivity|].
  cbn [mapi_result length] in *.
  destruct (nth_error b k) as [bi|] eqn:Eb.
  2:{ apply nth_error_None in Eb. lia. }
  cbn [as_number bind]. rewrite IH by lia. cbn [bind].
  rewrite (skipn_nth_error b k bi Eb). reflexivity.
Qed.

Lemma augmentedMatrix_augRows (A : Matrix) (b : Vector) :
  length b = length A -> augmentedMatrix A b = Ok (augRows A b).
Proof.
  intros H. unfold augmentedMatrix. rewrite (mapi_augment b A 0) by (simpl; lia).
  reflexivity.
Qed.

Lemma length_augRows (A : Matrix) (b : Vector) :
  length b = length A -> length (augRows A b) = length A.
Proof.
  intros H. unfold augRows. rewrite length_map, length_combine. lia.
Qed.

Lemma rectangular_augRows (n : nat) (A : Matrix) (b : Vector) :
  rectangular n A -> rectangular (S n) (augRows A b).
Proof.
  intros HA. revert b. induction HA as [|row A Hrow HA IH]; intros [|bi b];
    try constructor.
  - cbn [fst snd]. rewrite length_app, Nat.add_1_r. congruence.
  - apply IH.
Qed.

Lemma dot_snoc (r y : Vector) (e z : number) :
  length r = length y -> dot (r ++ [e]) (y ++ [z]) = dot r y + e * z.
Proof.
  revert y. induction r as [|a r IH]; intros [|c y] H; simpl in *; try discriminate.
  - ring.
  - rewrite IH by lia. ring.
Qed.

(** [x] solves the system exactly when [(x, -1)] is orthogonal to the rows of
    the augmented matrix. *)
Lemma annihilates_augRows (n : nat) (A : Matrix) (b x : Vector) :
  rectangular n A -> length x = n -> length b = length A ->
  (annihilates (augRows A b) (x ++ [- (1)]) <-> mulMV A x = b).
Proof.
  intros HA Hx. revert b. unfold annihilates, augRows.
  induction HA as [|row A Hrow HA IH]; intros [|bi b] Hb; simpl in Hb; try discriminate.
  - simpl. split; auto.
  - cbn [combine map mulMV fst snd]. specialize (IH b ltac:(lia)).
    assert (Hd : dot (row ++ [bi]) (x ++ [- (1)]) = 0 <-> dot row x = bi).
    { rewrite dot_snoc by congruence. split; intros H.
      - assert (E : dot row x = (dot row x + bi * - (1)) + bi) by ring.
        rewrite E, H. ring.
      - rewrite H. ring. }
    split; intros H.
    + inversion H as [|? ? H1 H2]; subst. f_equal; [apply Hd; exact H1|].
      apply IH. exact H2.
    + injection H as H1 H2. constructor; [apply Hd; exact H1|].
      apply IH. exact H2.
Qed.

Lemma dot_snoc_r (r p : Vector) (z : number) :
  length r = S (length p) -> dot r (p ++ [z]) = dot r p + nth (length p) r 0 * z.
Proof.
  revert r. induction p as [|c p IH]; intros [|a r] H; simpl in *; try discriminate.
  - destruct r; [simpl; ring | simpl in H; discriminate].
  - rewrite IH by lia. ring.
Qed.

Lemma dot_no_terms (r y : Vector) :
  (forall k, nth k r 0 * nth k y 0 = 0) -> dot r y = 0.
Proof.
  revert y. induction r as [|a r IH]; intros [|c y] H; simpl; try reflexivity.
  rewrite IH by (intros k; exact (H (S k))).
  pose proof (H 0%nat) as H0. simpl in H0. rewrite H0. ring.
Qed.

Lemma dot_single (q : nat) (r y : Vector) :
  (forall k, k <> q -> nth k r 0 * nth k y 0 = 0) ->
  dot r y = nth q r 0 * nth q y 0.
Proof.
  revert q y. induction r as [|a r IH]; intros q [|c y] H; simpl.
  - destruct q; ring.
  - destruct q; ring.
  - destruct q; ring.
  - destruct q as [|q].
    + rewrite dot_no_terms; [ring|]. intros k. apply (H (S k)). lia.
    + rewrite (IH q) by (intros k Hk; apply (H (S k)); lia).
      pose proof (H 0%nat ltac:(lia)) as H0. simpl in H0. rewrite H0. ring.
Qed.

Lemma dot_zero_prefix (r x : Vector) (z : number) :
  length r = S (length x) -> (forall k, (k < length x)%nat -> nth k r 0 = 0) ->
  dot r (x ++ [z]) = nth (length x) r 0 * z.
Proof.
  intros Hl Hz. rewrite dot_snoc_r by exact Hl.
  rewrite dot_no_terms; [ring|]. intros k.
  destruct (Nat.lt_ge_cases k (length x)) as [Hk|Hk].
  - rewrite (Hz k Hk). ring.
  - rewrite (nth_overflow x 0 Hk). ring.
Qed.

Lemma length_assignRows (m : nat) (rows : Matrix) (sol : Vector) :
  length (assignRows m rows sol) = length sol.
Proof.
  unfold assignRows. revert sol. induction rows as [|r rows IH]; intros sol; simpl;
    [reflexivity|].
  rewrite IH. destruct (findIndex nonzero r); [apply length_update | reflexivity].
Qed.

Lemma nth_assignRows_other (m k : nat) (rows : Matrix) (sol : Vector) :
  (forall r, In r rows -> findIndex nonzero r <> Some k) ->
  nth k (assignRows m rows sol) 0 = nth k sol 0.
Proof.
  unfold assignRows. revert sol. induction rows as [|r rows IH]; intros sol H; simpl;
    [reflexivity|].
  rewrite IH by (intros r' Hr'; apply H; right; exact Hr').
  destruct (findIndex nonzero r) as [p|] eqn:Ep; [|reflexivity].
  apply nth_update_neq. intros ->. apply (H r); [left; reflexivity | exact Ep].
Qed.

Lemma nth_assignRows_hit (m q : nat) (pre : Matrix) (r : Vector) (post : Matrix)
  (sol : Vector) :
  findIndex nonzero r = Some q -> (q < length sol)%nat ->
  (forall r', In r' post -> findIndex nonzero r' <> Some q) ->
  nth q (assignRows m (pre ++ r :: post) sol) 0 = nth (m - 1) r 0.
Proof.
  intros Eq Hq Hpost. unfold assignRows. rewrite fold_left_app. cbn [fold_left].
  rewrite Eq. fold (assignRows m pre sol).
  match goal with
  | |- nth q (fold_left ?f post ?s) 0 = _ => change (fold_left f post s) with (assignRows m post s)
  end.
  rewrite nth_assignRows_other by exact Hpost.
  apply nth_update_eq. rewrite length_assignRows. exact Hq.
Qed.

Lemma dot_zero_row (r y : Vector) : findIndex nonzero r = None -> dot r y = 0.
Proof.
  intros H. apply dot_no_terms. intros k.
  rewrite (proj1 (leading_None r) H k). ring.
Qed.

(** A vector [(x, -1)] orthogonal to all rows rules out a row [0 ... 0 | c]
    with [c <> 0]. *)
Lemma leadingInCoefficients_of_solution (n : nat) (R : Matrix) (x : Vector) :
  rectangular (S n) R -> length x = n -> annihilates R (x ++ [- (1)]) ->
  leadingInCoefficients (S n) R.
Proof.
  intros HR Hx HA r p Hr (Hp & Hnz & Hlt).
  unfold rectangular, annihilates in *. rewrite Forall_forall in HR, HA.
  specialize (HR r Hr). specialize (HA r Hr).
  destruct (Nat.lt_ge_cases p n) as [Hlt'|Hge]; [lia|].
  assert (p = n) by lia. subst p. exfalso. apply Hnz.
  rewrite dot_zero_prefix in HA.
  - rewrite Hx in HA.
    assert (E : nth n r 0 = - (nth n r 0 * - (1))) by ring.
    rewrite E, HA. ring.
  - congruence.
  - intros k Hk. apply Hlt. lia.
Qed.

(** On a reduced matrix without a leading entry in the last column, the
    vector assembled by [findParticularSolution], extended by [-1], is
    orthogonal to every row. *)
Lemma assignRows_annihilates (n : nat) (R : Matrix) :
  rectangular (S n) R -> reducedRows R -> leadingInCoefficients (S n) R ->
  annihilates R (assignRows (S n) R (repeat 0 n) ++ [- (1)]).
Proof.
  intros HR Hred Hlead. set (p := assignRows (S n) R (repeat 0 n)).
  assert (Hlp : length p = n).
  { unfold p. rewrite length_assignRows. apply repeat_length. }
  unfold annihilates. apply Forall_forall. intros r Hr.
  assert (Hlr : length r = S n).
  { unfold rectangular in HR. rewrite Forall_forall in HR. exact (HR r Hr). }
  destruct (findIndex nonzero r) as [q|] eqn:Eq; [|apply dot_zero_row; exact Eq].
  assert (Hq : (q < n)%nat).
  { pose proof (Hlead r q Hr (proj1 (leading_spec r q) Eq)). lia. }
  destruct (in_split r R Hr) as (pre & post & ER).
  destruct (Hred pre r post q ER Eq) as (H1 & Zpre & Zpost).
  rewrite dot_snoc_r by congruence. rewrite Hlp.
  assert (Hpq : nth q p 0 = nth n r 0).
  { unfold p. rewrite ER.
    rewrite (nth_assignRows_hit (S n) q pre r post (repeat 0 n) Eq).
    - replace (S n - 1)%nat with n by lia. reflexivity.
    - rewrite repeat_length. exact Hq.
    - intros r' Hr' E'. apply leading_spec in E' as (_ & Hnz & _). apply Hnz.
      unfold colZero in Zpost. rewrite Forall_forall in Zpost. exact (Zpost r' Hr'). }
  rewrite (dot_single q r p).
  - rewrite H1, Hpq. ring.
  - intros k Hk. destruct (in_dec Nat.eq_dec k (collectPivots R)) as [Hin|Hnin].
    + apply in_collectPivots in Hin as (r' & Hr' & Hl').
      apply leading_spec in Hl'.
      destruct (in_split r' R Hr') as (pre' & post' & ER').
      destruct (Hred pre' r' post' k ER' Hl') as (_ & Zpre' & Zpost').
      unfold colZero in Zpre', Zpost'. rewrite Forall_forall in Zpre', Zpost'.
      rewrite ER' in Hr. apply in_app_or in Hr as [Hr|[Hr|Hr]].
      * rewrite (Zpre' r Hr). ring.
      * subst r'. congruence.
      * rewrite (Zpost' r Hr). ring.
    + assert (Hpk : nth k p 0 = 0).
      { unfold p. rewrite nth_assignRows_other.
        - apply nth_repeat.
        - intros r' Hr' E'. apply Hnin. apply in_collectPivots.
          exists r'. split; [exact Hr' | apply leading_spec; exact E']. }
      rewrite Hpk. ring.
Qed.

Lemma length_mulMV (A : Matrix) (x : Vector) : length (mulMV A x) = length A.
Proof. apply length_map. Qed.

(** The pipeline on a non-empty rectangular system returns the two passes
    applied to the augmented rows. *)
Lemma pipelineRREF_rows (n : nat) (A : Matrix) (b : Vector) :
  rectangular n A -> A <> [] -> length b = length A ->
  pipelineRREF A b
  = Ok (rrefRows (refRows (length (augRows A b)) (augRows A b))).
Proof.
  intros HA Hne Hb. unfold pipelineRREF.
  rewrite (augmentedMatrix_augRows A b Hb). cbn [bind].
  pose proof (rectangular_augRows n A b HA) as Haug.
  rewrite (rowEchelonForm_refRows (S n) (augRows A b) Haug).
  - cbn [bind]. apply (reducedRowEchelonForm_rrefRows (S n)).
    apply rectangular_refRows. exact Haug.
  - intros E. apply (f_equal (@length _)) in E.
    rewrite (length_augRows A b Hb) in E. destruct A; [contradiction | discriminate].
Qed.

(** ** The particular solution solves the system *)

(** In exact arithmetic the particular solution is right: for a rectangular
    coefficient matrix [A] and a right-hand side [b] for which some [x] has
    [A·x = b], the pipeline followed by [findParticularSolution] returns (when
    [A] has at least one row, so that [matrix[0].length] can be read) a vector
    [p] with one entry per unknown and [A·p = b].  The source computes with
    doubles and does not have this property, see
    [findParticularSolution_rounding_residual] below. *)
Lemma findParticularSolution_solves (n : nat) (A : Matrix) (b x : Vector) :
  rectangular n A -> length x = n -> mulMV A x = b ->
  (A <> [] ->
   exists R p, pipelineRREF A b = Ok R /\ findParticularSolution R = Ok p) /\
  (forall R p, pipelineRREF A b = Ok R -> findParticularSolution R = Ok p ->
     length p = n /\ mulMV A p = b).
Proof.
  intros HA Hx Hsol.
  assert (Hb : length b = length A) by (rewrite <- Hsol; apply length_mulMV).
  destruct A as [|a0 A'] eqn:EA.
  { split; [intros H; contradiction|]. intros R p E. destruct b; discriminate. }
  rewrite <- EA in *. assert (Hne : A <> []) by (rewrite EA; discriminate).
  set (aug := augRows A b).
  set (R := rrefRows (refRows (length aug) aug)).
  pose proof (pipelineRREF_rows n A b HA Hne Hb) as EP. fold aug R in EP.
  pose proof (rectangular_augRows n A b HA) as Haug. fold aug in Haug.
  assert (Href : rectangular (S n) (refRows (length aug) aug)).
  { apply rectangular_refRows. exact Haug. }
  assert (HR : rectangular (S n) R) by (apply rectangular_rrefRows; exact Href).
  assert (Hann : forall y, annihilates R y <-> annihilates aug y).
  { intros y. unfold R. rewrite (annihilates_rrefRows (S n) y _ Href).
    apply (annihilates_refRows (S n)). exact Haug. }
  assert (Hred : reducedRows R).
  { apply (reducedRows_rrefRows (S n)); [exact Href|].
    apply (echelonRows_refRows (S n)); auto. }
  assert (Hlead : leadingInCoefficients (S n) R).
  { apply (leadingInCoefficients_of_solution n R x HR Hx).
    apply Hann. apply (annihilates_augRows n A b x HA Hx Hb). exact Hsol. }
  assert (HlenR : length R = length A).
  { unfold R. rewrite length_rrefRows, length_refRows. apply length_augRows. exact Hb. }
  destruct R as [|row0 rest] eqn:ER.
  { rewrite EA in HlenR. discriminate. }
  assert (Hrow0 : length row0 = S n) by (inversion HR; assumption).
  assert (EF : findParticularSolution (row0 :: rest)
               = Ok (assignRows (S n) (row0 :: rest) (repeat 0 n))).
  { rewrite findParticularSolution_assignRows; rewrite Hrow0; auto; try lia.
    replace (S n - 1)%nat with n by lia. reflexivity. }
  assert (Hgoal : length (assignRows (S n) (row0 :: rest) (repeat 0 n)) = n /\
                  mulMV A (assignRows (S n) (row0 :: rest) (repeat 0 n)) = b).
  { assert (Hl : length (assignRows (S n) (row0 :: rest) (repeat 0 n)) = n).
    { rewrite length_assignRows. apply repeat_length. }
    split; [exact Hl|].
    apply (annihilates_augRows n A b _ HA Hl Hb). apply Hann.
    apply assignRows_annihilates; assumption. }
  split.
  - intros _. exists (row0 :: rest), (assignRows (S n) (row0 :: rest) (repeat 0 n)).
    split; [exact EP | exact EF].
  - intros R' p' E1 E2. rewrite EP in E1. injection E1 as <-.
    rewrite EF in E2. injection E2 as <-. exact Hgoal.
Qed.

Lemma findParticularSolution_solves_witness :
  (exists R p, pipelineRREF (zmat [[1; 1; 1]; [2; 1; 1]]%Z) (map qz [3; 4]%Z) = Ok R /\
               findParticularSolution R = Ok p) /\
  (forall R p,
     pipelineRREF (zmat [[1; 1; 1]; [2; 1; 1]]%Z) (map qz [3; 4]%Z) = Ok R ->
     findParticularSolution R = Ok p ->
     length p = 3%nat /\ mulMV (zmat [[1; 1; 1]; [2; 1; 1]]%Z) p = map qz [3; 4]%Z).
Proof.
  destruct (findParticularSolution_solves 3 (zmat [[1; 1; 1]; [2; 1; 1]]%Z)
              (map qz [3; 4]%Z) (map qz [1; 2; 0]%Z)) as [Ha Hb].
  - repeat constructor.
  - reflexivity.
  - run_vector.
  - split; [apply Ha; discriminate | exact Hb].
Defined.

(** C2.  On doubles the property fails.  The system [49 x = 1], [49 x = 1] is
    consistent ([x = 1/49]).  The forward pass divides the first row by 49 and
    subtracts 49 times the result from the second row; the rounded quotient
    [1/49] times 49 is not 1, so the second row becomes [0, 2^-53] instead of
    [0, 0].  The exact test [element !== 0] takes that residual, in the
    augmented column, for a pivot: the reduced matrix has the rows [1, 0] and
    [0, 1], that of an inconsistent system, and [findParticularSolution]
    returns [[0, 1]]: two entries for one unknown, and [x = 0], for which
    [49 x] is 0 and not 1. *)
Theorem findParticularSolution_rounding_residual :
  mulMV (zmat [[49]; [49]]%Z) [Q2Qc (1 # 49)] = map qz [1; 1]%Z /\
  Double.nonzero
    (Double.Num (PrimFloat.sub (Double.ofZ 1)
                   (PrimFloat.mul (Double.ofZ 49)
                      (PrimFloat.div (Double.ofZ 1) (Double.ofZ 49))))) = true /\
  Double.pipelineRREF (Double.zmat [[49]; [49]]%Z) (Double.zvec [1; 1]%Z)
  = Ok (Double.zmat [[1; 0]; [0; 1]]%Z) /\
  Double.findParticularSolution (Double.zmat [[1; 0]; [0; 1]]%Z)
  = Ok (Double.zvec [0; 1]%Z) /\
  mulMV (zmat [[49]; [49]]%Z) (map qz [0; 1]%Z) = map qz [0; 0]%Z /\
  map qz [0; 0]%Z <> map qz [1; 1]%Z.
Proof.
  split; [run_vector|].
  split; [vm_compute; reflexivity|].
  split; [vm_compute; reflexivity|].
  split; [vm_compute; reflexivity|].
  split; [run_vector|].
  intros H. apply (f_equal (fun v => vec_eqb v (map qz [1; 1]%Z))) in H.
  vm_compute in H. discriminate.
Qed.

(** ** The null-space vectors: [findNullSpaceSolution] *)

(** The pipeline on a non-empty rectangular system ends in reduced shape. *)
Lemma pipelineRREF_reduced (n : nat) (A : Matrix) (b : Vector) :
  rectangular n A -> A <> [] -> length b = length A ->
  exists R, pipelineRREF A b = Ok R /\ rectangular (S n) R /\ reducedForm R.
Proof.
  intros HA Hne Hb. eexists. split; [apply (pipelineRREF_rows n); assumption|].
  pose proof (rectangular_augRows n A b HA) as Haug.
  pose proof (rectangular_refRows (S n) (length (augRows A b)) _ Haug) as Href.
  split; [apply rectangular_rrefRows; exact Href|].
  apply reducedRows_reducedForm. apply (reducedRows_rrefRows (S n)); [exact Href|].
  apply (echelonRows_refRows (S n)); auto.
Qed.

(** C1 at the system [x1 + 2 x2 = 3], [x3 = 4]: the reduced matrix is the
    augmented matrix itself, the free column is column 1, and
    [findNullSpaceSolution] returns two vectors, the first of which is
    [(0, 0, -1)], with [A·v = (0, -1)]; the second has four entries. *)
Lemma findNullSpaceSolution_not_in_null_space :
  pipelineRREF (zmat [[1; 2; 0]; [0; 0; 1]]%Z) (map qz [3; 4]%Z)
    = Ok (zmat [[1; 2; 0; 3]; [0; 0; 1; 4]]%Z) /\
  findNullSpaceSolution (zmat [[1; 2; 0; 3]; [0; 0; 1; 4]]%Z)
    = Ok (zmat [[0; 0; -1]; [-3; 0; -4; 1]]%Z) /\
  mulMV (zmat [[1; 2; 0]; [0; 0; 1]]%Z) (map qz [0; 0; -1]%Z) = map qz [0; -1]%Z /\
  map qz [0; -1]%Z <> map qz [0; 0]%Z.
Proof.
  split; [run_matrix|].
  split; [run_matrix|].
  split; [run_vector|].
  intros H. apply (f_equal (fun v => vec_eqb v (map qz [0; 0]%Z))) in H.
  vm_compute in H. discriminate.
Qed.

(** C3 at the reduced matrix with rows [1 2 0 | 3] and [0 0 1 | 4]: the only
    non-pivot column is column 1, yet [findNullSpaceSolution] returns two
    vectors, built for the columns 2 and 3 ([pivotColumns.length + index]);
    none has 1 at position 1, and the second one has four entries. *)
Lemma findNullSpaceSolution_wrong_columns :
  reducedForm (zmat [[1; 2; 0; 3]; [0; 0; 1; 4]]%Z) /\
  identifyPivotColumns (zmat [[1; 2; 0; 3]; [0; 0; 1; 4]]%Z)
    = Ok {| pivotColumns := [0; 2]%nat; nonPivotColumns := [1%nat] |} /\
  findNullSpaceSolution (zmat [[1; 2; 0; 3]; [0; 0; 1; 4]]%Z)
    = Ok (zmat [[0; 0; -1]; [-3; 0; -4; 1]]%Z).
Proof.
  split.
  - destruct (pipelineRREF_reduced 3 (zmat [[1; 2; 0]; [0; 0; 1]]%Z) (map qz [3; 4]%Z))
      as (R & E & _ & H); [repeat constructor | discriminate | reflexivity |].
    assert (E' : pipelineRREF (zmat [[1; 2; 0]; [0; 0; 1]]%Z) (map qz [3; 4]%Z)
                 = Ok (zmat [[1; 2; 0; 3]; [0; 0; 1; 4]]%Z)).
    { run_matrix. }
    rewrite E' in E. injection E as <-. exact H.
  - split; [vm_compute; reflexivity|].
    run_matrix.
Qed.

Lemma reducedRowEchelonForm_idempotent_witness :
  exists R, reducedRowEchelonForm (zmat [[1; 1; 1; 3]; [0; 1; 1; 2]]%Z) = Ok R /\
            reducedRowEchelonForm R = Ok R.
Proof.
  apply (reducedRowEchelonForm_idempotent 4 (zmat [[1; 1; 1; 3]; [0; 1; 1; 2]]%Z)).
  - repeat constructor.
  - apply echelonRows_echelonForm. simpl. split; [|split; [|exact I]].
    + intros p Ep. vm_compute in Ep. injection Ep as <-.
      split; [apply Qc_is_canon; reflexivity|].
      repeat constructor.
    + intros p Ep. vm_compute in Ep. injection Ep as <-.
      split; [apply Qc_is_canon; reflexivity | constructor].
Defined.

(** * Further properties of the pipeline *)

(** ** [augmentedMatrix] *)

Lemma mapi_augment_short (b : Vector) :
  forall (A : Matrix) (k : nat), (k <= length b)%nat -> (length b < k + length A)%nat ->
  mapi_result (fun i row => bi <- as_number (nth_error b i) ;; Ok (row ++ [bi])) k A
  = Err UndefinedValue.
Proof.
  induction A as [|row A IH]; intros k Hk0 Hk; [simpl in Hk; lia|].
  cbn [mapi_result length] in *.
  destruct (nth_error b k) as [bi|] eqn:Eb; [|reflexivity].
  cbn [as_number bind].
  assert (k < length b)%nat by (apply nth_error_Some; congruence).
  rewrite IH; [reflexivity | lia | lia].
Qed.

Lemma nth_error_augRows (A : Matrix) (b : Vector) (i : nat) (row : Vector) (bi : Qc) :
  nth_error A i = Some row -> nth_error b i = Some bi ->
  nth_error (augRows A b) i = Some (row ++ [bi]).
Proof.
  unfold augRows. revert b i. induction A as [|r A IH]; intros [|c b] [|i] HA Hb;
    simpl in *; try discriminate.
  - congruence.
  - apply IH; assumption.
Qed.

(** X1.  [augmentedMatrix] returns exactly when [b] has an entry for every
    row of [A] (further entries of [b] are ignored): the result has the rows of
    [A], each followed by its entry of [b].  When [b] is shorter, an
    [undefined] would be stored in the matrix. *)
Theorem augmentedMatrix_rows (A : Matrix) (b : Vector) :
  ((length A <= length b)%nat ->
   exists M, augmentedMatrix A b = Ok M /\ length M = length A /\
     coefficients M = A /\ rightHandSide M = firstn (length A) b /\
     forall i row, nth_error A i = Some row ->
       exists bi, nth_error b i = Some bi /\ nth_error M i = Some (row ++ [bi])) /\
  ((length b < length A)%nat -> augmentedMatrix A b = Err UndefinedValue).
Proof.
  split.
  - intros H. exists (augRows A b). split.
    { unfold augmentedMatrix. rewrite (mapi_augment b A 0) by (simpl; lia).
      reflexivity. }
    split.
    { unfold augRows. rewrite length_map, length_combine. lia. }
    split.
    { unfold coefficients, augRows. rewrite map_map. revert b H.
      induction A as [|r A IH]; intros [|c b] H; simpl in *; try reflexivity; try lia.
      rewrite removelast_last. f_equal. apply IH. lia. }
    split.
    { unfold rightHandSide, augRows. rewrite map_map. revert b H.
      induction A as [|r A IH]; intros [|c b] H; simpl in *; try reflexivity; try lia.
      rewrite last_last. f_equal. apply IH. lia. }
    intros i row Hi.
    destruct (nth_error b i) as [bi|] eqn:Eb.
    + exists bi. split; [reflexivity|]. apply nth_error_augRows; assumption.
    + apply nth_error_None in Eb.
      assert (i < length A)%nat by (apply nth_error_Some; congruence). lia.
  - intros H. unfold augmentedMatrix. apply mapi_augment_short; simpl; lia.
Qed.

(** ** The backward pass on any rectangular matrix *)

Lemma removelast_snoc_row (n : nat) (row : Vector) :
  length row = S n -> row = removelast row ++ [last row 0] /\ length (removelast row) = n.
Proof.
  intros H. assert (Hne : row <> []) by (intros ->; discriminate).
  pose proof (app_removelast_last 0 Hne) as E. split; [exact E|].
  apply (f_equal (@length _)) in E. rewrite length_app in E. simpl in E. lia.
Qed.

Lemma last_rrefRows (M : Matrix) : last (rrefRows M) [] = last M [].
Proof.
  destruct M as [|r M] using rev_ind; [reflexivity|].
  rewrite rrefRows_snoc, !last_last. reflexivity.
Qed.

(** X4.  [reducedRowEchelonForm] returns on every rectangular matrix, the
    empty one and those not in echelon form included: the result has the same
    shape and the same null space, and its last row is the last row of the
    input. *)
Theorem reducedRowEchelonForm_shape (n : nat) (M : Matrix) :
  rectangular n M ->
  exists R, reducedRowEchelonForm M = Ok R /\
    length R = length M /\ rectangular n R /\
    last R [] = last M [] /\
    forall y, (annihilates R y <-> annihilates M y).
Proof.
  intros HM. exists (rrefRows M).
  split; [apply (reducedRowEchelonForm_rrefRows n); exact HM|].
  split; [apply length_rrefRows|].
  split; [apply rectangular_rrefRows; exact HM|].
  split; [apply last_rrefRows|].
  intros y. apply (annihilates_rrefRows n). exact HM.
Qed.

Lemma reducedRowEchelonForm_shape_witness :
  exists R, reducedRowEchelonForm (zmat [[1; 5]; [2; 3]]%Z) = Ok R /\
    length R = 2%nat /\ rectangular 2 R /\
    last R [] = map qz [2; 3]%Z /\
    forall y, (annihilates R y <-> annihilates (zmat [[1; 5]; [2; 3]]%Z) y).
Proof.
  apply (reducedRowEchelonForm_shape 2 (zmat [[1; 5]; [2; 3]]%Z)).
  repeat constructor.
Defined.

(** ** How many vectors [findNullSpaceSolution] returns *)

Lemma length_collectPivots (M : Matrix) : (length (collectPivots M) <= length M)%nat.
Proof.
  induction M as [|r M IH]; [simpl; lia|].
  rewrite collectPivots_cons, length_app. unfold pushPivot.
  destruct (findIndex nonzero r); simpl; lia.
Qed.

Lemma arr_set_Ok (v : Vector) (i : nat) (x : Qc) :
  (i <= length v)%nat ->
  exists v', arr_set v i x = Ok v' /\
             length v' = (if (i =? length v)%nat then S (length v) else length v).
Proof.
  intros H. unfold arr_set. destruct (i <? length v)%nat eqn:E1.
  - apply Nat.ltb_lt in E1. eexists. split; [reflexivity|].
    rewrite length_update. destruct (i =? length v)%nat eqn:E2; [|reflexivity].
    apply Nat.eqb_eq in E2. lia.
  - apply Nat.ltb_ge in E1. assert (E : i = length v) by lia.
    rewrite E, Nat.eqb_refl. eexists. split; [reflexivity|].
    rewrite length_app. simpl. lia.
Qed.

Lemma fillPivots_Ok (n : nat) (M : Matrix) (freeCol : nat) :
  rectangular (S n) M -> (freeCol < S n)%nat ->
  forall (cols : list nat) (rowIndex : nat) (v : Vector),
  (rowIndex + length cols <= length M)%nat ->
  (forall col, In col cols -> (col < length v)%nat) ->
  exists v', fillPivots M freeCol cols rowIndex v = Ok v' /\ length v' = length v.
Proof.
  intros HM Hfree. induction cols as [|col cols IH]; intros rowIndex v Hrows Hcols.
  - exists v. split; reflexivity.
  - cbn [fillPivots length] in *. unfold row_at.
    destruct (nth_error M rowIndex) as [row|] eqn:Er.
    2:{ apply nth_error_None in Er. lia. }
    cbn [bind].
    assert (Hrow : length row = S n).
    { unfold rectangular in HM. rewrite Forall_forall in HM. apply HM.
      eapply nth_error_In. eassumption. }
    rewrite (nth_error_nth' row 0) by lia. cbn [as_number bind].
    rewrite arr_set_in_range by (apply Hcols; left; reflexivity). cbn [bind].
    destruct (IH (S rowIndex) (update col (- nth freeCol row 0) v)) as (v' & E & Hl).
    + lia.
    + intros c Hc. rewrite length_update. apply Hcols. right. exact Hc.
    + exists v'. split; [exact E|]. rewrite Hl. apply length_update.
Qed.

Lemma mapi_result_Forall2 {A B : Type} (g : A -> result B) (P : A -> B -> Prop) :
  forall (l : list A) (k : nat),
  (forall x, In x l -> exists y, g x = Ok y /\ P x y) ->
  exists ys, mapi_result (fun _ x => g x) k l = Ok ys /\ Forall2 P l ys.
Proof.
  induction l as [|x l IH]; intros k H.
  - exists []. split; [reflexivity | constructor].
  - destruct (H x (or_introl eq_refl)) as (y & Ey & Py).
    destruct (IH (S k) (fun z Hz => H z (or_intror Hz))) as (ys & Eys & Pys).
    exists (y :: ys). cbn [mapi_result]. rewrite Ey. cbn [bind]. rewrite Eys.
    split; [reflexivity | constructor; assumption].
Qed.

Lemma Forall2_seq_nth_error {B : Type} (P : nat -> B -> Prop) :
  forall (c a : nat) (ys : list B), Forall2 P (seq a c) ys ->
  forall k y, nth_error ys k = Some y -> P (a + k)%nat y.
Proof.
  induction c as [|c IH]; intros a ys H k y Hk; simpl in H; inversion H; subst.
  - destruct k; discriminate.
  - destruct k as [|k]; simpl in Hk.
    + inversion Hk; subst. rewrite Nat.add_0_r. assumption.
    + replace (a + S k)%nat with (S a + k)%nat by lia. eapply IH; eassumption.
Qed.

Lemma classification_sizes (pv : list nat) (k : nat) :
  NoDup pv -> (forall j, In j pv -> (j < k)%nat) ->
  (length pv + length (filter (fun j => negb (includes pv j)) (seq 0 k)) = k)%nat.
Proof.
  intros Hnd Hlt.
  pose proof (filter_length (includes pv) (seq 0 k)) as Hlen.
  rewrite length_seq in Hlen.
  assert (Hperm : length pv = length (filter (includes pv) (seq 0 k))).
  { apply Permutation_length. apply NoDup_Permutation.
    - exact Hnd.
    - apply NoDup_filter. apply seq_NoDup.
    - intros j. rewrite filter_In, in_seq, includes_In. split; [|tauto].
      intros H. split; [|exact H]. specialize (Hlt j H). lia. }
  lia.
Qed.

Lemma nullSpaceVector_Ok (n : nat) (R : Matrix) (index : nat) :
  rectangular (S n) R -> leadingInCoefficients (S n) R ->
  (length (collectPivots R) + index <= n)%nat ->
  exists v, nullSpaceVector R (S n) (collectPivots R) index = Ok v /\
    length v = if (length (collectPivots R) + index =? n)%nat then S n else n.
Proof.
  intros HR Hlead Hidx. set (pv := collectPivots R) in *.
  assert (Hpv : forall j, In j pv -> (j < n)%nat).
  { intros j Hj. apply in_collectPivots in Hj as (r & Hr & Hl).
    pose proof (Hlead r j Hr Hl). lia. }
  unfold nullSpaceVector. cbn [zero_array bind].
  destruct (arr_set_Ok (repeat 0 n) (length pv + index) 1) as (v1 & E1 & L1).
  { rewrite repeat_length. lia. }
  rewrite E1. cbn [bind]. rewrite repeat_length in L1.
  destruct (fillPivots_Ok n R (length pv + index) HR ltac:(lia) pv 0 v1)
    as (v' & E' & L').
  - simpl. apply length_collectPivots.
  - intros col Hcol. specialize (Hpv col Hcol).
    destruct (length pv + index =? n)%nat; lia.
  - exists v'. split; [exact E'|]. rewrite L'. exact L1.
Qed.

(** [findNullSpaceSolution] returns, and its vectors are the results of
    [nullSpaceVector] for the indices [0 .. numCols - |pivotColumns| - 1]. *)
Lemma findNullSpaceSolution_each (n : nat) (row0 : Vector) (rest : Matrix) :
  rectangular (S n) (row0 :: rest) -> leadingInCoefficients (S n) (row0 :: rest) ->
  exists vs, findNullSpaceSolution (row0 :: rest) = Ok vs /\
    Forall2 (fun index v =>
               nullSpaceVector (row0 :: rest) (S n) (collectPivots (row0 :: rest)) index
               = Ok v)
            (seq 0 (S n - length (collectPivots (row0 :: rest)))) vs.
Proof.
  intros HR Hlead.
  assert (Hrow0 : length row0 = S n) by (inversion HR; assumption).
  destruct (mapi_result_Forall2
              (nullSpaceVector (row0 :: rest) (S n) (collectPivots (row0 :: rest)))
              (fun index v =>
                 nullSpaceVector (row0 :: rest) (S n) (collectPivots (row0 :: rest)) index
                 = Ok v)
              (seq 0 (S n - length (collectPivots (row0 :: rest)))) 0)
    as (vs & Evs & Pvs).
  { intros index Hin. apply in_seq in Hin.
    destruct (nullSpaceVector_Ok n (row0 :: rest) index HR Hlead ltac:(lia)) as (v & E & _).
    exists v. split; exact E. }
  exists vs. split; [|exact Pvs].
  unfold findNullSpaceSolution, row_at. cbn [nth_error bind].
  rewrite identifyPivotColumns_Ok. cbn [bind pivotColumns].
  rewrite Hrow0. exact Evs.
Qed.

(** X5.  On a rectangular matrix with [n + 1] columns in which no row has
    its first nonzero entry in the last column, [findNullSpaceSolution]
    returns [n + 1 - |pivotColumns|] vectors.  The vector built for the last
    column has [n + 1] entries, the others have [n].  When the rows have their
    first nonzero entries in different columns (as in a reduced matrix), that
    is one vector more than there are non-pivot columns. *)
Theorem findNullSpaceSolution_count (n : nat) (row0 : Vector) (rest : Matrix) :
  rectangular (S n) (row0 :: rest) -> leadingInCoefficients (S n) (row0 :: rest) ->
  exists c vs,
    identifyPivotColumns (row0 :: rest) = Ok c /\
    findNullSpaceSolution (row0 :: rest) = Ok vs /\
    length vs = (S n - length (pivotColumns c))%nat /\
    (forall k v, nth_error vs k = Some v ->
       length v = if (length (pivotColumns c) + k =? n)%nat then S n else n) /\
    (leadingDistinct (row0 :: rest) -> length vs = S (length (nonPivotColumns c))).
Proof.
  intros HR Hlead.
  assert (Hrow0 : length row0 = S n) by (inversion HR; assumption).
  destruct (findNullSpaceSolution_each n row0 rest HR Hlead) as (vs & Evs & Pvs).
  eexists. exists vs. split; [apply identifyPivotColumns_Ok|].
  cbn [pivotColumns nonPivotColumns].
  set (R := row0 :: rest) in *. set (pv := collectPivots R) in *.
  assert (Hpv : forall j, In j pv -> (j < n)%nat).
  { intros j Hj. apply in_collectPivots in Hj as (r & Hr & Hl).
    pose proof (Hlead r j Hr Hl). lia. }
  split; [exact Evs|].
  assert (Hlen : length vs = (S n - length pv)%nat).
  { apply Forall2_length in Pvs. rewrite length_seq in Pvs. lia. }
  split; [exact Hlen|]. split.
  - intros k v Hk.
    pose proof (Forall2_seq_nth_error _ _ 0 vs Pvs k v Hk) as E. simpl in E.
    assert (Hk' : (k < length vs)%nat) by (apply nth_error_Some; congruence).
    destruct (nullSpaceVector_Ok n R k HR Hlead) as (v' & E' & L'); [fold pv; lia|].
    fold pv in E', L'. rewrite E in E'. injection E' as <-. exact L'.
  - intros Hdist. rewrite Hrow0. replace (S n - 1)%nat with n by lia.
    pose proof (classification_sizes pv n (NoDup_collectPivots R Hdist) Hpv). lia.
Qed.

Lemma findNullSpaceSolution_count_witness :
  exists c vs,
    identifyPivotColumns (zmat [[1; 0; 0; 1]; [0; 1; 1; 2]]%Z) = Ok c /\
    findNullSpaceSolution (zmat [[1; 0; 0; 1]; [0; 1; 1; 2]]%Z) = Ok vs /\
    length vs = (4 - length (pivotColumns c))%nat /\
    (forall k v, nth_error vs k = Some v ->
       length v = if (length (pivotColumns c) + k =? 3)%nat then 4%nat else 3%nat) /\
    (leadingDistinct (zmat [[1; 0; 0; 1]; [0; 1; 1; 2]]%Z) ->
       length vs = S (length (nonPivotColumns c))).
Proof.
  apply (findNullSpaceSolution_count 3 (map qz [1; 0; 0; 1]%Z) [map qz [0; 1; 1; 2]%Z]).
  - repeat constructor.
  - intros r p [<-|[<-|[]]] Hl; apply leading_spec in Hl; vm_compute in Hl;
      inversion Hl; simpl; lia.
Defined.

Lemma nth_repeat_0 (n j : nat) : nth j (repeat (Q2Qc 0) n) 0 = 0.
Proof. apply nth_repeat. Qed.

(** * [findSolutions] of [src/RREF.ts] *)

Lemma indexOfNat_None (l : list nat) (x : nat) : ~ In x l -> indexOfNat l x = None.
Proof.
  induction l as [|y l IH]; intros H; simpl; [reflexivity|].
  destruct (y =? x)%nat eqn:E.
  - apply Nat.eqb_eq in E. subst. exfalso. apply H. left. reflexivity.
  - rewrite IH; [reflexivity|]. intros Hin. apply H. right. exact Hin.
Qed.

Lemma for_up_skip {St : Type} (n lo : nat) (s : St) :
  for_up (fun _ s => Ok s) lo n s = Ok s.
Proof. revert lo. induction n as [|n IH]; intros lo; simpl; auto. Qed.

Lemma length_vadd (u v : Vector) :
  (length u <= length v)%nat -> length (vadd u v) = length u.
Proof. intros H. unfold vadd. rewrite length_map, length_combine. lia. Qed.

Lemma for_up_addRow (row : Vector) :
  forall (rest done : Vector),
  (length done + length rest <= length row)%nat ->
  for_up (fun j ps =>
            cur <- as_number (nth_error ps j) ;;
            x <- as_number (nth_error row j) ;;
            arr_set ps j (cur + x)) (length done) (length rest) (done ++ rest)
  = Ok (done ++ vadd rest (skipn (length done) row)).
Proof.
  induction rest as [|c rest IH]; intros done H.
  - reflexivity.
  - cbn [for_up length] in *. rewrite nth_error_middle. cbn [as_number bind].
    destruct (nth_error row (length done)) as [x|] eqn:Ex.
    2:{ apply nth_error_None in Ex. lia. }
    cbn [as_number bind].
    rewrite arr_set_in_range by (rewrite length_app; simpl; lia).
    rewrite update_middle. cbn [bind].
    specialize (IH (done ++ [c + x])).
    rewrite length_app, Nat.add_1_r, <- app_assoc in IH. cbn [app] in IH.
    rewrite IH by lia. rewrite (skipn_nth_error row (length done) x Ex).
    rewrite <- app_assoc. reflexivity.
Qed.

Lemma addRowIf_Ok (isPivotRow : bool) (row ps : Vector) :
  (length ps <= length row)%nat ->
  addRowIf isPivotRow (length ps) row ps
  = Ok (if isPivotRow then vadd ps row else ps).
Proof.
  intros H. unfold addRowIf. destruct isPivotRow.
  - exact (for_up_addRow row ps [] H).
  - apply for_up_skip.
Qed.

Lemma forEach_findSolutionsRow (n : nat) (pivots free : list nat) :
  forall (rows : Matrix) (i : nat) (ps : Vector) (hs : list Vector),
  rectangular (S n) rows -> length ps = n ->
  (forall row, In row rows -> indexOf free (findIndex nonzero row) = None) ->
  forEach_result (findSolutionsRow (S n) pivots free) i rows (ps, hs)
  = Ok (sumPivotRows pivots i rows ps,
        hs ++ map (fun _ => repeat 0 n)
                  (filter (fun k => negb (includes pivots k)) (seq i (length rows)))).
Proof.
  induction rows as [|row rows IH]; intros i ps hs HR Hps Hidx.
  - simpl. rewrite app_nil_r. reflexivity.
  - inversion HR as [|? ? Hrow HR']; subst.
    cbn [forEach_result sumPivotRows length seq filter].
    unfold findSolutionsRow at 1. cbn [fst snd].
    replace (S (length ps) - 1)%nat with (length ps) by lia.
    rewrite addRowIf_Ok by lia. cbn [bind].
    destruct (includes pivots i) eqn:Ei; cbn [negb].
    + apply IH; [assumption | apply length_vadd; lia |].
      intros r Hr. apply Hidx. right. exact Hr.
    + cbn [zero_array bind]. rewrite (Hidx row (or_introl eq_refl)). cbn [bind].
      rewrite IH; [|assumption | reflexivity | intros r Hr; apply Hidx; right; exact Hr].
      cbn [map]. rewrite <- app_assoc. reflexivity.
Qed.

Lemma mapi_unit_vectors (n : nat) :
  forall (free : list nat) (k : nat), (forall c, In c free -> (c < n)%nat) ->
  mapi_result (fun _ columnIndex => arr_set (repeat 0 n) columnIndex 1) k free
  = Ok (map (fun c => update c 1 (repeat 0 n)) free).
Proof.
  induction free as [|c free IH]; intros k H; [reflexivity|].
  cbn [mapi_result map].
  rewrite arr_set_in_range by (rewrite repeat_length; apply H; left; reflexivity).
  cbn [bind]. rewrite IH by (intros c' Hc'; apply H; right; exact Hc'). reflexivity.
Qed.

(** What [findSolutions] returns on a rectangular matrix with [n + 1]
    columns. *)
Lemma findSolutions_Ok (n : nat) (row0 : Vector) (rest : Matrix) :
  rectangular (S n) (row0 :: rest) ->
  findSolutions (row0 :: rest)
  = Ok {| particularSolution :=
            sumPivotRows (collectPivots (row0 :: rest)) 0 (row0 :: rest) (repeat 0 n);
          homogeneousSolutions :=
            map (fun _ => repeat 0 n)
                (filter (fun k => negb (includes (collectPivots (row0 :: rest)) k))
                        (seq 0 (length (row0 :: rest))));
          generalSolutions :=
            map (fun c => update c 1 (repeat 0 n))
                (filter (fun j => negb (includes (collectPivots (row0 :: rest)) j))
                        (seq 0 n)) |}.
Proof.
  intros HR. assert (Hrow0 : length row0 = S n) by (inversion HR; assumption).
  unfold findSolutions. rewrite identifyPivotColumns_Ok. cbn [bind].
  unfold row_at. cbn [nth_error bind pivotColumns nonPivotColumns].
  rewrite Hrow0. cbn [zero_array bind]. replace (S n - 1)%nat with n by lia.
  set (M := row0 :: rest) in *. set (pv := collectPivots M).
  rewrite (forEach_findSolutionsRow n pv _ M 0 (repeat 0 n) [] HR (repeat_length _ _)).
  - cbn [bind fst snd app].
    rewrite mapi_unit_vectors; [reflexivity|].
    intros c Hc. apply filter_In in Hc as [Hc _]. apply in_seq in Hc. lia.
  - intros row Hrow. destruct (findIndex nonzero row) as [p|] eqn:Ep; [|reflexivity].
    cbn [indexOf]. apply indexOfNat_None. intros Hin.
    apply filter_In in Hin as [_ Hin]. apply negb_true_iff in Hin.
    assert (Hp : In p pv).
    { apply in_collectPivots. exists row. split; [exact Hrow | apply leading_spec; exact Ep]. }
    apply includes_In in Hp. congruence.
Qed.

(** X7.  On a rectangular matrix with [n + 1] columns [findSolutions]
    returns; every vector of [homogeneousSolutions] is the zero vector (the
    first nonzero column of a row is a pivot column, so its [indexOf] in
    [nonPivotColumns] is [-1] and no element is set), there is one for each
    row whose index is not in [pivotColumns]; and [generalSolutions] holds,
    for each non-pivot column in ascending order, the unit vector of that
    column. *)
Theorem findSolutions_vectors (n : nat) (row0 : Vector) (rest : Matrix) :
  rectangular (S n) (row0 :: rest) ->
  exists c s,
    identifyPivotColumns (row0 :: rest) = Ok c /\
    findSolutions (row0 :: rest) = Ok s /\
    length (particularSolution s) = n /\
    Forall (fun h => h = repeat 0 n) (homogeneousSolutions s) /\
    length (homogeneousSolutions s)
      = length (filter (fun i => negb (includes (pivotColumns c) i))
                       (seq 0 (length (row0 :: rest)))) /\
    generalSolutions s = map (fun f => update f 1 (repeat 0 n)) (nonPivotColumns c).
Proof.
  intros HR. eexists. eexists.
  split; [apply identifyPivotColumns_Ok|].
  split; [apply (findSolutions_Ok n); exact HR|].
  cbn [particularSolution homogeneousSolutions generalSolutions pivotColumns
       nonPivotColumns].
  assert (Hrow0 : length row0 = S n) by (inversion HR; assumption).
  split.
  { assert (H : forall rows pv i ps, rectangular (S n) rows -> length ps = n ->
                length (sumPivotRows pv i rows ps) = n).
    { induction rows as [|row rows IH]; intros pv i ps Hrows Hps; [exact Hps|].
      inversion Hrows; subst. cbn [sumPivotRows]. apply IH; [assumption|].
      destruct (includes pv i); [|reflexivity]. apply length_vadd. lia. }
    apply H; [exact HR | apply repeat_length]. }
  split; [apply Forall_map; apply Forall_forall; reflexivity|].
  split; [apply length_map|].
  rewrite Hrow0. replace (S n - 1)%nat with n by lia. reflexivity.
Qed.

Lemma findSolutions_vectors_witness :
  exists c s,
    identifyPivotColumns (zmat [[1; 2; 0; 3]; [0; 0; 1; 4]; [0; 0; 0; 0]]%Z) = Ok c /\
    findSolutions (zmat [[1; 2; 0; 3]; [0; 0; 1; 4]; [0; 0; 0; 0]]%Z) = Ok s /\
    length (particularSolution s) = 3%nat /\
    Forall (fun h => h = repeat 0 3) (homogeneousSolutions s) /\
    length (homogeneousSolutions s)
      = length (filter (fun i => negb (includes (pivotColumns c) i)) (seq 0 3)) /\
    generalSolutions s = map (fun f => update f 1 (repeat 0 3)) (nonPivotColumns c).
Proof.
  apply (findSolutions_vectors 3 (map qz [1; 2; 0; 3]%Z)
           [map qz [0; 0; 1; 4]%Z; map qz [0; 0; 0; 0]%Z]).
  repeat constructor.
Defined.

Lemma combine_app_r {A B : Type} (u : list A) (r x : list B) :
  (length u <= length r)%nat -> combine u (r ++ x) = combine u r.
Proof.
  revert r. induction u as [|a u IH]; intros [|b r] H; simpl in *; try reflexivity;
    try lia.
  f_equal. apply IH. lia.
Qed.

Lemma vadd_removelast (n : nat) (ps row : Vector) :
  length ps = n -> length row = S n -> vadd ps row = vadd ps (removelast row).
Proof.
  intros Hps Hrow. destruct (removelast_snoc_row n row Hrow) as [E Hl].
  unfold vadd. rewrite E at 1. rewrite combine_app_r by lia. reflexivity.
Qed.

Lemma findIndex_app_Some {A : Type} (p : A -> bool) (l l' : list A) (i : nat) :
  findIndex p l = Some i -> findIndex p (l ++ l') = Some i.
Proof.
  revert i. induction l as [|x l IH]; intros i H; simpl in *; [discriminate|].
  destruct (p x); [exact H|].
  destruct (findIndex p l) as [j|]; [|discriminate].
  rewrite (IH j eq_refl). exact H.
Qed.

Lemma findIndex_removelast (n : nat) (row : Vector) :
  length row = S n -> ~ zeroRow (removelast row) ->
  findIndex nonzero row = findIndex nonzero (removelast row).
Proof.
  intros Hrow Hnz. destruct (removelast_snoc_row n row Hrow) as [E _].
  destruct (findIndex nonzero (removelast row)) as [p|] eqn:Ep.
  - rewrite E. apply findIndex_app_Some. exact Ep.
  - exfalso. apply Hnz. apply zeroRow_findIndex. exact Ep.
Qed.

Lemma collectPivots_coefficients (n : nat) (M : Matrix) :
  rectangular (S n) M -> (forall r, In r (coefficients M) -> ~ zeroRow r) ->
  collectPivots M = collectPivots (coefficients M).
Proof.
  intros HM. induction HM as [|row M Hrow HM IH]; intros H; [reflexivity|].
  cbn [coefficients map] in *. rewrite !collectPivots_cons. unfold pushPivot.
  rewrite (findIndex_removelast n row Hrow) by (apply H; left; reflexivity).
  f_equal. apply IH. intros r Hr. apply H. right. exact Hr.
Qed.

Lemma sumPivotRows_coefficients (n : nat) (pv : list nat) (M : Matrix) :
  rectangular (S n) M -> forall (i : nat) (ps : Vector), length ps = n ->
  sumPivotRows pv i M ps = sumPivotRows pv i (coefficients M) ps.
Proof.
  intros HM. induction HM as [|row M Hrow HM IH]; intros i ps Hps; [reflexivity|].
  cbn [coefficients map sumPivotRows].
  rewrite <- (vadd_removelast n ps row Hps Hrow).
  apply IH. destruct (includes pv i); [|exact Hps]. rewrite length_vadd; lia.
Qed.

(** X8.  The [particularSolution] of [findSolutions] does not read the
    right-hand side: two rectangular augmented matrices with the same
    coefficient block, none of whose coefficient rows is entirely zero, get the
    same [particularSolution], whatever their last columns are. *)
Theorem findSolutions_particular_ignores_rhs (n : nat) (M M' : Matrix) :
  rectangular (S n) M -> rectangular (S n) M' -> M <> [] ->
  coefficients M' = coefficients M ->
  (forall r, In r (coefficients M) -> ~ zeroRow r) ->
  exists s s', findSolutions M = Ok s /\ findSolutions M' = Ok s' /\
               particularSolution s' = particularSolution s.
Proof.
  intros HM HM' Hne Hc Hnz.
  destruct M as [|row0 rest]; [contradiction|].
  destruct M' as [|row0' rest']; [discriminate|].
  eexists. eexists.
  split; [apply (findSolutions_Ok n); exact HM|].
  split; [apply (findSolutions_Ok n); exact HM'|].
  cbn [particularSolution].
  rewrite (collectPivots_coefficients n _ HM Hnz).
  rewrite (collectPivots_coefficients n _ HM') by (rewrite Hc; exact Hnz).
  rewrite (sumPivotRows_coefficients n _ _ HM) by apply repeat_length.
  rewrite (sumPivotRows_coefficients n _ _ HM') by apply repeat_length.
  rewrite Hc. reflexivity.
Qed.

Lemma findSolutions_particular_ignores_rhs_witness :
  exists s s',
    findSolutions (zmat [[1; 0; 5]; [0; 1; 7]]%Z) = Ok s /\
    findSolutions (zmat [[1; 0; -2]; [0; 1; 0]]%Z) = Ok s' /\
    particularSolution s' = particularSolution s.
Proof.
  apply (findSolutions_particular_ignores_rhs 2 (zmat [[1; 0; 5]; [0; 1; 7]]%Z)
           (zmat [[1; 0; -2]; [0; 1; 0]]%Z)).
  - repeat constructor.
  - repeat constructor.
  - discriminate.
  - reflexivity.
  - intros r [<-|[<-|[]]] Hz; apply zeroRow_findIndex in Hz; vm_compute in Hz;
      discriminate.
Defined.

(** * The matrix helpers of [src/RREF.ts] *)

(** ** Loops with an invariant, and matrices entry by entry *)

Lemma for_up_inv {St : Type} (body : nat -> St -> result St) (P : nat -> St -> Prop) :
  forall (n lo : nat) (s : St),
  P lo s ->
  (forall i s, (lo <= i < lo + n)%nat -> P i s -> exists s', body i s = Ok s' /\ P (S i) s') ->
  exists s', for_up body lo n s = Ok s' /\ P (lo + n)%nat s'.
Proof.
  induction n as [|n IH]; intros lo s H0 Hstep.
  - exists s. rewrite Nat.add_0_r. split; [reflexivity | exact H0].
  - destruct (Hstep lo s ltac:(lia) H0) as (s1 & E1 & H1).
    destruct (IH (S lo) s1 H1) as (s2 & E2 & H2).
    { intros i s' Hi. apply Hstep. lia. }
    exists s2. cbn [for_up]. rewrite E1. cbn [bind]. rewrite E2.
    split; [reflexivity|]. replace (lo + S n)%nat with (S lo + n)%nat by lia. exact H2.
Qed.

Lemma nth_update {A : Type} (i k : nat) (x d : A) (l : list A) :
  (i < length l)%nat -> nth k (update i x l) d = if (k =? i)%nat then x else nth k l d.
Proof.
  intros H. destruct (k =? i)%nat eqn:E.
  - apply Nat.eqb_eq in E. subst. apply nth_update_eq. exact H.
  - apply Nat.eqb_neq in E. apply nth_update_neq. lia.
Qed.

Lemma rectangular_update (c i : nat) (r : Vector) (M : Matrix) :
  rectangular c M -> length r = c -> rectangular c (update i r M).
Proof.
  intros HM Hr. revert i. induction HM as [|x M Hx HM IH]; intros [|i]; simpl.
  - constructor.
  - constructor.
  - constructor; [exact Hr | exact HM].
  - constructor; [exact Hx | apply IH].
Qed.

Lemma row_at_Ok (M : Matrix) (i : nat) :
  (i < length M)%nat -> row_at M i = Ok (nth i M []).
Proof.
  intros H. unfold row_at. rewrite (nth_error_nth' M [] H). reflexivity.
Qed.

Lemma shaped_row (r c : nat) (M : Matrix) (i : nat) :
  shaped r c M -> (i < r)%nat -> length (nth i M []) = c.
Proof.
  intros [Hl HM] Hi. unfold rectangular in HM. rewrite Forall_forall in HM.
  apply HM. apply nth_In. lia.
Qed.

Lemma set2_Ok (r c : nat) (M : Matrix) (i j : nat) (x : number) :
  shaped r c M -> (i < r)%nat -> (j < c)%nat ->
  exists M', set2 M i j x = Ok M' /\ shaped r c M' /\
    forall i' j', entry M' i' j' =
      if ((i' =? i) && (j' =? j))%nat then x else entry M i' j'.
Proof.
  intros HM Hi Hj. pose proof (shaped_row r c M i HM Hi) as Hrow.
  destruct HM as [Hl HM]. unfold set2.
  rewrite row_at_Ok by lia. cbn [bind].
  rewrite arr_set_in_range by lia. cbn [bind]. eexists. split; [reflexivity|].
  split.
  - split; [rewrite length_update; exact Hl|].
    apply rectangular_update; [exact HM | rewrite length_update; exact Hrow].
  - intros i' j'. unfold entry. rewrite nth_update by lia.
    destruct (i' =? i)%nat eqn:Ei; cbn [andb]; [|reflexivity].
    apply Nat.eqb_eq in Ei. subst i'. apply nth_update. lia.
Qed.

Lemma shaped_zeroMatrix (r c : nat) : shaped r c (zeroMatrix r c).
Proof.
  unfold shaped, zeroMatrix. split; [apply repeat_length|].
  apply Forall_forall. intros x Hx. apply repeat_spec in Hx. subst.
  apply repeat_length.
Qed.

Lemma nth_repeat_if {A : Type} (x d : A) (r i : nat) :
  nth i (repeat x r) d = if (i <? r)%nat then x else d.
Proof.
  revert i. induction r as [|r IH]; intros [|i]; simpl; try reflexivity.
  rewrite IH. reflexivity.
Qed.

Lemma entry_zeroMatrix (r c i j : nat) : entry (zeroMatrix r c) i j = 0.
Proof.
  unfold entry, zeroMatrix. rewrite nth_repeat_if.
  destruct (i <? r)%nat; [apply nth_repeat_0 | destruct j; reflexivity].
Qed.

Lemma matrix_ext (r c : nat) (M N : Matrix) :
  shaped r c M -> shaped r c N ->
  (forall i j, (i < r)%nat -> (j < c)%nat -> entry M i j = entry N i j) ->
  M = N.
Proof.
  intros HM HN H. apply (nth_ext M N [] []).
  - destruct HM, HN. congruence.
  - intros i Hi. assert (Hi' : (i < r)%nat) by (destruct HM; lia).
    apply (nth_ext _ _ 0 0).
    + rewrite (shaped_row r c M i HM Hi'), (shaped_row r c N i HN Hi'). reflexivity.
    + intros j Hj. rewrite (shaped_row r c M i HM Hi') in Hj. apply (H i j Hi' Hj).
Qed.

(** ** [transposeMatrix] *)

Lemma transposeMatrix_entries (r c : nat) (M : Matrix) :
  shaped r c M -> (0 < r)%nat ->
  exists T, transposeMatrix M = Ok T /\ shaped c r T /\
    forall i j, (i < r)%nat -> (j < c)%nat -> entry T j i = entry M i j.
Proof.
  intros HM Hr. pose proof (shaped_row r c M 0 HM Hr) as Hrow0.
  unfold transposeMatrix. rewrite row_at_Ok by (destruct HM; lia). cbn [bind].
  rewrite Hrow0. replace (length M) with r by (destruct HM; congruence).
  destruct (for_up_inv
              (fun i res =>
                 for_up (fun j res =>
                           row <- row_at M i ;;
                           x <- as_number (nth_error row j) ;;
                           set2 res j i x) 0 c res)
              (fun i res => shaped c r res /\
                 forall i' j, (i' < i)%nat -> (j < c)%nat -> entry res j i' = entry M i' j)
              r 0 (zeroMatrix c r)) as (T & ET & HT & HTe).
  { split; [apply shaped_zeroMatrix | intros; lia]. }
  { intros i res Hi [Hres Hdone]. simpl in Hi.
    destruct (for_up_inv
                (fun j res =>
                   row <- row_at M i ;;
                   x <- as_number (nth_error row j) ;;
                   set2 res j i x)
                (fun j res => shaped c r res /\
                   (forall i' j', (i' < i)%nat -> (j' < c)%nat ->
                      entry res j' i' = entry M i' j') /\
                   (forall j', (j' < j)%nat -> entry res j' i = entry M i j'))
                c 0 res) as (res' & E' & Hres' & Hdone' & Hrow').
    - split; [exact Hres|]. split; [exact Hdone | intros; lia].
    - intros j res1 Hj (H1 & H2 & H3). simpl in Hj.
      rewrite row_at_Ok by (destruct HM; lia). cbn [bind].
      rewrite (nth_error_nth' _ 0) by (rewrite (shaped_row r c M i HM); lia).
      cbn [as_number bind].
      destruct (set2_Ok c r res1 j i (nth j (nth i M []) 0) H1 ltac:(lia) ltac:(lia))
        as (res2 & E2 & Hs2 & He2).
      exists res2. split; [exact E2|]. split; [exact Hs2|]. split.
      + intros i' j' Hi' Hj'. rewrite He2.
        replace (i' =? i)%nat with false by (symmetry; apply Nat.eqb_neq; lia).
        rewrite andb_false_r. apply H2; assumption.
      + intros j' Hj'. rewrite He2. rewrite Nat.eqb_refl, andb_true_r.
        destruct (j' =? j)%nat eqn:Ej.
        * apply Nat.eqb_eq in Ej. subst. reflexivity.
        * apply Nat.eqb_neq in Ej. apply H3. lia.
    - exists res'. split; [exact E'|]. split; [exact Hres'|].
      intros i' j Hi' Hj. destruct (Nat.eq_dec i' i) as [->|Hne].
      + apply Hrow'. simpl. exact Hj.
      + apply Hdone'; [lia | exact Hj]. }
  exists T. split; [exact ET|]. split; [exact HT|].
  intros i j Hi Hj. apply HTe; [simpl; exact Hi | exact Hj].
Qed.

(** X9.  [transposeMatrix] on a rectangular matrix with [r >= 1] rows and
    [c] columns returns a matrix with [c] rows and [r] columns whose entry
    [(j, i)] is the entry [(i, j)] of the input.  With [c >= 1] transposing
    the result gives the input back; with [c = 0] the result is the empty
    matrix, on which [transposeMatrix] throws a [TypeError]. *)
Theorem transposeMatrix_involution (r c : nat) (M : Matrix) :
  shaped r c M -> (0 < r)%nat ->
  exists T, transposeMatrix M = Ok T /\ shaped c r T /\
    (forall i j, (i < r)%nat -> (j < c)%nat -> entry T j i = entry M i j) /\
    ((0 < c)%nat -> transposeMatrix T = Ok M) /\
    (c = 0%nat -> T = [] /\ transposeMatrix T = Err TypeError).
Proof.
  intros HM Hr. destruct (transposeMatrix_entries r c M HM Hr) as (T & ET & HT & He).
  exists T. split; [exact ET|]. split; [exact HT|]. split; [exact He|]. split.
  - intros Hc. destruct (transposeMatrix_entries c r T HT Hc) as (T' & ET' & HT' & He').
    rewrite ET'. f_equal. apply (matrix_ext r c); [exact HT' | exact HM|].
    intros i j Hi Hj. rewrite He' by assumption. apply He; assumption.
  - intros ->. destruct HT as [Hl _]. destruct T; [|discriminate].
    split; reflexivity.
Qed.

Lemma transposeMatrix_involution_witness :
  exists T, transposeMatrix (zmat [[1; 2; 3]; [4; 5; 6]]%Z) = Ok T /\ shaped 3 2 T /\
    (forall i j, (i < 2)%nat -> (j < 3)%nat ->
       entry T j i = entry (zmat [[1; 2; 3]; [4; 5; 6]]%Z) i j) /\
    ((0 < 3)%nat -> transposeMatrix T = Ok (zmat [[1; 2; 3]; [4; 5; 6]]%Z)) /\
    (3%nat = 0%nat -> T = [] /\ transposeMatrix T = Err TypeError).
Proof.
  apply (transposeMatrix_involution 2 3 (zmat [[1; 2; 3]; [4; 5; 6]]%Z)).
  - split; [reflexivity | repeat constructor].
  - lia.
Defined.

(** ** The product loops *)

Lemma entry_nth (M : Matrix) (i j : nat) : nth j (nth i M []) 0 = entry M i j.
Proof. reflexivity. Qed.

Lemma accumulate_Ok (rows cols inner : nat) (A B res : Matrix) (i j k : nat) :
  shaped rows inner A -> shaped inner cols B -> shaped rows cols res ->
  (i < rows)%nat -> (j < cols)%nat -> (k < inner)%nat ->
  exists res', accumulate A B i j k res = Ok res' /\ shaped rows cols res' /\
    forall i' j', entry res' i' j' =
      if ((i' =? i) && (j' =? j))%nat then entry res i j + entry A i k * entry B k j
      else entry res i' j'.
Proof.
  intros HA HB Hres Hi Hj Hk. unfold accumulate.
  rewrite (row_at_Ok res) by (destruct Hres; lia). cbn [bind].
  rewrite (row_at_Ok A) by (destruct HA; lia). cbn [bind].
  rewrite (row_at_Ok B) by (destruct HB; lia). cbn [bind].
  rewrite (nth_error_nth' _ 0) by (rewrite (shaped_row rows cols res i Hres Hi); lia).
  cbn [as_number bind].
  rewrite (nth_error_nth' _ 0) by (rewrite (shaped_row rows inner A i HA Hi); lia).
  cbn [as_number bind].
  rewrite (nth_error_nth' _ 0) by (rewrite (shaped_row inner cols B k HB Hk); lia).
  cbn [as_number bind]. rewrite !entry_nth.
  apply (set2_Ok rows cols); assumption.
Qed.

Lemma progress_step (inner i j k i' j' : nat) :
  progress inner i j (S k) i' j' =
  if ((i' =? i) && (j' =? j))%nat then S k else progress inner i j k i' j'.
Proof.
  unfold progress.
  destruct (Nat.ltb_spec i' i); destruct (Nat.eqb_spec i' i); cbn [andb]; try lia;
    try reflexivity.
  destruct (Nat.ltb_spec j' j); destruct (Nat.eqb_spec j' j); try lia; reflexivity.
Qed.

Lemma progress_here (inner i j k : nat) : progress inner i j k i j = k.
Proof.
  unfold progress. rewrite Nat.ltb_irrefl, !Nat.eqb_refl, Nat.ltb_irrefl. reflexivity.
Qed.

Lemma progress_next_column (inner i j i' j' : nat) :
  progress inner i j inner i' j' = progress inner i (S j) 0 i' j'.
Proof.
  unfold progress.
  destruct (Nat.ltb_spec i' i); destruct (Nat.eqb_spec i' i); try reflexivity.
  destruct (Nat.ltb_spec j' j); destruct (Nat.eqb_spec j' j);
    destruct (Nat.ltb_spec j' (S j)); destruct (Nat.eqb_spec j' (S j)); try lia;
    reflexivity.
Qed.

Lemma progress_next_row (inner cols i i' j' : nat) :
  (j' < cols)%nat ->
  progress inner i cols 0 i' j' = progress inner (S i) 0 0 i' j'.
Proof.
  intros Hj. unfold progress.
  destruct (Nat.ltb_spec i' i); destruct (Nat.eqb_spec i' i);
    destruct (Nat.ltb_spec i' (S i)); destruct (Nat.eqb_spec i' (S i)); try lia;
    try reflexivity.
  - destruct (Nat.ltb_spec j' cols); [reflexivity | lia].
  - destruct (Nat.ltb_spec j' 0); [lia|]. destruct (Nat.eqb_spec j' 0); reflexivity.
Qed.

(** The loops add to every entry [(i, j)] the sum of [A[i][k] * B[k][j]]
    over [k < inner]. *)
Lemma productLoops_entries (rows cols inner : nat) (A B res0 : Matrix) :
  shaped rows inner A -> shaped inner cols B -> shaped rows cols res0 ->
  exists P, productLoops A B rows cols inner res0 = Ok P /\ shaped rows cols P /\
    forall i j, (i < rows)%nat -> (j < cols)%nat ->
      entry P i j = entry res0 i j + sumTo inner (fun k => entry A i k * entry B k j).
Proof.
  intros HA HB H0.
  set (Inv := fun (i j k : nat) (res : Matrix) =>
                shaped rows cols res /\
                forall i' j', (i' < rows)%nat -> (j' < cols)%nat ->
                  entry res i' j' =
                  entry res0 i' j' +
                  sumTo (progress inner i j k i' j')
                        (fun k => entry A i' k * entry B k j')).
  unfold productLoops.
  destruct (for_up_inv
              (fun i res =>
                 for_up (fun j res =>
                           for_up (fun k res => accumulate A B i j k res) 0 inner res)
                        0 cols res)
              (fun i res => Inv i 0%nat 0%nat res) rows 0 res0) as (P & EP & HP & HPe).
  { split; [exact H0|]. intros i' j' Hi' Hj'.
    assert (E : progress inner 0 0 0 i' j' = 0%nat).
    { unfold progress. destruct i'; simpl; [destruct j'|]; reflexivity. }
    rewrite E. simpl. ring. }
  { intros i res Hi Hinv. simpl in Hi.
    destruct (for_up_inv
                (fun j res => for_up (fun k res => accumulate A B i j k res) 0 inner res)
                (fun j res => Inv i j 0%nat res) cols 0 res Hinv) as (res' & E' & Hs' & He').
    - intros j res1 Hj Hinv1. simpl in Hj.
      destruct (for_up_inv (fun k res => accumulate A B i j k res)
                  (fun k res => Inv i j k res) inner 0 res1 Hinv1)
        as (res2 & E2 & Hs2 & He2).
      + intros k res3 Hk [Hs3 He3]. simpl in Hk.
        destruct (accumulate_Ok rows cols inner A B res3 i j k HA HB Hs3)
          as (res4 & E4 & Hs4 & He4); try lia.
        exists res4. split; [exact E4|]. split; [exact Hs4|].
        intros i' j' Hi' Hj'. rewrite He4, progress_step.
        destruct ((i' =? i) && (j' =? j))%nat eqn:Eij.
        * apply andb_true_iff in Eij as [Ei Ej].
          apply Nat.eqb_eq in Ei. apply Nat.eqb_eq in Ej. subst i' j'.
          rewrite (He3 i j Hi' Hj'), progress_here. cbn [sumTo]. ring.
        * apply He3; assumption.
      + exists res2. split; [exact E2|]. split; [exact Hs2|].
        intros i' j' Hi' Hj'. rewrite <- progress_next_column.
        apply He2; assumption.
    - exists res'. split; [exact E'|]. split; [exact Hs'|].
      intros i' j' Hi' Hj'. rewrite <- (progress_next_row inner cols) by exact Hj'.
      apply He'; assumption. }
  exists P. split; [exact EP|]. split; [exact HP|].
  intros i j Hi Hj. rewrite (HPe i j Hi Hj). f_equal. f_equal.
  unfold progress. simpl. replace (i <? rows)%nat with true; [reflexivity|].
  symmetry. apply Nat.ltb_lt. exact Hi.
Qed.

Lemma sumTo_ext (n : nat) (f g : nat -> number) :
  (forall k, (k < n)%nat -> f k = g k) -> sumTo n f = sumTo n g.
Proof.
  induction n as [|n IH]; intros H; simpl; [reflexivity|].
  rewrite IH by (intros k Hk; apply H; lia). rewrite (H n) by lia. reflexivity.
Qed.

Lemma sumTo_zero (n : nat) (f : nat -> number) :
  (forall k, (k < n)%nat -> f k = 0) -> sumTo n f = 0.
Proof.
  induction n as [|n IH]; intros H; simpl; [reflexivity|].
  rewrite IH by (intros k Hk; apply H; lia). rewrite (H n) by lia. ring.
Qed.

Lemma sumTo_single (n q : nat) (f : nat -> number) :
  (q < n)%nat -> (forall k, (k < n)%nat -> k <> q -> f k = 0) -> sumTo n f = f q.
Proof.
  induction n as [|n IH]; intros Hq H; [lia|]. simpl.
  destruct (Nat.eq_dec q n) as [->|Hne].
  - rewrite sumTo_zero by (intros k Hk; apply H; lia). ring.
  - rewrite IH by (try lia; intros k Hk Hkq; apply H; lia).
    rewrite (H n) by lia. ring.
Qed.

Lemma sumTo_two (n p q : nat) (f : nat -> number) :
  (p < n)%nat -> (q < n)%nat -> p <> q ->
  (forall k, (k < n)%nat -> k <> p -> k <> q -> f k = 0) ->
  sumTo n f = f p + f q.
Proof.
  induction n as [|n IH]; intros Hp Hq Hpq H; [lia|]. simpl.
  destruct (Nat.eq_dec p n) as [->|Hp'].
  - rewrite (sumTo_single n q) by (try lia; intros k Hk Hkq; apply H; lia). ring.
  - destruct (Nat.eq_dec q n) as [->|Hq'].
    + rewrite (sumTo_single n p) by (try lia; intros k Hk Hkp; apply H; lia). ring.
    + rewrite IH by (try lia; intros k Hk Hk1 Hk2; apply H; lia).
      rewrite (H n) by lia. ring.
Qed.

(** ** [multiplyMatrices] *)

Lemma multiplyMatrices_product_aux (r n c : nat) (A B : Matrix) :
  shaped r n A -> shaped n c B -> (0 < r)%nat -> (0 < n)%nat ->
  exists P, multiplyMatrices A B = Product P /\ shaped r c P /\
    forall i j, (i < r)%nat -> (j < c)%nat ->
      entry P i j = sumTo n (fun k => entry A i k * entry B k j).
Proof.
  intros HA HB Hr Hn. unfold multiplyMatrices.
  rewrite (row_at_Ok A) by (destruct HA; lia).
  rewrite (row_at_Ok B) by (destruct HB; lia).
  rewrite (shaped_row r n A 0 HA Hr), (shaped_row n c B 0 HB Hn).
  destruct HA as [HlA HA']. destruct HB as [HlB HB']. rewrite HlA, HlB.
  rewrite Nat.eqb_refl. cbn [negb].
  destruct (productLoops_entries r c n A B (zeroMatrix r c)) as (P & EP & HP & He).
  - split; assumption.
  - split; assumption.
  - apply shaped_zeroMatrix.
  - rewrite EP. exists P. split; [reflexivity|]. split; [exact HP|].
    intros i j Hi Hj. rewrite (He i j Hi Hj), entry_zeroMatrix. ring.
Qed.

(** X10.  On rectangular operands with at least one row each, an [r x n]
    and an [m x c] matrix, [multiplyMatrices] returns the [r x c] matrix
    whose entry [(i, j)] is the sum over [k < n] of
    [matrix1[i][k] * matrix2[k][j]] when [n = m], and throws its "Invalid
    matrices" error when [n <> m]. *)
Theorem multiplyMatrices_product (r n m c : nat) (A B : Matrix) :
  shaped r n A -> shaped m c B -> (0 < r)%nat -> (0 < m)%nat ->
  if (n =? m)%nat
  then exists P, multiplyMatrices A B = Product P /\ shaped r c P /\
         forall i j, (i < r)%nat -> (j < c)%nat ->
           entry P i j = sumTo n (fun k => entry A i k * entry B k j)
  else multiplyMatrices A B = InvalidMatrices.
Proof.
  intros HA HB Hr Hm. destruct (Nat.eqb_spec n m) as [->|Hne].
  - apply multiplyMatrices_product_aux; assumption.
  - unfold multiplyMatrices.
    rewrite (row_at_Ok A) by (destruct HA; lia).
    rewrite (row_at_Ok B) by (destruct HB; lia).
    rewrite (shaped_row r n A 0 HA Hr).
    replace (length B) with m by (destruct HB; congruence).
    apply Nat.eqb_neq in Hne. rewrite Hne. reflexivity.
Qed.

Lemma multiplyMatrices_product_witness :
  exists P, multiplyMatrices (zmat [[1; 2; 3]; [4; 5; 6]]%Z) (zmat [[1; 0]; [0; 1]; [1; 1]]%Z)
            = Product P /\ shaped 2 2 P /\
    forall i j, (i < 2)%nat -> (j < 2)%nat ->
      entry P i j = sumTo 3 (fun k => entry (zmat [[1; 2; 3]; [4; 5; 6]]%Z) i k *
                                      entry (zmat [[1; 0]; [0; 1]; [1; 1]]%Z) k j).
Proof.
  apply (multiplyMatrices_product 2 3 3 2).
  - split; [reflexivity | repeat constructor].
  - split; [reflexivity | repeat constructor].
  - lia.
  - lia.
Defined.

(** ** [isSymmetric] *)

Lemma read2_Ok (M : Matrix) (i j : nat) :
  (i < length M)%nat -> read2 M i j = Ok (nth_error (nth i M []) j).
Proof. intros H. unfold read2. rewrite row_at_Ok by exact H. reflexivity. Qed.

(** [isSymmetric] never fails, and it answers [true] exactly when no pair
    below the diagonal differs from its mirror image. *)
Lemma isSymmetric_spec (M : Matrix) :
  exists b, isSymmetric M = Ok b /\
    (b = true <->
     forall i j, (j < i < length M)%nat ->
       differ (nth_error (nth i M []) j) (nth_error (nth j M []) i) = false).
Proof.
  set (ok := fun i j => differ (nth_error (nth i M []) j) (nth_error (nth j M []) i) = false).
  set (bad := exists i j, (j < i < length M)%nat /\ ~ ok i j).
  unfold isSymmetric.
  destruct (for_up_inv
              (fun i (found : option bool) =>
                 for_up (fun j (found : option bool) =>
                           match found with
                           | Some b => Ok (Some b)
                           | None =>
                               x <- read2 M i j ;;
                               y <- read2 M j i ;;
                               Ok (if differ x y then Some false else None)
                           end) 0 i found)
              (fun i found =>
                 (found = None /\ forall i' j, (j < i' < i)%nat -> ok i' j) \/
                 (found = Some false /\ bad))
              (length M) 0 None) as (f & Ef & Hf).
  { left. split; [reflexivity | intros; lia]. }
  { intros i found Hi Hinv. simpl in Hi.
    destruct (for_up_inv
                (fun j (found : option bool) =>
                   match found with
                   | Some b => Ok (Some b)
                   | None =>
                       x <- read2 M i j ;;
                       y <- read2 M j i ;;
                       Ok (if differ x y then Some false else None)
                   end)
                (fun j found =>
                   (found = None /\ (forall i' j', (j' < i' < i)%nat -> ok i' j') /\
                    forall j', (j' < j)%nat -> ok i j') \/
                   (found = Some false /\ bad))
                i 0 found) as (f' & Ef' & Hf').
    - destruct Hinv as [[-> H]|[-> H]]; [left | right; split; auto].
      split; [reflexivity|]. split; [exact H | intros; lia].
    - intros j fd Hj [(-> & H1 & H2)|[-> H]].
      + simpl in Hj. rewrite !read2_Ok by lia. cbn [bind].
        destruct (differ (nth_error (nth i M []) j) (nth_error (nth j M []) i)) eqn:E.
        * exists (Some false). split; [reflexivity|]. right. split; [reflexivity|].
          exists i, j. split; [lia|]. unfold ok. rewrite E. discriminate.
        * exists None. split; [reflexivity|]. left. split; [reflexivity|].
          split; [exact H1|]. intros j' Hj'.
          destruct (Nat.eq_dec j' j) as [->|Hne]; [exact E | apply H2; lia].
      + exists (Some false). split; [reflexivity|]. right. split; auto.
    - exists f'. split; [exact Ef'|]. simpl in Hf'.
      destruct Hf' as [(-> & H1 & H2)|[-> H]]; [left | right; split; auto].
      split; [reflexivity|]. intros i' j Hij.
      destruct (Nat.eq_dec i' i) as [->|Hne]; [apply H2; lia | apply H1; lia]. }
  rewrite Ef. cbn [bind]. simpl in Hf.
  destruct Hf as [[-> H]|[-> (i & j & Hij & Hbad)]].
  - exists true. split; [reflexivity|]. split; [intros _; exact H | reflexivity].
  - exists false. split; [reflexivity|]. split; [discriminate|].
    intros H. exfalso. apply Hbad. apply H. exact Hij.
Qed.

Lemma differ_entries (r c : nat) (M : Matrix) (i j : nat) :
  shaped r c M -> (i < r)%nat -> (j < r)%nat -> (i < c)%nat -> (j < c)%nat ->
  (differ (nth_error (nth i M []) j) (nth_error (nth j M []) i) = false
   <-> entry M i j = entry M j i).
Proof.
  intros HM Hi Hj Hi' Hj'.
  rewrite (nth_error_nth' _ 0) by (rewrite (shaped_row r c M i HM Hi); lia).
  rewrite (nth_error_nth' _ 0) by (rewrite (shaped_row r c M j HM Hj); lia).
  rewrite !entry_nth. cbn [differ]. rewrite negb_false_iff. apply Qeq_bool_Qc.
Qed.

(** X11.  [isSymmetric] never throws.  On an [n x n] matrix it answers
    [true] exactly when [matrix[i][j] = matrix[j][i]] for all [i, j < n], which
    for [n >= 1] is exactly when [transposeMatrix] returns the matrix itself. *)
Theorem isSymmetric_square (n : nat) (M : Matrix) :
  shaped n n M ->
  exists b, isSymmetric M = Ok b /\
    (b = true <-> forall i j, (i < n)%nat -> (j < n)%nat -> entry M i j = entry M j i) /\
    ((0 < n)%nat -> (b = true <-> transposeMatrix M = Ok M)).
Proof.
  intros HM. destruct (isSymmetric_spec M) as (b & Eb & Hb).
  assert (Hl : length M = n) by (destruct HM; assumption).
  assert (Hsym : b = true <->
                 forall i j, (i < n)%nat -> (j < n)%nat -> entry M i j = entry M j i).
  { rewrite Hb. split.
    - intros H i j Hi Hj. destruct (Nat.lt_trichotomy i j) as [Hlt|[->|Hgt]].
      + symmetry. apply (differ_entries n n M j i HM); try lia. apply H. lia.
      + reflexivity.
      + apply (differ_entries n n M i j HM); try lia. apply H. lia.
    - intros H i j Hij. apply (differ_entries n n M i j HM); try lia. apply H; lia. }
  exists b. split; [exact Eb|]. split; [exact Hsym|].
  intros Hn. rewrite Hsym.
  destruct (transposeMatrix_entries n n M HM Hn) as (T & ET & HT & He).
  rewrite ET. split.
  - intros H. f_equal. apply (matrix_ext n n); [exact HT | exact HM|].
    intros i j Hi Hj. rewrite He by assumption. apply H; assumption.
  - intros E i j Hi Hj. injection E as <-. symmetry. apply He; assumption.
Qed.

Lemma isSymmetric_square_witness :
  exists b, isSymmetric (zmat [[4; 2; -2]; [2; 5; 4]; [-2; 4; 8]]%Z) = Ok b /\
    (b = true <-> forall i j, (i < 3)%nat -> (j < 3)%nat ->
       entry (zmat [[4; 2; -2]; [2; 5; 4]; [-2; 4; 8]]%Z) i j
       = entry (zmat [[4; 2; -2]; [2; 5; 4]; [-2; 4; 8]]%Z) j i) /\
    ((0 < 3)%nat ->
     (b = true <-> transposeMatrix (zmat [[4; 2; -2]; [2; 5; 4]; [-2; 4; 8]]%Z)
                   = Ok (zmat [[4; 2; -2]; [2; 5; 4]; [-2; 4; 8]]%Z))).
Proof.
  apply (isSymmetric_square 3).
  split; [reflexivity | repeat constructor].
Defined.

(** X12.  The product of a matrix with its transpose, as the Cholesky
    script forms it ([multiplyMatrices(L, transposeMatrix(L))]), is a square
    matrix that [isSymmetric] accepts. *)
Theorem multiplyMatrices_transpose_symmetric (r n : nat) (L : Matrix) :
  shaped r n L -> (0 < r)%nat -> (0 < n)%nat ->
  exists T P, transposeMatrix L = Ok T /\ multiplyMatrices L T = Product P /\
    shaped r r P /\ isSymmetric P = Ok true.
Proof.
  intros HL Hr Hn.
  destruct (transposeMatrix_entries r n L HL Hr) as (T & ET & HT & HTe).
  destruct (multiplyMatrices_product_aux r n r L T HL HT Hr Hn) as (P & EP & HP & HPe).
  exists T, P. split; [exact ET|]. split; [exact EP|]. split; [exact HP|].
  destruct (isSymmetric_spec P) as (b & Eb & Hb).
  assert (b = true); [|subst; exact Eb].
  apply Hb. intros i j Hij. assert (Hl : length P = r) by (destruct HP; assumption).
  apply (differ_entries r r P i j HP); try lia.
  rewrite !HPe by lia. apply sumTo_ext. intros k Hk.
  rewrite !HTe by lia. ring.
Qed.

Lemma multiplyMatrices_transpose_symmetric_witness :
  exists T P, transposeMatrix (zmat [[1; 2; 3]; [4; 5; 6]]%Z) = Ok T /\
    multiplyMatrices (zmat [[1; 2; 3]; [4; 5; 6]]%Z) T = Product P /\
    shaped 2 2 P /\ isSymmetric P = Ok true.
Proof.
  apply (multiplyMatrices_transpose_symmetric 2 3).
  - split; [reflexivity | repeat constructor].
  - lia.
  - lia.
Defined.

(** ** [identityMatrix], [multiply] and the elementary matrices *)

Lemma length_mapi {A B : Type} (f : nat -> A -> B) (k : nat) (l : list A) :
  length (mapi f k l) = length l.
Proof. revert k. induction l as [|x l IH]; intros k; simpl; [|rewrite IH]; reflexivity. Qed.

Lemma nth_mapi {A B : Type} (f : nat -> A -> B) (k : nat) (l : list A) (i : nat)
      (d : A) (d' : B) :
  (i < length l)%nat -> nth i (mapi f k l) d' = f (k + i)%nat (nth i l d).
Proof.
  revert k i. induction l as [|x l IH]; intros k [|i] H; simpl in *; try lia.
  - rewrite Nat.add_0_r. reflexivity.
  - rewrite (IH (S k) i) by lia. f_equal. lia.
Qed.

Lemma row_createMatrix (n i : nat) : (i < n)%nat -> nth i (createMatrix n) [] = repeat 0 n.
Proof.
  intros H. unfold createMatrix, zeroMatrix. rewrite nth_repeat_if.
  apply Nat.ltb_lt in H. rewrite H. reflexivity.
Qed.

Lemma shaped_identityMatrix (n : nat) : shaped n n (identityMatrix n).
Proof.
  assert (Hl : length (identityMatrix n) = n).
  { unfold identityMatrix. rewrite length_mapi. apply repeat_length. }
  split; [exact Hl|]. apply Forall_forall. intros row Hrow.
  destruct (In_nth _ _ [] Hrow) as (i & Hi & <-). rewrite Hl in Hi.
  unfold identityMatrix.
  rewrite (nth_mapi _ _ _ _ [] []) by (unfold createMatrix, zeroMatrix; rewrite repeat_length; exact Hi).
  rewrite length_mapi, row_createMatrix by exact Hi. apply repeat_length.
Qed.

Lemma entry_identityMatrix (n i j : nat) :
  (i < n)%nat -> entry (identityMatrix n) i j = if (i =? j)%nat then 1 else 0.
Proof.
  intros Hi. unfold entry, identityMatrix.
  rewrite (nth_mapi _ _ _ _ [] []) by (unfold createMatrix, zeroMatrix; rewrite repeat_length; exact Hi).
  rewrite row_createMatrix by exact Hi. cbn [Nat.add].
  destruct (Nat.lt_ge_cases j n) as [Hj|Hj].
  - rewrite (nth_mapi _ _ _ _ 0 0) by (rewrite repeat_length; exact Hj). reflexivity.
  - rewrite nth_overflow by (rewrite length_mapi, repeat_length; exact Hj).
    destruct (Nat.eqb_spec i j); [lia | reflexivity].
Qed.

Lemma multiply_entries (n : nat) (A B : Matrix) :
  shaped n n A -> shaped n n B ->
  exists P, multiply A B = Ok P /\ shaped n n P /\
    forall i j, (i < n)%nat -> (j < n)%nat ->
      entry P i j = sumTo n (fun k => entry A i k * entry B k j).
Proof.
  intros HA HB. unfold multiply. replace (length A) with n by (destruct HA; congruence).
  destruct (productLoops_entries n n n A B (createMatrix n) HA HB (shaped_zeroMatrix n n))
    as (P & EP & HP & He).
  exists P. split; [exact EP|]. split; [exact HP|].
  intros i j Hi Hj. rewrite (He i j Hi Hj). unfold createMatrix.
  rewrite entry_zeroMatrix. ring.
Qed.

Ltac nat_cases :=
  repeat match goal with
         | |- context [(?a =? ?b)%nat] => destruct (Nat.eqb_spec a b)
         end;
  subst; cbn [andb]; try lia; try ring.

(** X13.  The identity matrix is neutral for [multiply] on both sides:
    for an [n x n] matrix [A], [multiply(identityMatrix(n), A)] and
    [multiply(A, identityMatrix(n))] both return [A]. *)
Theorem multiply_identityMatrix (n : nat) (A : Matrix) :
  shaped n n A ->
  multiply (identityMatrix n) A = Ok A /\ multiply A (identityMatrix n) = Ok A.
Proof.
  intros HA. split.
  - destruct (multiply_entries n _ A (shaped_identityMatrix n) HA) as (P & EP & HP & He).
    rewrite EP. f_equal. apply (matrix_ext n n); [exact HP | exact HA|].
    intros i j Hi Hj. rewrite (He i j Hi Hj).
    rewrite (sumTo_single n i) by
      (try exact Hi; intros k Hk Hne; rewrite entry_identityMatrix by exact Hi; nat_cases).
    rewrite entry_identityMatrix by exact Hi. nat_cases.
  - destruct (multiply_entries n A _ HA (shaped_identityMatrix n)) as (P & EP & HP & He).
    rewrite EP. f_equal. apply (matrix_ext n n); [exact HP | exact HA|].
    intros i j Hi Hj. rewrite (He i j Hi Hj).
    rewrite (sumTo_single n j) by
      (try exact Hj; intros k Hk Hne; rewrite entry_identityMatrix by exact Hk; nat_cases).
    rewrite entry_identityMatrix by exact Hj. nat_cases.
Qed.

Lemma multiply_identityMatrix_witness :
  multiply (identityMatrix 3) (zmat [[4; 2; -2]; [2; 5; 4]; [-2; 4; 8]]%Z)
  = Ok (zmat [[4; 2; -2]; [2; 5; 4]; [-2; 4; 8]]%Z) /\
  multiply (zmat [[4; 2; -2]; [2; 5; 4]; [-2; 4; 8]]%Z) (identityMatrix 3)
  = Ok (zmat [[4; 2; -2]; [2; 5; 4]; [-2; 4; 8]]%Z).
Proof.
  apply (multiply_identityMatrix 3).
  split; [reflexivity | repeat constructor].
Defined.

(** X14.  Multiplying by [elementaryType1(n, row, scalar)] on the left
    scales row [row] of an [n x n] matrix by [scalar] and leaves the other
    rows as they are. *)
Theorem elementaryType1_scales_row (n row : nat) (scalar : number) (A : Matrix) :
  shaped n n A -> (row < n)%nat ->
  exists E P, elementaryType1 n row scalar = Ok E /\ multiply E A = Ok P /\
    shaped n n P /\
    forall i j, (i < n)%nat -> (j < n)%nat ->
      entry P i j = if (i =? row)%nat then scalar * entry A i j else entry A i j.
Proof.
  intros HA Hr. unfold elementaryType1.
  destruct (set2_Ok n n _ row row scalar (shaped_identityMatrix n) Hr Hr)
    as (E & EE & HE & HEe).
  destruct (multiply_entries n E A HE HA) as (P & EP & HP & He).
  exists E, P. split; [exact EE|]. split; [exact EP|]. split; [exact HP|].
  intros i j Hi Hj. rewrite (He i j Hi Hj).
  rewrite (sumTo_single n i) by
    (try exact Hi; intros k Hk Hne; rewrite HEe, entry_identityMatrix by exact Hi; nat_cases).
  rewrite HEe, entry_identityMatrix by exact Hi. nat_cases.
Qed.

Lemma elementaryType1_scales_row_witness :
  exists E P, elementaryType1 3 0 (qz 2) = Ok E /\
    multiply E (zmat [[4; 2; -2]; [2; 5; 4]; [-2; 4; 8]]%Z) = Ok P /\
    shaped 3 3 P /\
    forall i j, (i < 3)%nat -> (j < 3)%nat ->
      entry P i j = if (i =? 0)%nat
                    then qz 2 * entry (zmat [[4; 2; -2]; [2; 5; 4]; [-2; 4; 8]]%Z) i j
                    else entry (zmat [[4; 2; -2]; [2; 5; 4]; [-2; 4; 8]]%Z) i j.
Proof.
  apply (elementaryType1_scales_row 3 0).
  - split; [reflexivity | repeat constructor].
  - lia.
Defined.

(** X15.  Multiplying by [elementaryType2(n, targetRow, sourceRow,
    multiplier)] on the left, with two different rows, adds [multiplier] times
    row [sourceRow] to row [targetRow] of an [n x n] matrix and leaves the
    other rows as they are. *)
Theorem elementaryType2_adds_row (n targetRow sourceRow : nat) (multiplier : number)
        (A : Matrix) :
  shaped n n A -> (targetRow < n)%nat -> (sourceRow < n)%nat -> targetRow <> sourceRow ->
  exists E P, elementaryType2 n targetRow sourceRow multiplier = Ok E /\
    multiply E A = Ok P /\ shaped n n P /\
    forall i j, (i < n)%nat -> (j < n)%nat ->
      entry P i j = if (i =? targetRow)%nat
                    then entry A targetRow j + multiplier * entry A sourceRow j
                    else entry A i j.
Proof.
  intros HA Ht Hs Hne. unfold elementaryType2.
  destruct (set2_Ok n n _ targetRow sourceRow multiplier (shaped_identityMatrix n) Ht Hs)
    as (E & EE & HE & HEe).
  destruct (multiply_entries n E A HE HA) as (P & EP & HP & He).
  exists E, P. split; [exact EE|]. split; [exact EP|]. split; [exact HP|].
  intros i j Hi Hj. rewrite (He i j Hi Hj).
  destruct (Nat.eqb_spec i targetRow) as [->|Hi'].
  - rewrite (sumTo_two n targetRow sourceRow) by
      (try assumption; intros k Hk H1 H2; rewrite HEe, entry_identityMatrix by exact Ht;
       nat_cases).
    rewrite !HEe, !entry_identityMatrix by exact Ht. nat_cases.
  - rewrite (sumTo_single n i) by
      (try exact Hi; intros k Hk H1; rewrite HEe, entry_identityMatrix by exact Hi; nat_cases).
    rewrite HEe, entry_identityMatrix by exact Hi. nat_cases.
Qed.

Lemma elementaryType2_adds_row_witness :
  exists E P, elementaryType2 3 1 0 (qz (-2)) = Ok E /\
    multiply E (zmat [[4; 2; -2]; [2; 5; 4]; [-2; 4; 8]]%Z) = Ok P /\
    shaped 3 3 P /\
    forall i j, (i < 3)%nat -> (j < 3)%nat ->
      entry P i j = if (i =? 1)%nat
                    then entry (zmat [[4; 2; -2]; [2; 5; 4]; [-2; 4; 8]]%Z) 1 j +
                         qz (-2) * entry (zmat [[4; 2; -2]; [2; 5; 4]; [-2; 4; 8]]%Z) 0 j
                    else entry (zmat [[4; 2; -2]; [2; 5; 4]; [-2; 4; 8]]%Z) i j.
Proof.
  apply (elementaryType2_adds_row 3 1 0).
  - split; [reflexivity | repeat constructor].
  - lia.
  - lia.
  - discriminate.
Defined.

Lemma elementaryType3_entries (n row1 row2 : nat) :
  (row1 < n)%nat -> (row2 < n)%nat ->
  exists E, elementaryType3 n row1 row2 = Ok E /\ shaped n n E /\
    forall i k, (i < n)%nat ->
      entry E i k =
        if ((if (i =? row1) then row2 else if (i =? row2) then row1 else i) =? k)%nat
        then 1 else 0.
Proof.
  intros H1 H2. pose proof (shaped_identityMatrix n) as HI.
  assert (Hl : length (identityMatrix n) = n) by (destruct HI; assumption).
  unfold elementaryType3.
  rewrite (nth_error_nth' _ [] (n := row1)), (nth_error_nth' _ [] (n := row2)) by lia.
  eexists. split; [reflexivity|]. split.
  - split; [rewrite !length_update; exact Hl|].
    apply rectangular_update; [apply rectangular_update|].
    + destruct HI; assumption.
    + apply (shaped_row n n _ row2 HI H2).
    + apply (shaped_row n n _ row1 HI H1).
  - intros i k Hi. unfold entry.
    rewrite nth_update by (rewrite length_update; lia).
    rewrite nth_update by lia.
    destruct (Nat.eqb_spec i row2) as [->|Hn2].
    + rewrite entry_nth, entry_identityMatrix by exact H1.
      destruct (Nat.eqb_spec row2 row1) as [->|Hn]; reflexivity.
    + destruct (Nat.eqb_spec i row1) as [->|Hn1];
        rewrite entry_nth, entry_identityMatrix by lia; reflexivity.
Qed.

(** X16.  Multiplying by [elementaryType3(n, row1, row2)] on the left
    exchanges rows [row1] and [row2] of an [n x n] matrix and leaves the other
    rows as they are. *)
Theorem elementaryType3_swaps_rows (n row1 row2 : nat) (A : Matrix) :
  shaped n n A -> (row1 < n)%nat -> (row2 < n)%nat ->
  exists E P, elementaryType3 n row1 row2 = Ok E /\ multiply E A = Ok P /\
    shaped n n P /\
    forall i j, (i < n)%nat -> (j < n)%nat ->
      entry P i j =
        entry A (if (i =? row1)%nat then row2 else if (i =? row2)%nat then row1 else i) j.
Proof.
  intros HA H1 H2.
  destruct (elementaryType3_entries n row1 row2 H1 H2) as (E & EE & HE & HEe).
  destruct (multiply_entries n E A HE HA) as (P & EP & HP & He).
  exists E, P. split; [exact EE|]. split; [exact EP|]. split; [exact HP|].
  intros i j Hi Hj. rewrite (He i j Hi Hj).
  set (s := if (i =? row1)%nat then row2 else if (i =? row2)%nat then row1 else i).
  assert (Hs : (s < n)%nat) by (unfold s; nat_cases).
  rewrite (sumTo_single n s) by
    (first [ exact Hs
           | intros k Hk Hne; rewrite HEe by exact Hi; fold s;
             destruct (Nat.eqb_spec s k); [congruence | ring] ]).
  rewrite HEe by exact Hi. fold s. rewrite Nat.eqb_refl. ring.
Qed.

Lemma elementaryType3_swaps_rows_witness :
  exists E P, elementaryType3 3 0 2 = Ok E /\
    multiply E (zmat [[4; 2; -2]; [2; 5; 4]; [-2; 4; 8]]%Z) = Ok P /\
    shaped 3 3 P /\
    forall i j, (i < 3)%nat -> (j < 3)%nat ->
      entry P i j =
        entry (zmat [[4; 2; -2]; [2; 5; 4]; [-2; 4; 8]]%Z)
              (if (i =? 0)%nat then 2%nat else if (i =? 2)%nat then 0%nat else i) j.
Proof.
  apply (elementaryType3_swaps_rows 3 0 2).
  - split; [reflexivity | repeat constructor].
  - lia.
  - lia.
Defined.

(** ** [calculateDeterminant] *)

Lemma read_Ok (r c : nat) (M : Matrix) (i j : nat) :
  shaped r c M -> (i < r)%nat -> (j < c)%nat -> read M i j = Ok (entry M i j).
Proof.
  intros HM Hi Hj. unfold read. rewrite row_at_Ok by (destruct HM; lia). cbn [bind].
  rewrite (nth_error_nth' _ 0) by (rewrite (shaped_row r c M i HM Hi); exact Hj).
  reflexivity.
Qed.

Lemma filteri_all {A : Type} (p : nat -> bool) (k : nat) (l : list A) :
  (forall j, (k <= j)%nat -> p j = true) -> filteri p k l = l.
Proof.
  revert k. induction l as [|x l IH]; intros k H; simpl; [reflexivity|].
  rewrite H by lia. rewrite IH by (intros j Hj; apply H; lia). reflexivity.
Qed.

Lemma nth_filteri (i : nat) (row : Vector) :
  forall k c, (k <= i)%nat ->
    nth c (filteri (fun j => negb (j =? i)%nat) k row) 0
    = nth (if (c <? i - k)%nat then c else S c) row 0.
Proof.
  induction row as [|x row IH]; intros k c Hk.
  - simpl. destruct (c <? i - k)%nat; destruct c; reflexivity.
  - cbn [filteri]. destruct (Nat.eqb_spec k i) as [->|Hne]; cbn [negb].
    + rewrite filteri_all.
      * rewrite Nat.sub_diag. reflexivity.
      * intros j Hj. destruct (Nat.eqb_spec j i); [lia | reflexivity].
    + destruct c as [|c].
      * destruct (Nat.ltb_spec 0 (i - k)); [reflexivity | lia].
      * cbn [nth]. rewrite IH by lia.
        destruct (Nat.ltb_spec c (i - S k)), (Nat.ltb_spec (S c) (i - k));
          try lia; reflexivity.
Qed.

Lemma length_filteri {A : Type} (i : nat) (row : list A) :
  forall k, (k <= i < k + length row)%nat ->
    length (filteri (fun j => negb (j =? i)%nat) k row) = pred (length row).
Proof.
  induction row as [|x row IH]; intros k Hk; simpl in *; [lia|].
  destruct (Nat.eqb_spec k i) as [->|Hne]; cbn [negb].
  - rewrite filteri_all; [reflexivity|].
    intros j Hj. destruct (Nat.eqb_spec j i); [lia | reflexivity].
  - simpl. rewrite IH by lia. destruct row; simpl in *; lia.
Qed.

Lemma entry_subMatrix (M : Matrix) (i r c : nat) :
  entry (subMatrix M i) r c = entry M (S r) (if (c <? i)%nat then c else S c).
Proof.
  unfold entry, subMatrix.
  change (@nil number) with (filteri (fun j => negb (j =? i)%nat) 0 (@nil number)) at 1.
  rewrite map_nth. rewrite nth_filteri by lia. rewrite Nat.sub_0_r.
  destruct M as [|row0 M]; [destruct r; reflexivity | reflexivity].
Qed.

Lemma shaped_subMatrix (r c : nat) (M : Matrix) (i : nat) :
  shaped (S r) (S c) M -> (i < S c)%nat -> shaped r c (subMatrix M i).
Proof.
  intros [Hl HM] Hi. destruct M as [|row0 M]; [discriminate|].
  unfold subMatrix. cbn [skipn]. split.
  - rewrite length_map. simpl in Hl. lia.
  - apply Forall_forall. intros row Hrow. apply in_map_iff in Hrow as (row' & <- & Hin).
    apply Forall_inv_tail in HM. unfold rectangular in HM. rewrite Forall_forall in HM.
    rewrite length_filteri by (rewrite (HM row' Hin); lia). rewrite (HM row' Hin).
    reflexivity.
Qed.

(** On a square matrix [calculateDeterminant] returns the expansion along the
    first row; any fuel from the number of rows on gives the same result. *)
Lemma determinant_expansion :
  forall (fuel n : nat) (M : Matrix),
    shaped n n M -> (n <= fuel)%nat -> determinant fuel M = Ok (expansion n M).
Proof.
  induction fuel as [|fuel IH]; intros n M HM Hn.
  - assert (n = 0)%nat by lia. subst n. destruct HM as [Hl _].
    cbn [determinant]. rewrite Hl. reflexivity.
  - pose proof HM as [Hl _].
    destruct n as [|[|[|n]]].
    + cbn [determinant]. rewrite Hl. reflexivity.
    + cbn [determinant]. rewrite Hl. cbn [Nat.eqb].
      rewrite (read_Ok 1 1) by (try exact HM; lia). reflexivity.
    + cbn [determinant]. rewrite Hl. cbn [Nat.eqb].
      rewrite !(read_Ok 2 2) by (try exact HM; lia). cbn [bind]. f_equal.
      cbn [expansion Nat.eqb sumTo]. rewrite !entry_subMatrix. cbn [Nat.ltb Nat.leb].
      unfold sign. cbn [Nat.even]. ring.
    + cbn [determinant]. rewrite Hl. cbn [Nat.eqb].
      destruct (for_up_inv
                  (fun i det =>
                     a <- read M 0 i ;;
                     d <- determinant fuel (subMatrix M i) ;;
                     Ok (det + a * d * sign i))
                  (fun i det =>
                     det = sumTo i (fun i => entry M 0 i *
                                             expansion (S (S n)) (subMatrix M i) * sign i))
                  (S (S (S n))) 0 0) as (d & Ed & Hd).
      * reflexivity.
      * intros i det Hi ->. rewrite (read_Ok _ _ M 0 i HM) by lia. cbn [bind].
        rewrite (IH (S (S n)) (subMatrix M i)) by
          (first [lia | apply shaped_subMatrix; [exact HM | lia]]).
        cbn [bind]. eexists. split; reflexivity.
      * rewrite Ed, Hd. reflexivity.
Qed.

Lemma calculateDeterminant_expansion (n : nat) (M : Matrix) :
  shaped n n M -> calculateDeterminant M = Ok (expansion n M).
Proof.
  intros HM. unfold calculateDeterminant. apply determinant_expansion; [exact HM|].
  destruct HM; lia.
Qed.

Lemma prodTo_shift (n : nat) (f : nat -> number) :
  prodTo (S n) f = f 0%nat * prodTo n (fun i => f (S i)).
Proof.
  induction n as [|n IH]; [simpl; ring|].
  change (prodTo (S (S n)) f) with (prodTo (S n) f * f (S n)). rewrite IH.
  cbn [prodTo]. ring.
Qed.

Lemma prodTo_ext (n : nat) (f g : nat -> number) :
  (forall k, (k < n)%nat -> f k = g k) -> prodTo n f = prodTo n g.
Proof.
  induction n as [|n IH]; intros H; simpl; [reflexivity|].
  rewrite IH by (intros k Hk; apply H; lia). rewrite (H n) by lia. reflexivity.
Qed.

Lemma expansion_zero_column (n : nat) :
  forall M, (forall i, (i < n)%nat -> entry M i 0 = 0) -> expansion n M = 0.
Proof.
  induction n as [|n IH]; intros M H; [reflexivity|].
  cbn [expansion]. destruct (Nat.eqb_spec n 0) as [->|Hn]; [apply H; lia|].
  apply sumTo_zero. intros k Hk. destruct k as [|k].
  - rewrite H by lia. ring.
  - rewrite IH; [ring|]. intros i Hi. rewrite entry_subMatrix. cbn [Nat.ltb Nat.leb].
    apply H. lia.
Qed.

Lemma expansion_first_term (n : nat) (M : Matrix) :
  (forall k, (0 < k < S n)%nat ->
     entry M 0 k = 0 \/ forall i, (i < n)%nat -> entry M (S i) 0 = 0) ->
  ((0 < n)%nat ->
   forall N, (forall i j, (i < n)%nat -> (j < n)%nat -> entry N i j = entry M (S i) (S j)) ->
             expansion n N = prodTo n (fun i => entry M (S i) (S i))) ->
  expansion (S n) M = prodTo (S n) (fun i => entry M i i).
Proof.
  intros Hrest Hsub. rewrite prodTo_shift. cbn [expansion].
  destruct (Nat.eqb_spec n 0) as [->|Hn]; [simpl; ring|].
  rewrite (sumTo_single (S n) 0).
  - rewrite (Hsub ltac:(lia) (subMatrix M 0)); [unfold sign; simpl; ring|].
    intros i j _ _. rewrite entry_subMatrix. reflexivity.
  - lia.
  - intros k Hk Hk0. destruct (Hrest k ltac:(lia)) as [H|H].
    + rewrite H. ring.
    + rewrite expansion_zero_column; [ring|].
      intros i Hi. rewrite entry_subMatrix.
      destruct (Nat.ltb_spec 0 k); [apply H; exact Hi | lia].
Qed.

Lemma expansion_triangular (n : nat) :
  forall M,
    (forall i j, (i < j < n)%nat -> entry M i j = 0) \/
    (forall i j, (j < i < n)%nat -> entry M i j = 0) ->
    (0 < n)%nat ->
    expansion n M = prodTo n (fun i => entry M i i).
Proof.
  induction n as [|n IH]; intros M H Hn; [lia|].
  apply expansion_first_term.
  - intros k Hk. destruct H as [H|H]; [left | right].
    + apply H. lia.
    + intros i Hi. apply H. lia.
  - intros Hn0 N HN. rewrite IH.
    + apply prodTo_ext. intros k Hk. apply HN; exact Hk.
    + destruct H as [H|H]; [left | right]; intros i j Hij;
        rewrite HN by lia; apply H; lia.
    + lia.
Qed.

(** X17.  On a triangular [n x n] matrix with [n >= 1] (all entries above
    the diagonal zero, or all entries below it), [calculateDeterminant]
    returns the product of the diagonal entries. *)
Theorem calculateDeterminant_triangular (n : nat) (M : Matrix) :
  shaped n n M -> (0 < n)%nat ->
  (forall i j, (i < j < n)%nat -> entry M i j = 0) \/
  (forall i j, (j < i < n)%nat -> entry M i j = 0) ->
  calculateDeterminant M = Ok (prodTo n (fun i => entry M i i)).
Proof.
  intros HM Hn H. rewrite (calculateDeterminant_expansion n M HM).
  f_equal. apply expansion_triangular; assumption.
Qed.

Lemma calculateDeterminant_triangular_witness :
  calculateDeterminant (zmat [[2; 0; 0]; [1; 3; 0]; [4; 5; 6]]%Z)
  = Ok (prodTo 3 (fun i => entry (zmat [[2; 0; 0]; [1; 3; 0]; [4; 5; 6]]%Z) i i)).
Proof.
  apply (calculateDeterminant_triangular 3).
  - split; [reflexivity | repeat constructor].
  - lia.
  - left. intros i j H.
    destruct i as [|[|[|i]]]; destruct j as [|[|[|j]]]; try lia; reflexivity.
Defined.

Lemma prodTo_ones (n : nat) (f : nat -> number) :
  (forall k, (k < n)%nat -> f k = 1) -> prodTo n f = 1.
Proof.
  induction n as [|n IH]; intros H; simpl; [reflexivity|].
  rewrite IH by (intros k Hk; apply H; lia). rewrite (H n) by lia. ring.
Qed.

Lemma prodTo_single (n q : nat) (f : nat -> number) :
  (q < n)%nat -> (forall k, (k < n)%nat -> k <> q -> f k = 1) -> prodTo n f = f q.
Proof.
  induction n as [|n IH]; intros Hq H; [lia|]. simpl.
  destruct (Nat.eq_dec q n) as [->|Hne].
  - rewrite prodTo_ones by (intros k Hk; apply H; lia). ring.
  - rewrite IH by (try lia; intros k Hk Hk'; apply H; lia).
    rewrite (H n) by lia. ring.
Qed.

(** X18.  The determinants of the elementary matrices, as
    [calculateDeterminant] computes them: [elementaryType1(n, row, scalar)]
    has determinant [scalar], and [elementaryType2(n, row, sourceRow,
    multiplier)] with two different rows has determinant 1. *)
Theorem elementary_determinants (n row sourceRow : nat) (scalar multiplier : number) :
  (row < n)%nat -> (sourceRow < n)%nat -> row <> sourceRow ->
  exists E1 E2,
    elementaryType1 n row scalar = Ok E1 /\ calculateDeterminant E1 = Ok scalar /\
    elementaryType2 n row sourceRow multiplier = Ok E2 /\ calculateDeterminant E2 = Ok 1.
Proof.
  intros Hr Hs Hne. unfold elementaryType1, elementaryType2.
  destruct (set2_Ok n n _ row row scalar (shaped_identityMatrix n) Hr Hr)
    as (E1 & EE1 & HE1 & He1).
  destruct (set2_Ok n n _ row sourceRow multiplier (shaped_identityMatrix n) Hr Hs)
    as (E2 & EE2 & HE2 & He2).
  exists E1, E2. split; [exact EE1|]. split; [|split; [exact EE2|]].
  - rewrite (calculateDeterminant_expansion n E1 HE1). f_equal.
    rewrite expansion_triangular.
    + rewrite (prodTo_single n row) by
        (first [ exact Hr
               | intros k Hk Hk'; rewrite He1, entry_identityMatrix by exact Hk; nat_cases ]).
      rewrite He1. rewrite !Nat.eqb_refl. reflexivity.
    + left. intros i j Hij. rewrite He1, entry_identityMatrix by lia. nat_cases.
    + lia.
  - rewrite (calculateDeterminant_expansion n E2 HE2). f_equal.
    rewrite expansion_triangular.
    + apply prodTo_ones. intros k Hk. rewrite He2, entry_identityMatrix by exact Hk.
      nat_cases.
    + destruct (Nat.lt_ge_cases row sourceRow) as [Hlt|Hge]; [right | left];
        intros i j Hij; rewrite He2, entry_identityMatrix by lia; nat_cases.
    + lia.
Qed.

Lemma elementary_determinants_witness :
  exists E1 E2,
    elementaryType1 3 1 (qz 5) = Ok E1 /\ calculateDeterminant E1 = Ok (qz 5) /\
    elementaryType2 3 1 0 (qz (-2)) = Ok E2 /\ calculateDeterminant E2 = Ok 1.
Proof.
  apply (elementary_determinants 3 1 0); [lia | lia | discriminate].
Defined.

(** ** [isPositiveDefinite] *)

Lemma shaped_leading (n i : nat) (M : Matrix) :
  shaped n n M -> (i <= n)%nat -> shaped i i (map (firstn i) (firstn i M)).
Proof.
  intros [Hl HM] Hi. split.
  - rewrite length_map, length_firstn. lia.
  - apply Forall_forall. intros row Hrow. apply in_map_iff in Hrow as (row' & <- & Hin).
    apply (In_nth _ _ []) in Hin as (k & Hk & <-).
    rewrite length_firstn in Hk. rewrite nth_firstn.
    destruct (Nat.ltb_spec k i); [|lia].
    rewrite length_firstn, (shaped_row n n M k (conj Hl HM)) by lia. lia.
Qed.

Lemma entry_leading (i : nat) (M : Matrix) (a b : nat) :
  (a < i)%nat -> (b < i)%nat -> entry (map (firstn i) (firstn i M)) a b = entry M a b.
Proof.
  intros Ha Hb. unfold entry.
  replace (nth a (map (firstn i) (firstn i M)) [])
    with (nth a (map (firstn i) (firstn i M)) (firstn i []))
    by (rewrite firstn_nil; reflexivity).
  rewrite map_nth, !nth_firstn.
  apply Nat.ltb_lt in Ha, Hb. rewrite Ha, Hb. reflexivity.
Qed.

Lemma notPositive_false (d : number) : notPositive d = false <-> 0 < d.
Proof.
  unfold notPositive. split.
  - intros H. apply (proj2 (Qcgt_alt d 0)). destruct (d ?= 0); congruence.
  - intros H. apply (proj1 (Qcgt_alt d 0)) in H. rewrite H. reflexivity.
Qed.

Lemma Qc_pos_mult (a b : number) : 0 < a -> 0 < b -> 0 < a * b.
Proof.
  intros Ha Hb. rewrite <- (Qcmult_0_l b). apply Qcmult_lt_compat_r; assumption.
Qed.

Lemma Qc_pos_mult_reg (a b : number) : 0 < a -> 0 < a * b -> 0 < b.
Proof.
  intros Ha Hab. apply Qcnot_le_lt. intros Hb.
  apply (Qcle_not_lt (a * b) 0); [|exact Hab].
  rewrite <- (Qcmult_0_l a), (Qcmult_comm a b).
  apply Qcmult_le_compat_r; [exact Hb | apply Qclt_le_weak; exact Ha].
Qed.

Lemma prodTo_positive (n : nat) (d : nat -> number) :
  (forall k, (1 <= k < 1 + n)%nat -> 0 < prodTo k d) <->
  (forall i, (i < n)%nat -> 0 < d i).
Proof.
  split.
  - intros H i Hi. apply (Qc_pos_mult_reg (prodTo i d)).
    + destruct i as [|i]; [reflexivity | apply H; lia].
    + apply (H (S i)). lia.
  - intros H k Hk. assert (Hk' : (k <= n)%nat) by lia. clear Hk.
    induction k as [|k IH]; [reflexivity|].
    simpl. apply Qc_pos_mult; [apply IH; lia | apply H; lia].
Qed.

(** X19.  On a diagonal [n x n] matrix [isPositiveDefinite] returns [true]
    exactly when every diagonal entry is positive (and it returns [true] on
    the empty matrix). *)
Theorem isPositiveDefinite_diagonal (n : nat) (M : Matrix) :
  shaped n n M ->
  (forall i j, (i < n)%nat -> (j < n)%nat -> i <> j -> entry M i j = 0) ->
  exists b, isPositiveDefinite M = Ok b /\
    (b = true <-> forall i, (i < n)%nat -> 0 < entry M i i).
Proof.
  intros HM Hdiag. pose proof HM as [Hl _]. unfold isPositiveDefinite.
  destruct (isSymmetric_spec M) as (sym & Esym & Hsym).
  assert (sym = true) as ->.
  { apply Hsym. intros i j Hij. apply (differ_entries n n M i j HM); try lia.
    rewrite !Hdiag by lia. reflexivity. }
  rewrite Esym. cbn [bind negb]. rewrite Hl.
  set (d := fun i => entry M i i).
  assert (Hdet : forall i, (1 <= i <= n)%nat ->
                   calculateDeterminant (map (firstn i) (firstn i M)) = Ok (prodTo i d)).
  { intros i Hi.
    rewrite (calculateDeterminant_expansion i _ (shaped_leading n i M HM ltac:(lia))).
    f_equal. rewrite expansion_triangular.
    - apply prodTo_ext. intros k Hk. apply entry_leading; exact Hk.
    - left. intros a b Hab. rewrite entry_leading by lia. apply Hdiag; lia.
    - lia. }
  destruct (for_up_inv
              (fun i (found : option bool) =>
                 match found with
                 | Some b => Ok (Some b)
                 | None =>
                     match calculateDeterminant (map (firstn i) (firstn i M)) with
                     | Ok determinant =>
                         Ok (if notPositive determinant then Some false else None)
                     | Err UndefinedValue => Ok None
                     | Err e => Err e
                     end
                 end)
              (fun i found =>
                 (found = None /\ forall k, (1 <= k < i)%nat -> 0 < prodTo k d) \/
                 (found = Some false /\ exists k, (1 <= k < 1 + n)%nat /\ ~ 0 < prodTo k d))
              n 1 None) as (f & Ef & Hf).
  { left. split; [reflexivity | intros; lia]. }
  { intros i found Hi [[-> H]|[-> H]].
    - rewrite Hdet by lia. destruct (notPositive (prodTo i d)) eqn:E.
      + exists (Some false). split; [reflexivity|]. right. split; [reflexivity|].
        exists i. split; [lia|]. intros Hpos. apply notPositive_false in Hpos. congruence.
      + exists None. split; [reflexivity|]. left. split; [reflexivity|].
        intros k Hk. destruct (Nat.eq_dec k i) as [->|Hne].
        * apply notPositive_false. exact E.
        * apply H. lia.
    - exists (Some false). split; [reflexivity|]. right. split; [reflexivity | exact H]. }
  rewrite Ef. cbn [bind]. pose proof (prodTo_positive n d) as Hpos.
  destruct Hf as [[-> H]|[-> (k & Hk & Hbad)]].
  - exists true. split; [reflexivity|].
    split; [intros _; apply (proj1 Hpos); exact H | reflexivity].
  - exists false. split; [reflexivity|]. split; [discriminate|].
    intros H. exfalso. apply Hbad. apply (proj2 Hpos H). exact Hk.
Qed.

Lemma isPositiveDefinite_diagonal_witness :
  exists b, isPositiveDefinite (zmat [[2; 0; 0]; [0; 3; 0]; [0; 0; 5]]%Z) = Ok b /\
    (b = true <->
     forall i, (i < 3)%nat -> 0 < entry (zmat [[2; 0; 0]; [0; 3; 0]; [0; 0; 5]]%Z) i i).
Proof.
  apply (isPositiveDefinite_diagonal 3).
  - split; [reflexivity | repeat constructor].
  - intros i j Hi Hj Hne.
    destruct i as [|[|[|i]]]; destruct j as [|[|[|j]]]; try lia; reflexivity.
Defined.

(** ** [decomposeLU] *)

Lemma for_up_inv_or {St : Type} (body : nat -> St -> result St) (P : nat -> St -> Prop)
      (e : error) :
  forall (n lo : nat) (s : St),
  P lo s ->
  (forall i s, (lo <= i < lo + n)%nat -> P i s ->
     (exists s', body i s = Ok s' /\ P (S i) s') \/ body i s = Err e) ->
  (exists s', for_up body lo n s = Ok s' /\ P (lo + n)%nat s') \/
  for_up body lo n s = Err e.
Proof.
  induction n as [|n IH]; intros lo s H0 Hstep.
  - left. exists s. rewrite Nat.add_0_r. split; [reflexivity | exact H0].
  - cbn [for_up]. destruct (Hstep lo s ltac:(lia) H0) as [(s1 & E1 & H1)|E1].
    + rewrite E1. cbn [bind].
      destruct (IH (S lo) s1 H1) as [(s2 & E2 & H2)|E2].
      * intros i s' Hi. apply Hstep. lia.
      * left. exists s2. split; [exact E2|].
        replace (lo + S n)%nat with (S lo + n)%nat by lia. exact H2.
      * right. exact E2.
    + right. rewrite E1. reflexivity.
Qed.

Lemma for_up_inv_because {St : Type} (body : nat -> St -> result St)
      (P : nat -> St -> Prop) (e : error) (Q : Prop) :
  forall (n lo : nat) (s : St),
  P lo s ->
  (forall i s, (lo <= i < lo + n)%nat -> P i s ->
     (exists s', body i s = Ok s' /\ P (S i) s') \/ (body i s = Err e /\ Q)) ->
  (exists s', for_up body lo n s = Ok s' /\ P (lo + n)%nat s') \/
  (for_up body lo n s = Err e /\ Q).
Proof.
  induction n as [|n IH]; intros lo s H0 Hstep.
  - left. exists s. rewrite Nat.add_0_r. split; [reflexivity | exact H0].
  - cbn [for_up]. destruct (Hstep lo s ltac:(lia) H0) as [(s1 & E1 & H1)|[E1 HQ]].
    + rewrite E1. cbn [bind].
      destruct (IH (S lo) s1 H1) as [(s2 & E2 & H2)|E2].
      * intros i s' Hi. apply Hstep. lia.
      * left. exists s2. split; [exact E2|].
        replace (lo + S n)%nat with (S lo + n)%nat by lia. exact H2.
      * right. exact E2.
    + right. rewrite E1. split; [reflexivity | exact HQ].
Qed.

Lemma sumTo_truncate (n m : nat) (f : nat -> number) :
  (m <= n)%nat -> (forall j, (m <= j < n)%nat -> f j = 0) -> sumTo n f = sumTo m f.
Proof.
  induction n as [|n IH]; intros Hm H.
  - assert (m = 0)%nat by lia. subst. reflexivity.
  - destruct (Nat.eq_dec m (S n)) as [->|Hne]; [reflexivity|].
    cbn [sumTo]. rewrite IH by (try lia; intros j Hj; apply H; lia).
    rewrite (H n) by lia. ring.
Qed.

Lemma partialSum_Ok (n : nat) (L U : Matrix) (i k m : nat) :
  shaped n n L -> shaped n n U -> (i < n)%nat -> (k < n)%nat -> (m <= n)%nat ->
  partialSum L U i k m = Ok (sumTo m (fun j => entry L i j * entry U j k)).
Proof.
  intros HL HU Hi Hk Hm. unfold partialSum.
  match goal with
  | |- for_up ?b _ _ _ = _ =>
      destruct (for_up_inv b
                  (fun j sum => sum = sumTo j (fun j => entry L i j * entry U j k))
                  m 0 0) as (s & Es & Hs)
  end.
  - reflexivity.
  - intros j sum Hj ->. rewrite (read_Ok n n L i j HL), (read_Ok n n U j k HU) by lia.
    cbn [bind]. eexists. split; reflexivity.
  - rewrite Es, Hs. reflexivity.
Qed.

Lemma upperColumn_Ok (n : nat) (A L U : Matrix) (k : nat) :
  shaped n n A -> shaped n n L -> shaped n n U -> (k < n)%nat ->
  exists U', upperColumn A L k U = Ok U' /\ shaped n n U' /\
    (forall r c, c <> k \/ (k < r)%nat -> entry U' r c = entry U r c) /\
    (forall r, (r <= k)%nat ->
       entry U' r k = entry A r k - sumTo r (fun j => entry L r j * entry U' j k)).
Proof.
  intros HA HL HU Hk. unfold upperColumn.
  match goal with
  | |- exists U', for_up ?b _ _ _ = _ /\ _ =>
      destruct (for_up_inv b
                  (fun i U' =>
                     shaped n n U' /\
                     (forall r c, c <> k \/ (i <= r)%nat -> entry U' r c = entry U r c) /\
                     (forall r, (r < i)%nat ->
                        entry U' r k
                        = entry A r k - sumTo r (fun j => entry L r j * entry U' j k)))
                  (S k) 0 U) as (U' & EU & HU' & Hsame & Hcol)
  end.
  - split; [exact HU|]. split; [reflexivity | intros; lia].
  - intros i U1 Hi (HU1 & Hsame & Hcol).
    rewrite (partialSum_Ok n L U1 i k i HL HU1) by lia. cbn [bind].
    rewrite (read_Ok n n A i k HA) by lia. cbn [bind].
    destruct (set2_Ok n n U1 i k
                (entry A i k - sumTo i (fun j => entry L i j * entry U1 j k)) HU1)
      as (U2 & EU2 & HU2 & He); try lia.
    exists U2. split; [exact EU2|]. split; [exact HU2|]. split.
    + intros r c Hrc. rewrite He.
      destruct (Nat.eqb_spec r i) as [->|Hr]; destruct (Nat.eqb_spec c k) as [->|Hc];
        cbn [andb]; try (apply Hsame; lia). lia.
    + intros r Hr. rewrite He.
      assert (Hext : forall m, (m <= i)%nat ->
                sumTo m (fun j => entry L r j * entry U2 j k)
                = sumTo m (fun j => entry L r j * entry U1 j k)).
      { intros m Hm. apply sumTo_ext. intros j Hj. rewrite He.
        destruct (Nat.eqb_spec j i); [lia | reflexivity]. }
      rewrite Hext by lia. rewrite Nat.eqb_refl.
      destruct (Nat.eqb_spec r i) as [->|Hne]; cbn [andb]; [reflexivity|].
      apply Hcol. lia.
  - exists U'. split; [exact EU|]. split; [exact HU'|]. split.
    + intros r c Hrc. apply Hsame. simpl. lia.
    + intros r Hr. apply Hcol. simpl. lia.
Qed.

Lemma lowerColumn_outcome (n : nat) (A L U : Matrix) (k : nat) :
  shaped n n A -> shaped n n L -> shaped n n U -> (k < n)%nat ->
  (exists L', lowerColumn A U n k L = Ok L' /\ shaped n n L' /\
     (forall r c, c <> k \/ (r <= k)%nat -> entry L' r c = entry L r c) /\
     (forall r, (k < r < n)%nat ->
        entry L' r k * entry U k k
        = entry A r k - sumTo k (fun j => entry L r j * entry U j k))) \/
  (lowerColumn A U n k L = Err DivisionByZero /\ ((S k < n)%nat /\ entry U k k = 0)).
Proof.
  intros HA HL HU Hk. unfold lowerColumn.
  match goal with
  | |- (exists L', for_up ?b _ _ _ = _ /\ _) \/ _ =>
      destruct (for_up_inv_because b
                  (fun i L' =>
                     shaped n n L' /\
                     (forall r c, c <> k \/ (r <= k)%nat \/ (i <= r)%nat ->
                                  entry L' r c = entry L r c) /\
                     (forall r, (k < r < i)%nat ->
                        entry L' r k * entry U k k
                        = entry A r k - sumTo k (fun j => entry L r j * entry U j k)))
                  DivisionByZero ((S k < n)%nat /\ entry U k k = 0) (n - S k) (S k) L)
        as [(L' & EL & HL' & Hsame & Hcol)|E]
  end.
  - split; [exact HL|]. split; [reflexivity | intros; lia].
  - intros i L1 Hi (HL1 & Hsame & Hcol).
    rewrite (partialSum_Ok n L1 U i k k HL1 HU) by lia. cbn [bind].
    rewrite (read_Ok n n A i k HA) by lia. cbn [bind].
    rewrite (read_Ok n n U k k HU) by lia. cbn [bind].
    destruct (nonzero (entry U k k)) eqn:Hp;
      [left | right; split; [reflexivity | split; [lia | apply nonzero_false; exact Hp]]].
    apply nonzero_true in Hp.
    destruct (set2_Ok n n L1 i k
                ((entry A i k - sumTo k (fun j => entry L1 i j * entry U j k))
                 / entry U k k) HL1)
      as (L2 & EL2 & HL2 & He); try lia.
    exists L2. split; [exact EL2|]. split; [exact HL2|]. split.
    + intros r c Hrc. rewrite He.
      destruct (Nat.eqb_spec r i) as [->|Hr]; destruct (Nat.eqb_spec c k) as [->|Hc];
        cbn [andb]; try (apply Hsame; lia). lia.
    + intros r Hr. rewrite He. rewrite Nat.eqb_refl.
      destruct (Nat.eqb_spec r i) as [->|Hne]; cbn [andb].
      * rewrite (sumTo_ext k (fun j => entry L1 i j * entry U j k)
                   (fun j => entry L i j * entry U j k)) by
          (intros j Hj; rewrite Hsame by lia; reflexivity).
        field. exact Hp.
      * apply Hcol. lia.
  - left. replace (S k + (n - S k))%nat with n in * by lia.
    exists L'. split; [exact EL|]. split; [exact HL'|]. split.
    + intros r c Hrc. apply Hsame. lia.
    + intros r Hr. apply Hcol. lia.
  - right. exact E.
Qed.

Lemma lowerColumn_pivot (n : nat) (A L U L' : Matrix) (k : nat) :
  shaped n n A -> shaped n n L -> shaped n n U -> (S k < n)%nat ->
  lowerColumn A U n k L = Ok L' -> entry U k k <> 0.
Proof.
  intros HA HL HU Hk. unfold lowerColumn.
  destruct (n - S k)%nat as [|m] eqn:Em; [lia|]. cbn [for_up].
  rewrite (partialSum_Ok n L U (S k) k k HL HU) by lia. cbn [bind].
  rewrite (read_Ok n n A (S k) k HA) by lia. cbn [bind].
  rewrite (read_Ok n n U k k HU) by lia. cbn [bind].
  destruct (nonzero (entry U k k)) eqn:Hp; [|discriminate].
  intros _. apply nonzero_true. exact Hp.
Qed.

Lemma luInvariant_init (n : nat) (A : Matrix) :
  luInvariant n A 0 (identityMatrix n) (createMatrix n).
Proof.
  unfold luInvariant, createMatrix.
  split; [apply shaped_identityMatrix|]. split; [apply shaped_zeroMatrix|].
  split; [intros i Hi; rewrite entry_identityMatrix by lia; nat_cases|].
  split; [intros i j Hi; rewrite entry_identityMatrix by lia; nat_cases|].
  split; [intros i j Hi _; rewrite entry_identityMatrix by lia; nat_cases|].
  split; [intros; apply entry_zeroMatrix|].
  split; [intros; apply entry_zeroMatrix | intros; lia].
Qed.

Lemma luInvariant_step (n : nat) (A L U L' U' : Matrix) (k : nat) :
  (k < n)%nat -> luInvariant n A k L U ->
  shaped n n U' ->
  (forall r c, c <> k \/ (k < r)%nat -> entry U' r c = entry U r c) ->
  (forall r, (r <= k)%nat ->
     entry U' r k = entry A r k - sumTo r (fun j => entry L r j * entry U' j k)) ->
  shaped n n L' ->
  (forall r c, c <> k \/ (r <= k)%nat -> entry L' r c = entry L r c) ->
  (forall r, (k < r < n)%nat ->
     entry L' r k * entry U' k k
     = entry A r k - sumTo k (fun j => entry L r j * entry U' j k)) ->
  luInvariant n A (S k) L' U'.
Proof.
  intros Hk (HL & HU & Hdiag & Hup & Hnew & Hlow & Hzero & Hprod)
         HU' HUsame HUcol HL' HLsame HLcol.
  assert (HupL' : forall i j, (i < j < n)%nat -> entry L' i j = 0).
  { intros i j Hij. rewrite HLsame by lia. apply Hup. exact Hij. }
  assert (HzeroU' : forall j, (k < j < n)%nat -> entry U' j k = 0).
  { intros j Hj. rewrite HUsame by lia. apply Hzero; lia. }
  unfold luInvariant.
  split; [exact HL'|]. split; [exact HU'|].
  split; [intros i Hi; rewrite HLsame by lia; apply Hdiag; exact Hi|].
  split; [exact HupL'|].
  split; [intros i c Hi Hc; rewrite HLsame by lia; apply Hnew; lia|].
  split.
  { intros i c Hi. rewrite HUsame by lia. apply Hlow. exact Hi. }
  split.
  { intros i c Hi Hc Hkc. rewrite HUsame by lia. apply Hzero; lia. }
  intros i c Hi Hc. destruct (Nat.eq_dec c k) as [->|Hne].
  - destruct (Nat.le_gt_cases i k) as [Hik|Hik].
    + rewrite (sumTo_truncate n (S i)) by
        (first [lia | intros j Hj; rewrite HupL' by lia; ring]).
      cbn [sumTo]. rewrite (HUcol i Hik).
      rewrite (sumTo_ext i (fun j => entry L' i j * entry U' j k)
                 (fun j => entry L i j * entry U' j k)) by
        (intros j Hj; rewrite HLsame by lia; reflexivity).
      rewrite (HLsame i i) by lia. rewrite Hdiag by exact Hi. ring.
    + rewrite (sumTo_truncate n (S k)) by
        (first [lia | intros j Hj; rewrite HzeroU' by lia; ring]).
      cbn [sumTo]. rewrite (HLcol i) by lia.
      rewrite (sumTo_ext k (fun j => entry L' i j * entry U' j k)
                 (fun j => entry L i j * entry U' j k)) by
        (intros j Hj; rewrite HLsame by lia; reflexivity).
      ring.
  - rewrite <- (Hprod i c) by lia. apply sumTo_ext. intros j Hj.
    rewrite (HUsame j c) by lia.
    destruct (Nat.eq_dec j k) as [->|Hjk].
    + rewrite (Hlow k c) by lia. ring.
    + rewrite HLsame by lia. reflexivity.
Qed.

(** On a square matrix [decomposeLU] either meets a zero pivot or returns
    factors for which the invariant holds at [n], and then none of the pivots
    it has divided by is zero. *)
Lemma decomposeLU_outcome (n : nat) (A : Matrix) :
  shaped n n A ->
  (exists L U, decomposeLU A = Ok (L, U) /\ luInvariant n A n L U /\
     forall k, (S k < n)%nat -> entry U k k <> 0) \/
  decomposeLU A = Err DivisionByZero.
Proof.
  intros HA. unfold decomposeLU. replace (length A) with n by (destruct HA; congruence).
  match goal with
  | |- (exists L U, for_up ?b _ _ _ = _ /\ _) \/ _ =>
      destruct (for_up_inv_or b
                  (fun k (LU : Matrix * Matrix) =>
                     luInvariant n A k (fst LU) (snd LU) /\
                     forall c, (S c < n)%nat -> (c < k)%nat -> entry (snd LU) c c <> 0)
                  DivisionByZero n 0 (identityMatrix n, createMatrix n))
        as [([L U] & E & H & Hpiv)|E]
  end.
  - split; [apply luInvariant_init | intros; lia].
  - intros k [L U] Hk [Hinv Hpiv]. cbn [fst snd] in Hinv, Hpiv.
    pose proof Hinv as (HL & HU & _).
    destruct (upperColumn_Ok n A L U k HA HL HU ltac:(lia))
      as (U' & EU & HU' & HUsame & HUcol).
    rewrite EU. cbn [bind].
    destruct (lowerColumn_outcome n A L U' k HA HL HU' ltac:(lia))
      as [(L' & EL & HL' & HLsame & HLcol)|[EL _]].
    + left. exists (L', U'). rewrite EL. split; [reflexivity|]. cbn [fst snd]. split.
      * apply (luInvariant_step n A L U L' U' k); try assumption. lia.
      * intros c Hc Hck. destruct (Nat.eq_dec c k) as [->|Hne].
        -- apply (lowerColumn_pivot n A L U' L' k); assumption.
        -- rewrite HUsame by lia. apply Hpiv; lia.
    + right. rewrite EL. reflexivity.
  - left. exists L, U. split; [exact E|]. split; [exact H|].
    intros k Hk. apply (Hpiv k Hk). lia.
  - right. exact E.
Qed.



(** ** [verifyDecomposition] *)

Lemma every_result_spec {A : Type} (p : nat -> A -> result bool) (f : nat -> A -> bool)
      (l : list A) :
  forall k, (forall j x, nth_error l j = Some x -> p (k + j)%nat x = Ok (f (k + j)%nat x)) ->
    exists b, every_result p k l = Ok b /\
      (b = true <-> forall j x, nth_error l j = Some x -> f (k + j)%nat x = true).
Proof.
  induction l as [|x l IH]; intros k H.
  - exists true. split; [reflexivity|]. split; [|reflexivity].
    intros _ j y Hj. destruct j; discriminate.
  - cbn [every_result]. pose proof (H 0%nat x eq_refl) as H0.
    rewrite Nat.add_0_r in H0. rewrite H0. cbn [bind].
    destruct (f k x) eqn:Ef.
    + destruct (IH (S k)) as (b & Eb & Hb).
      { intros j y Hj. replace (S k + j)%nat with (k + S j)%nat by lia. apply H. exact Hj. }
      exists b. split; [exact Eb|]. rewrite Hb. split.
      * intros Hall [|j] y Hj.
        -- injection Hj as <-. rewrite Nat.add_0_r. exact Ef.
        -- replace (k + S j)%nat with (S k + j)%nat by lia. apply Hall. exact Hj.
      * intros Hall j y Hj. replace (S k + j)%nat with (k + S j)%nat by lia.
        apply Hall. exact Hj.
    + exists false. split; [reflexivity|]. split; [discriminate|].
      intros Hall. specialize (Hall 0%nat x eq_refl). rewrite Nat.add_0_r in Hall.
      congruence.
Qed.

Lemma close_same (x : number) : close x (Some x) = true.
Proof.
  unfold close. replace (x - x) with 0 by ring. reflexivity.
Qed.

Lemma close_Some (x y : number) : close x (Some y) = true <-> abs (x - y) < tolerance.
Proof.
  unfold close. rewrite (Qclt_alt (abs (x - y)) tolerance).
  destruct (abs (x - y) ?= tolerance); split; congruence.
Qed.

(** What [verifyDecomposition] answers on square matrices. *)
Lemma verifyDecomposition_spec (n : nat) (A L U : Matrix) :
  shaped n n A -> shaped n n L -> shaped n n U ->
  exists P b, multiply L U = Ok P /\ shaped n n P /\
    verifyDecomposition A L U = Ok b /\
    (b = true <-> forall i j, (i < n)%nat -> (j < n)%nat ->
                    close (entry A i j) (Some (entry P i j)) = true).
Proof.
  intros HA HL HU. destruct (multiply_entries n L U HL HU) as (P & EP & HP & _).
  exists P. unfold verifyDecomposition. rewrite EP. cbn [bind].
  pose proof HA as [HlA _]. pose proof HP as [HlP _].
  set (inner := fun (i j : nat) (val : number) => close val (nth_error (nth i P []) j)).
  set (g := fun (i : nat) (row : Vector) =>
              match every_result (fun j val => Ok (inner i j val)) 0 row with
              | Ok b => b
              | Err _ => false
              end).
  destruct (every_result_spec
              (fun i row =>
                 every_result (fun j val =>
                                 lurow <- row_at P i ;;
                                 Ok (close val (nth_error lurow j))) 0 row)
              g A 0) as (b & Eb & Hb).
  { intros i row Hrow. cbn [Nat.add].
    assert (Hi : (i < length P)%nat).
    { rewrite HlP, <- HlA. apply nth_error_Some. rewrite Hrow. discriminate. }
    destruct (every_result_spec (fun j val => Ok (inner i j val)) (inner i) row 0)
      as (bi & Ebi & _); [reflexivity|].
    assert (Hext : forall (l : list number) k,
              every_result (fun j val => lurow <- row_at P i ;;
                                         Ok (close val (nth_error lurow j))) k l
              = every_result (fun j val => Ok (inner i j val)) k l).
    { intros l k. rewrite row_at_Ok by exact Hi. reflexivity. }
    rewrite Hext. unfold g. rewrite Ebi. reflexivity. }
  exists b. split; [reflexivity|]. split; [exact HP|]. split; [exact Eb|].
  rewrite Hb. cbn [Nat.add]. split.
  - intros Hall i j Hi Hj.
    specialize (Hall i (nth i A []) ltac:(apply nth_error_nth'; lia)).
    unfold g in Hall.
    destruct (every_result_spec (fun j val => Ok (inner i j val)) (inner i) (nth i A []) 0)
      as (bi & Ebi & Hbi); [reflexivity|].
    rewrite Ebi in Hall. subst bi.
    specialize (proj1 Hbi eq_refl j (entry A i j)). cbn [Nat.add]. unfold inner.
    rewrite (nth_error_nth' (nth i P []) 0) by (rewrite (shaped_row n n P i HP Hi); exact Hj).
    rewrite entry_nth. intros H. apply H. unfold entry. apply nth_error_nth'.
    rewrite (shaped_row n n A i HA Hi). exact Hj.
  - intros Hall i row Hrow.
    assert (Hi : (i < n)%nat).
    { rewrite <- HlA. apply nth_error_Some. rewrite Hrow. discriminate. }
    unfold g.
    destruct (every_result_spec (fun j val => Ok (inner i j val)) (inner i) row 0)
      as (bi & Ebi & Hbi); [reflexivity|].
    rewrite Ebi. apply Hbi. intros j val Hval. cbn [Nat.add]. unfold inner.
    assert (Hrow' : row = nth i A []) by (symmetry; apply nth_error_nth; exact Hrow).
    assert (Hj : (j < n)%nat).
    { rewrite <- (shaped_row n n A i HA Hi), <- Hrow'. apply nth_error_Some.
      rewrite Hval. discriminate. }
    rewrite (nth_error_nth' (nth i P []) 0) by (rewrite (shaped_row n n P i HP Hi); exact Hj).
    rewrite entry_nth.
    replace val with (entry A i j); [apply Hall; assumption|].
    unfold entry. rewrite <- Hrow'. apply nth_error_nth. exact Hval.
Qed.



(** X21.  On [n x n] matrices [verifyDecomposition(A, L, U)] returns, and
    returns [true] exactly when every entry of [A] is within [1e-8] of the
    corresponding entry of [multiply(L, U)]; so it returns [true] when
    [multiply(L, U)] is [A]. *)
Theorem verifyDecomposition_within_tolerance (n : nat) (A L U : Matrix) :
  shaped n n A -> shaped n n L -> shaped n n U ->
  exists P b, multiply L U = Ok P /\ shaped n n P /\
    verifyDecomposition A L U = Ok b /\
    (b = true <-> forall i j, (i < n)%nat -> (j < n)%nat ->
                    abs (entry A i j - entry P i j) < tolerance) /\
    (P = A -> b = true).
Proof.
  intros HA HL HU.
  destruct (verifyDecomposition_spec n A L U HA HL HU) as (P & b & EP & HP & Eb & Hb).
  exists P, b. split; [exact EP|]. split; [exact HP|]. split; [exact Eb|]. split.
  - rewrite Hb. split; intros H i j Hi Hj; apply close_Some; apply H; assumption.
  - intros ->. apply Hb. intros i j _ _. apply close_same.
Qed.

Lemma verifyDecomposition_within_tolerance_witness :
  exists P b,
    multiply (zmat [[1; 0]; [2; 1]]%Z) (zmat [[2; 1]; [0; 3]]%Z) = Ok P /\ shaped 2 2 P /\
    verifyDecomposition (zmat [[2; 1]; [4; 5]]%Z) (zmat [[1; 0]; [2; 1]]%Z)
                        (zmat [[2; 1]; [0; 3]]%Z) = Ok b /\
    (b = true <-> forall i j, (i < 2)%nat -> (j < 2)%nat ->
                    abs (entry (zmat [[2; 1]; [4; 5]]%Z) i j - entry P i j) < tolerance) /\
    (P = zmat [[2; 1]; [4; 5]]%Z -> b = true).
Proof.
  apply (verifyDecomposition_within_tolerance 2).
  - split; [reflexivity | repeat constructor].
  - split; [reflexivity | repeat constructor].
  - split; [reflexivity | repeat constructor].
Defined.

(** X22.  On a square matrix the only way [decomposeLU] can fail is a zero
    pivot, and it does not exchange rows to avoid one: with at least two rows
    and [A[0][0] = 0] the division by [U[0][0]] is a division by zero. *)
Theorem decomposeLU_zero_pivot (n : nat) (A : Matrix) :
  shaped n n A ->
  (forall e, decomposeLU A = Err e -> e = DivisionByZero) /\
  ((2 <= n)%nat -> entry A 0 0 = 0 -> decomposeLU A = Err DivisionByZero).
Proof.
  intros HA. split.
  - intros e E. destruct (decomposeLU_outcome n A HA) as [(L0 & U0 & E0 & _)|E0];
      congruence.
  - intros Hn H00. unfold decomposeLU. replace (length A) with n by (destruct HA; congruence).
    destruct n as [|[|n]]; try lia. cbn [for_up].
    destruct (upperColumn_Ok (S (S n)) A (identityMatrix (S (S n))) (createMatrix (S (S n))) 0
                HA (shaped_identityMatrix _) (shaped_zeroMatrix _ _) ltac:(lia))
      as (U' & EU & HU' & _ & Hcol).
    rewrite EU. cbn [bind]. unfold lowerColumn.
    replace (S (S n) - 1)%nat with (S n) by lia. cbn [for_up].
    rewrite (partialSum_Ok (S (S n)) _ U' 1 0 0 (shaped_identityMatrix _) HU') by lia.
    cbn [bind]. rewrite (read_Ok _ _ A 1 0 HA) by lia. cbn [bind].
    rewrite (read_Ok _ _ U' 0 0 HU') by lia. cbn [bind].
    rewrite (Hcol 0%nat) by lia. rewrite H00. cbn [sumTo].
    replace (0 - 0) with 0 by ring.
    replace (nonzero 0) with false by (symmetry; apply nonzero_false; reflexivity).
    reflexivity.
Qed.

Lemma decomposeLU_zero_pivot_witness :
  (forall e, decomposeLU (zmat [[0; 1]; [1; 0]]%Z) = Err e -> e = DivisionByZero) /\
  ((2 <= 2)%nat -> entry (zmat [[0; 1]; [1; 0]]%Z) 0 0 = 0 ->
   decomposeLU (zmat [[0; 1]; [1; 0]]%Z) = Err DivisionByZero).
Proof.
  apply (decomposeLU_zero_pivot 2).
  split; [reflexivity | repeat constructor].
Defined.

(** ** [verifyCholeskyDecomposition] *)

Lemma mapi_result_mapi {A B : Type} (f : nat -> A -> result B) (g : nat -> A -> B)
      (l : list A) :
  forall k, (forall i x, nth_error l i = Some x -> f (k + i)%nat x = Ok (g (k + i)%nat x)) ->
            mapi_result f k l = Ok (mapi g k l).
Proof.
  induction l as [|x l IH]; intros k H; [reflexivity|].
  cbn [mapi_result mapi]. rewrite <- (Nat.add_0_r k) at 1. rewrite (H 0%nat x eq_refl).
  cbn [bind]. rewrite (IH (S k)).
  - cbn [bind]. rewrite Nat.add_0_r. reflexivity.
  - intros i y Hi. replace (S k + i)%nat with (k + S i)%nat by lia. apply H. exact Hi.
Qed.

Lemma reduceRow_sum (n : nat) (L : Matrix) (i j : nat) :
  shaped n n L -> (i < n)%nat -> (j < n)%nat ->
  forall m k, (k + m = n)%nat ->
    reduceRow L j k (skipn k (nth i L []))
              (Some (sumTo k (fun t => entry L i t * entry L j t)))
    = Ok (Some (sumTo n (fun t => entry L i t * entry L j t))).
Proof.
  intros HL Hi Hj. pose proof (shaped_row n n L i HL Hi) as Hrow.
  induction m as [|m IH]; intros k Hk.
  - assert (k = n) by lia. subst k. rewrite skipn_all2 by lia. reflexivity.
  - rewrite (skipn_nth_error _ k (entry L i k)) by
      (unfold entry; apply nth_error_nth'; lia).
    cbn [reduceRow]. rewrite row_at_Ok by (destruct HL; lia). cbn [bind].
    rewrite (nth_error_nth' _ 0) by (rewrite (shaped_row n n L j HL Hj); lia).
    cbn [addMul]. rewrite entry_nth. apply (IH (S k)). lia.
Qed.

Lemma reconstruct_entries (n : nat) (L : Matrix) :
  shaped n n L ->
  exists R, reconstruct L = Ok R /\
    forall i j, (i < n)%nat -> (j < n)%nat ->
      exists rrow, nth_error R i = Some rrow /\
        nth_error rrow j = Some (Some (sumTo n (fun t => entry L i t * entry L j t))).
Proof.
  intros HL. pose proof HL as [Hl _]. unfold reconstruct.
  rewrite (mapi_result_mapi _
             (fun i (row : Vector) =>
                mapi (fun j (_ : number) =>
                        Some (sumTo n (fun t => entry L i t * entry L j t))) 0 row)).
  - eexists. split; [reflexivity|]. intros i j Hi Hj.
    eexists. split.
    + rewrite (nth_error_nth' _ []) by (rewrite length_mapi; lia).
      rewrite (nth_mapi _ _ _ _ [] []) by lia. reflexivity.
    + cbn [Nat.add].
      rewrite (nth_error_nth' _ None) by
        (rewrite length_mapi, (shaped_row n n L i HL Hi); exact Hj).
      rewrite (nth_mapi _ _ _ _ 0 None) by (rewrite (shaped_row n n L i HL Hi); exact Hj).
      reflexivity.
  - intros i row Hrow. cbn [Nat.add].
    assert (Hi : (i < n)%nat).
    { rewrite <- Hl. apply nth_error_Some. rewrite Hrow. discriminate. }
    assert (Hrow' : row = nth i L []) by (symmetry; apply nth_error_nth; exact Hrow).
    apply mapi_result_mapi. intros j x Hx. cbn [Nat.add].
    assert (Hj : (j < n)%nat).
    { rewrite <- (shaped_row n n L i HL Hi), <- Hrow'. apply nth_error_Some.
      rewrite Hx. discriminate. }
    rewrite Hrow'. apply (reduceRow_sum n L i j HL Hi Hj n 0). lia.
Qed.

Lemma exceeds_same (x : number) : exceeds (Some x) (Some x) = false.
Proof.
  unfold exceeds. replace (x - x) with 0 by ring. reflexivity.
Qed.

(** X23.  [verifyCholeskyDecomposition(A, L)] returns without throwing for
    every square [L] when [A] is the product
    [multiplyMatrices(L, transposeMatrix(L))], as the script forms it. *)
Theorem verifyCholeskyDecomposition_accepts (n : nat) (A L T : Matrix) :
  shaped n n L -> (0 < n)%nat ->
  transposeMatrix L = Ok T -> multiplyMatrices L T = Product A ->
  verifyCholeskyDecomposition A L = Verified.
Proof.
  intros HL Hn ET EA.
  destruct (transposeMatrix_entries n n L HL Hn) as (T' & ET' & HT & HTe).
  rewrite ET in ET'. injection ET' as <-.
  destruct (multiplyMatrices_product_aux n n n L T HL HT Hn Hn) as (P & EP & HP & HPe).
  rewrite EA in EP. injection EP as <-.
  destruct (reconstruct_entries n L HL) as (R & ER & HR).
  unfold verifyCholeskyDecomposition. rewrite ER. cbn [bind].
  replace (length A) with n by (destruct HP; congruence).
  match goal with
  | |- match for_up ?b _ _ _ with _ => _ end = _ =>
      destruct (for_up_inv b (fun _ thrown => thrown = false) n 0 false) as (t & Et & Ht)
  end.
  - reflexivity.
  - intros i thrown Hi ->.
    match goal with
    | |- exists s', for_up ?b _ _ _ = _ /\ _ =>
        destruct (for_up_inv b (fun _ thrown => thrown = false) n 0 false)
          as (t & Et & Ht)
    end.
    + reflexivity.
    + intros j thrown Hj ->. rewrite row_at_Ok by (destruct HP; lia). cbn [bind].
      destruct (HR i j) as (rrow & Hrrow & Hv); try lia.
      rewrite Hrrow. cbn [bind]. rewrite Hv.
      rewrite (nth_error_nth' _ 0) by (rewrite (shaped_row n n A i HP); lia).
      rewrite entry_nth, HPe by lia.
      rewrite (sumTo_ext n (fun k => entry L i k * entry T k j)
                 (fun t => entry L i t * entry L j t)) by
        (intros k Hk; rewrite HTe by lia; reflexivity).
      rewrite exceeds_same. eexists. split; reflexivity.
    + exists t. split; [exact Et | exact Ht].
  - rewrite Et, Ht. reflexivity.
Qed.

Lemma verifyCholeskyDecomposition_accepts_witness :
  verifyCholeskyDecomposition (zmat [[4; 2; -2]; [2; 5; 3]; [-2; 3; 6]]%Z)
                              (zmat [[2; 0; 0]; [1; 2; 0]; [-1; 2; 1]]%Z) = Verified.
Proof.
  apply (verifyCholeskyDecomposition_accepts 3 _ _ (zmat [[2; 1; -1]; [0; 2; 2]; [0; 0; 1]]%Z)).
  - split; [reflexivity | repeat constructor].
  - lia.
  - run_matrix.
  - vm_compute. reflexivity.
Defined.
